(** * YScanF: the buffered scanner of yscanf2.h and yscanf3.h

    A shallow embedding of the two header-only scanners of the repository:
    - [V3] is [yscanf3.h] (version 3.0, "EOF-correct version"): the buffer
      with its latched [yeof] flag, the [_ok] readers and [yscanf];
    - [V2] is [yscanf2.h] (version 2.0): [yrefill], the overflow-detecting
      parsers [yparse_int] / [yparse_uint], the saturating readers and the
      [yscanf] that carries a [skip_space] flag.

    C [int] values are integers of [Z]; [long long], [unsigned long long],
    [int] and [unsigned] arithmetic is written with its wrap-around.  Bytes
    of the input and of format strings are [Byte.byte]. *)

From Stdlib Require Import Strings.String Strings.Byte.
From Stdlib Require Import ZArith List Lia Bool Arith.
Import ListNotations.
Local Open Scope Z_scope.

(* ------------------------------------------------------------------ *)
(** * Constants and types taken from the C library *)

(** [EOF] of <stdio.h>: a negative [int], -1 in the C libraries in use. *)
Definition EOF : Z := -1.

(** [#define YSCANF_BUFFER_SIZE (1 << 22)] *)
Definition YSCANF_BUFFER_SIZE : N := N.shiftl 1 22.

(** [(unsigned char)*yptr]: the value of a byte as an [int]. *)
Definition uchar (b : byte) : Z := Z.of_N (Byte.to_N b).

(** [isspace] of <ctype.h> in the C locale: space, \t, \n, \v, \f, \r. *)
Definition isspace (c : Z) : bool := (c =? 32) || ((9 <=? c) && (c <=? 13)).

(** [c >= '0' && c <= '9'] *)
Definition is_digit (c : Z) : bool := (48 <=? c) && (c <=? 57).

(** Two's complement wrap-around of the fixed-width integer types. *)
Definition wrap_signed (w : Z) (x : Z) : Z :=
  (x + 2 ^ (w - 1)) mod 2 ^ w - 2 ^ (w - 1).
Definition wrap_unsigned (w : Z) (x : Z) : Z := x mod 2 ^ w.

Definition int32 := wrap_signed 32.
Definition int64 := wrap_signed 64.
Definition uint32 := wrap_unsigned 32.
Definition uint64 := wrap_unsigned 64.

Definition INT32_MAX : Z := 2147483647.
Definition INT32_MIN : Z := -2147483648.
Definition UINT32_MAX : Z := 4294967295.
Definition LLONG_MAX : Z := 9223372036854775807.
Definition LLONG_MIN : Z := -9223372036854775808.
Definition ULLONG_MAX : Z := 18446744073709551615.

(* ------------------------------------------------------------------ *)
(** * Outcomes of the model *)

(** The two ways a run of the model can fail to be a run of the C code:
    a loop was given too little fuel, or [va_arg] found no argument left
    (undefined behaviour in C). *)
Inductive fault := OutOfFuel | NoArgument.

Inductive result (A : Type) : Type :=
| Ok (a : A)
| Err (e : fault).
Arguments Ok {A} a.
Arguments Err {A} e.

Definition bind {A B : Type} (m : result A) (k : A -> result B) : result B :=
  match m with
  | Ok a => k a
  | Err e => Err e
  end.

Notation "'let*' p ':=' c 'in' k" :=
  (bind c (fun p => k))
  (at level 61, p pattern, c at next level, right associativity).

(* ------------------------------------------------------------------ *)
(** * The underlying stream

    [stdin] is a call-counting stub: [chunks] lists what the successive
    reads deliver (an empty chunk is a read that reports zero bytes; the
    stream keeps reporting zero once the list is used up), [freads] counts
    the calls of [fread]. *)

Record FILE := mkFILE { chunks : list (list byte); freads : nat }.

(** The first [n] elements of [l], and the rest. *)
Fixpoint split_at (n : N) (l : list byte) : list byte * list byte :=
  match l with
  | [] => ([], [])
  | b :: t =>
      if N.eqb n 0 then ([], l)
      else let (a, r) := split_at (N.pred n) t in (b :: a, r)
  end.

(** [fread(buf, 1, cap, f)]: the bytes delivered, and the stream after. A chunk
    larger than [cap] is delivered in pieces. *)
Definition fread (cap : N) (f : FILE) : list byte * FILE :=
  match chunks f with
  | [] => ([], mkFILE [] (S (freads f)))
  | ch :: rest =>
      let (got, left) := split_at cap ch in
      (got, mkFILE (match left with [] => rest | _ => left :: rest end)
                   (S (freads f)))
  end.

(** A regular file with the given content, not read yet. *)
Definition file_of (content : list byte) : FILE := mkFILE [content] 0.

(** Bytes the stream can still deliver. *)
Definition pending (f : FILE) : nat :=
  fold_right (fun ch n => (length ch + n)%nat) 0%nat (chunks f).

(** What the stream delivers before it first reports zero bytes. *)
Fixpoint upcoming (chs : list (list byte)) : list byte :=
  match chs with
  | [] => []
  | [] :: _ => []
  | ch :: rest => ch ++ upcoming rest
  end.

(* ------------------------------------------------------------------ *)
(** * Output slots

    What the pointers passed after the format point to. *)

(** The pieces of a floating-point numeral as the double readers consume
    them.  The IEEE arithmetic that folds them into a [double] is not
    modelled. *)
Record numeral := mkNumeral {
  n_sign : Z;                 (* 1 or -1 *)
  n_int : list Z;             (* digits of the integer part *)
  n_frac : list Z;            (* digits after the '.' *)
  n_exp : option (Z * Z)      (* sign and value of the exponent *)
}.

Inductive val :=
| Vundef
| Vint (z : Z)        (* int *)
| Vuint (z : Z)       (* unsigned *)
| Vll (z : Z)         (* long long *)
| Vull (z : Z)        (* unsigned long long *)
| Vdouble (d : numeral)
| Vchar (c : Z)       (* char *)
| Vstr (s : list Z).  (* char[], the bytes up to and including the NUL *)

(** Writing at index [i]; [None] when there is no such slot. *)
Fixpoint poke (i : nat) (v : val) (slots : list val) : option (list val) :=
  match slots, i with
  | [], _ => None
  | _ :: t, O => Some (v :: t)
  | x :: t, S j => option_map (cons x) (poke j v t)
  end.

(** A format string as a C string: [*fmt] is 0 at the end. *)
Definition deref (fmt : list byte) : Z :=
  match fmt with
  | [] => 0
  | c :: _ => uchar c
  end.

(** [fmt++] *)
Definition advance (fmt : list byte) : list byte := tl fmt.

(* ------------------------------------------------------------------ *)
(** * yscanf3.h *)

Module V3.

(** [ybuf], [yptr], [yend] (as offsets into [ybuf]), [yeof], and [stdin]. *)
Record state := mkState {
  ybuf : list byte;
  yptr : nat;
  yend : nat;
  yeof : bool;
  stdin : FILE
}.

(** The state at program start: [yptr=ybuf], [yend=ybuf], [yeof=0]. *)
Definition start (f : FILE) : state := mkState [] 0 0 false f.

Definition yget (st : state) : Z * state :=
  if (yend st <=? yptr st)%nat then
    if yeof st then (EOF, st)
    else
      let (got, f) := fread YSCANF_BUFFER_SIZE (stdin st) in
      let len := length got in
      if (len =? 0)%nat then (EOF, mkState (ybuf st) (yptr st) (yend st) true f)
      else
        let buf := got ++ skipn len (ybuf st) in
        (uchar (nth 0 buf x00), mkState buf 1 len (yeof st) f)
  else
    (uchar (nth (yptr st) (ybuf st) x00),
     mkState (ybuf st) (S (yptr st)) (yend st) (yeof st) (stdin st)).

Definition ypeek (st : state) : Z * state :=
  if (yend st <=? yptr st)%nat then
    if yeof st then (EOF, st)
    else
      let (got, f) := fread YSCANF_BUFFER_SIZE (stdin st) in
      let len := length got in
      if (len =? 0)%nat then (EOF, mkState (ybuf st) (yptr st) (yend st) true f)
      else
        let buf := got ++ skipn len (ybuf st) in
        (uchar (nth 0 buf x00), mkState buf 0 len (yeof st) f)
  else
    (uchar (nth (yptr st) (ybuf st) x00), st).

(** Bytes not consumed yet: an upper bound on the iterations of any loop
    that consumes a byte per iteration. *)
Definition avail (st : state) : nat := ((yend st - yptr st) + pending (stdin st))%nat.

(** The bytes between [yptr] and [yend]. *)
Definition buffered (st : state) : list byte :=
  map (fun i => nth i (ybuf st) x00) (seq (yptr st) (yend st - yptr st)).

(** The input as the readers see it: the bytes [yget] will deliver, in
    order, before it first returns [EOF]. *)
Definition input (st : state) : list byte :=
  buffered st ++ (if yeof st then [] else upcoming (chunks (stdin st))).

(** [while((c=ypeek())!=EOF&&isspace(c))yget();] *)
Fixpoint yskip_space_loop (fuel : nat) (st : state) : result state :=
  match fuel with
  | O => Err OutOfFuel
  | S fuel' =>
      let (c, st1) := ypeek st in
      if negb (c =? EOF) && isspace c then
        yskip_space_loop fuel' (snd (yget st1))
      else Ok st1
  end.

Definition yskip_space (st : state) : result state :=
  yskip_space_loop (S (avail st)) st.

(** [while((c=ypeek())>='0'&&c<='9'){ acc = step(acc, yget()-'0'); }] *)
Fixpoint ydigits_loop {A : Type} (step : A -> Z -> A) (fuel : nat) (acc : A)
    (st : state) : result (A * state) :=
  match fuel with
  | O => Err OutOfFuel
  | S fuel' =>
      let (c, st1) := ypeek st in
      if is_digit c then
        let (d, st2) := yget st1 in
        ydigits_loop step fuel' (step acc (d - 48)) st2
      else Ok (acc, st1)
  end.

Definition ydigits {A : Type} (step : A -> Z -> A) (acc : A) (st : state)
  : result (A * state) :=
  ydigits_loop step (S (avail st)) acc st.

(** The readers take the content of [*out] and return the value returned by
    the C function, the content of [*out] afterwards, and the state. *)
Definition yread_int_ok (out : val) (st : state) : result (Z * val * state) :=
  let* st := yskip_space st in
  let (c, st) := ypeek st in
  if c =? EOF then Ok (0, out, st)
  else
    let (sign, st) :=
      if (c =? 43) || (c =? 45)
      then ((if c =? 45 then -1 else 1), snd (yget st))
      else (1, st) in
    let (c, st) := ypeek st in
    if (c <? 48) || (c >? 57) then Ok (0, out, st)
    else
      let* (x, st) := ydigits (fun x d => int64 (x * 10 + d)) 0 st in
      Ok (1, Vint (int32 (int64 (x * sign))), st).

Definition yread_uint_ok (out : val) (st : state) : result (Z * val * state) :=
  let* st := yskip_space st in
  let (c, st) := ypeek st in
  if (c =? EOF) || (c <? 48) || (c >? 57) then Ok (0, out, st)
  else
    let* (x, st) := ydigits (fun x d => uint64 (x * 10 + d)) 0 st in
    Ok (1, Vuint (uint32 x), st).

Definition yread_double_ok (out : val) (st : state) : result (Z * val * state) :=
  let* st := yskip_space st in
  let (c, st) := ypeek st in
  if c =? EOF then Ok (0, out, st)
  else
    let (sign, st) :=
      if (c =? 43) || (c =? 45)
      then ((if c =? 45 then -1 else 1), snd (yget st))
      else (1, st) in
    let (c, st) := ypeek st in
    if ((c <? 48) || (c >? 57)) && negb (c =? 46) then Ok (0, out, st)
    else
      let* (x, st) := ydigits (fun ds d => ds ++ [d]) [] st in
      let (c, st) := ypeek st in
      let* (frac, st) :=
        if c =? 46 then ydigits (fun ds d => ds ++ [d]) [] (snd (yget st))
        else Ok ([], st) in
      let (c, st) := ypeek st in
      let* (e, st) :=
        if (c =? 101) || (c =? 69) then
          let st := snd (yget st) in
          let (c, st) := ypeek st in
          let (es, st) :=
            if (c =? 43) || (c =? 45)
            then ((if c =? 45 then -1 else 1), snd (yget st))
            else (1, st) in
          let* (ep, st) := ydigits (fun ep d => int32 (ep * 10 + d)) 0 st in
          Ok (Some (es, ep), st)
        else Ok (None, st) in
      Ok (1, Vdouble (mkNumeral sign x frac e), st).

(** [while((c=ypeek())!=EOF&&!isspace(c)){*s++=yget();}] *)
Fixpoint ystr_loop (fuel : nat) (s : list Z) (st : state)
  : result (list Z * state) :=
  match fuel with
  | O => Err OutOfFuel
  | S fuel' =>
      let (c, st1) := ypeek st in
      if negb (c =? EOF) && negb (isspace c) then
        let (d, st2) := yget st1 in
        ystr_loop fuel' (s ++ [d]) st2
      else Ok (s, st1)
  end.

(** The destination of a string reader is the C string at [s]: the bytes
    stored before the terminating 0.  Its capacity is the caller's affair. *)
Definition yread_str_ok (out : val) (st : state) : result (Z * val * state) :=
  let* st := yskip_space st in
  let (c, st) := ypeek st in
  if c =? EOF then Ok (0, out, st)
  else
    let* (s, st) := ystr_loop (S (avail st)) [] st in
    Ok (1, Vstr s, st).

(** [while(c!=EOF&&c!='\n'&&c!='\r'){if(len<maxlen-1)s[len++]=(char)c;c=yget();}]
    with [s] the bytes [s[0..len)] stored so far. *)
Fixpoint yline_loop (fuel : nat) (maxlen : Z) (c : Z) (s : list Z) (st : state)
  : result (Z * list Z * state) :=
  match fuel with
  | O => Err OutOfFuel
  | S fuel' =>
      if negb (c =? EOF) && negb (c =? 10) && negb (c =? 13) then
        let s := if Z.of_nat (length s) <? maxlen - 1 then s ++ [c] else s in
        let (c, st) := yget st in
        yline_loop fuel' maxlen c s st
      else Ok (c, s, st)
  end.

(** The tail shared by both line readers, from the inner [while] on. *)
Definition yline_rest (maxlen : Z) (c : Z) (st : state)
  : result (Z * list Z * state) :=
  let* (c, s, st) := yline_loop (S (S (avail st))) maxlen c [] st in
  let st :=
    if c =? 13 then
      let (c2, st) := ypeek st in
      if c2 =? 10 then snd (yget st) else st
    else st in
  Ok (1, s, st).

(** [while(1){...}] of [yread_line_ok]. *)
Fixpoint yread_line_loop (fuel : nat) (s : list Z) (maxlen : Z) (st : state)
  : result (Z * list Z * state) :=
  match fuel with
  | O => Err OutOfFuel
  | S fuel' =>
      let (c, st) := yget st in
      if c =? EOF then Ok (0, s, st)
      else if (c =? 10) || (c =? 13) then yread_line_loop fuel' s maxlen st
      else yline_rest maxlen c st
  end.

(** The line readers take the C string at [s] and return it as it is
    afterwards. *)
Definition yread_line_ok (s : list Z) (maxlen : Z) (st : state)
  : result (Z * list Z * state) :=
  yread_line_loop (S (avail st)) s maxlen st.

Definition ygetline_ok (s : list Z) (maxlen : Z) (st : state)
  : result (Z * list Z * state) :=
  let (c, st) := yget st in
  if c =? EOF then Ok (0, s, st)
  else yline_rest maxlen c st.

Definition yread_ll_ok (out : val) (st : state) : result (Z * val * state) :=
  let* st := yskip_space st in
  let (c, st) := ypeek st in
  if c =? EOF then Ok (0, out, st)
  else
    let (sign, st) :=
      if (c =? 43) || (c =? 45)
      then ((if c =? 45 then -1 else 1), snd (yget st))
      else (1, st) in
    let (c, st) := ypeek st in
    if (c <? 48) || (c >? 57) then Ok (0, out, st)
    else
      let* (x, st) := ydigits (fun x d => int64 (x * 10 + d)) 0 st in
      Ok (1, Vll (int64 (x * sign)), st).

Definition yread_ull_ok (out : val) (st : state) : result (Z * val * state) :=
  let* st := yskip_space st in
  let (c, st) := ypeek st in
  if (c =? EOF) || (c <? 48) || (c >? 57) then Ok (0, out, st)
  else
    let* (x, st) := ydigits (fun x d => uint64 (x * 10 + d)) 0 st in
    Ok (1, Vull x, st).

(** The [%c] case of [yscanf], which reads inline. *)
Definition yread_char (out : val) (st : state) : result (Z * val * state) :=
  let (c, st) := yget st in
  if c =? EOF then Ok (0, out, st)
  else Ok (1, Vchar c, st).

(** ** The dispatcher *)

(** The variables of [yscanf]'s loop: [fmt], [ap] (the index of the next
    argument), [cnt], the output slots and the buffer. *)
Record config := mkConfig {
  fmt : list byte;
  ap : nat;
  cnt : Z;
  slots : list val;
  io : state
}.

(** One iteration either goes round the loop or returns. *)
Inductive step :=
| Next (c : config)
| Return (r : Z) (sl : list val) (st : state).

(** A conversion: [p=va_arg(ap,...); if(!reader(p)){return cnt?cnt:EOF;}
    cnt++;] and the [fmt++] that ends the iteration. *)
Definition convert (reader : val -> state -> result (Z * val * state))
    (c : config) (f : list byte) : result step :=
  match nth_error (slots c) (ap c) with
  | None => Err NoArgument
  | Some out =>
      let* (ok, out', st) := reader out (io c) in
      match poke (ap c) out' (slots c) with
      | None => Err NoArgument
      | Some sl =>
          if ok =? 0 then Ok (Return (if cnt c =? 0 then EOF else cnt c) sl st)
          else Ok (Next (mkConfig (advance f) (S (ap c)) (int32 (cnt c + 1)) sl st))
      end
  end.

(** The body of the loop [while( *fmt ){...}]. *)
Definition yscanf_step (c : config) : result step :=
  let f := fmt c in
  if isspace (deref f) then
    let* st := yskip_space (io c) in
    Ok (Next (mkConfig (advance f) (ap c) (cnt c) (slots c) st))
  else if negb (deref f =? 37) then
    Ok (Next (mkConfig (advance f) (ap c) (cnt c) (slots c) (io c)))
  else
    let f := advance f in
    if deref f =? 100 then convert yread_int_ok c f
    else if deref f =? 117 then convert yread_uint_ok c f
    else if deref f =? 108 then
      let f := advance f in
      if deref f =? 108 then
        let f := advance f in
        if deref f =? 100 then convert yread_ll_ok c f
        else if deref f =? 117 then convert yread_ull_ok c f
        else Ok (Return (-1) (slots c) (io c))
      else Ok (Return (-1) (slots c) (io c))
    else if (deref f =? 102) || (deref f =? 101) || (deref f =? 103) then
      convert yread_double_ok c f
    else if deref f =? 115 then convert yread_str_ok c f
    else if deref f =? 99 then convert yread_char c f
    else Ok (Return (-1) (slots c) (io c)).

Fixpoint yscanf_loop (fuel : nat) (c : config) {struct fuel}
  : result (Z * list val * state) :=
  if deref (fmt c) =? 0 then Ok (cnt c, slots c, io c)
  else
    match fuel with
    | O => Err OutOfFuel
    | S fuel' =>
        let* s := yscanf_step c in
        match s with
        | Next c' => yscanf_loop fuel' c'
        | Return r sl st => Ok (r, sl, st)
        end
    end.

(** [yscanf(fmt, ...)] with the contents of the pointed-to slots: the value
    returned, the slots and the buffer afterwards.  Every iteration advances
    [fmt], so its length is fuel enough. *)
Definition yscanf (f : list byte) (sl : list val) (st : state)
  : result (Z * list val * state) :=
  yscanf_loop (length f) (mkConfig f 0 0 sl st).

(** The dispatcher, started in [c], comes to the head of its loop in [c']. *)
Inductive reaches : config -> config -> Prop :=
| reaches_here c : reaches c c
| reaches_next c c1 c' :
    deref (fmt c) <> 0 -> yscanf_step c = Ok (Next c1) -> reaches c1 c' ->
    reaches c c'.

(** The tags after ['%'] that [yscanf] converts: d, u, lld, llu, f, e, g,
    s, c. *)
Definition tags : list (list byte) :=
  [ [x64]; [x75]; [x6c; x6c; x64]; [x6c; x6c; x75];
    [x66]; [x65]; [x67]; [x73]; [x63] ].

(** Sequences of calls of [yget] and [ypeek]. *)
Inductive call := Get | Peek.

Definition run_call (o : call) (st : state) : Z * state :=
  match o with
  | Get => yget st
  | Peek => ypeek st
  end.

Fixpoint run_calls (os : list call) (st : state) : list Z * state :=
  match os with
  | [] => ([], st)
  | o :: os' =>
      let (c, st1) := run_call o st in
      let (cs, st2) := run_calls os' st1 in
      (c :: cs, st2)
  end.

(** The next call refills, and the stream reports zero bytes. *)
Definition zero_refill (st : state) : Prop :=
  (yend st <= yptr st)%nat /\ yeof st = false /\
  fst (fread YSCANF_BUFFER_SIZE (stdin st)) = [].

End V3.

(* ------------------------------------------------------------------ *)
(** * yscanf2.h *)

Module V2.

(** [ybuf], [yptr], [yend] (as offsets into [ybuf]) and [stdin]. *)
Record state := mkState {
  ybuf : list byte;
  yptr : nat;
  yend : nat;
  stdin : FILE
}.

Definition start (f : FILE) : state := mkState [] 0 0 f.

Definition yrefill (st : state) : state :=
  let (got, f) := fread YSCANF_BUFFER_SIZE (stdin st) in
  let len := length got in
  mkState (got ++ skipn len (ybuf st)) 0 len f.

Definition ynext_char (st : state) : Z * state :=
  if (yend st <=? yptr st)%nat then
    let st := yrefill st in
    if (yend st <=? yptr st)%nat then (EOF, st)
    else (uchar (nth (yptr st) (ybuf st) x00),
          mkState (ybuf st) (S (yptr st)) (yend st) (stdin st))
  else (uchar (nth (yptr st) (ybuf st) x00),
        mkState (ybuf st) (S (yptr st)) (yend st) (stdin st)).

Definition ypeek_char (st : state) : Z * state :=
  if (yend st <=? yptr st)%nat then
    let st := yrefill st in
    if (yend st <=? yptr st)%nat then (EOF, st)
    else (uchar (nth (yptr st) (ybuf st) x00), st)
  else (uchar (nth (yptr st) (ybuf st) x00), st).

Definition avail (st : state) : nat := ((yend st - yptr st) + pending (stdin st))%nat.

(** [while ((c = ypeek_char()) != EOF && isspace(c)) ynext_char();] *)
Fixpoint yskip_space_loop (fuel : nat) (st : state) : result state :=
  match fuel with
  | O => Err OutOfFuel
  | S fuel' =>
      let (c, st1) := ypeek_char st in
      if negb (c =? EOF) && isspace c then
        yskip_space_loop fuel' (snd (ynext_char st1))
      else Ok st1
  end.

Definition yskip_space_input (st : state) : result state :=
  yskip_space_loop (S (avail st)) st.

(** [while ((c = ynext_char()) >= '0' && c <= '9');] *)
Fixpoint yconsume_loop (fuel : nat) (st : state) : result state :=
  match fuel with
  | O => Err OutOfFuel
  | S fuel' =>
      let (c, st) := ynext_char st in
      if is_digit c then yconsume_loop fuel' st else Ok st
  end.

(** The accumulation loop of [yparse_int] ([wrap] is [int64]) and of
    [yparse_uint] ([wrap] is [uint64]); returns [x] and [*overflow]. *)
Fixpoint yparse_loop (wrap : Z -> Z) (fuel : nat) (x c : Z) (st : state)
  : result (Z * Z * state) :=
  match fuel with
  | O => Err OutOfFuel
  | S fuel' =>
      if is_digit c then
        let next := wrap (x * 10 + (c - 48)) in
        if next <? x then
          let* st := yconsume_loop (S (avail st)) st in
          Ok (x, 1, st)
        else
          let (c, st) := ynext_char st in
          yparse_loop wrap fuel' next c st
      else Ok (x, 0, st)
  end.

(** The parsers return the value and [*overflow]. *)
Definition yparse_int (st : state) : result (Z * Z * state) :=
  let* st := yskip_space_input st in
  let (c, st) := ynext_char st in
  let '(sign, c, st) :=
    if c =? 45 then let (c, st) := ynext_char st in (-1, c, st)
    else if c =? 43 then let (c, st) := ynext_char st in (1, c, st)
    else (1, c, st) in
  if (c <? 48) || (c >? 57) then Ok (0, 1, st)
  else
    let* (x, overflow, st) := yparse_loop int64 (S (S (avail st))) 0 c st in
    Ok (int64 (sign * x), overflow, st).

Definition yparse_uint (st : state) : result (Z * Z * state) :=
  let* st := yskip_space_input st in
  let (c, st) := ynext_char st in
  if (c <? 48) || (c >? 57) then Ok (0, 1, st)
  else
    let* (x, overflow, st) := yparse_loop uint64 (S (S (avail st))) 0 c st in
    Ok (x, overflow, st).

Definition yread_int (st : state) : result (Z * state) :=
  let* (v, overflow, st) := yparse_int st in
  if negb (overflow =? 0) || (v >? INT32_MAX) || (v <? INT32_MIN)
  then Ok ((if v >? 0 then INT32_MAX else INT32_MIN), st)
  else Ok (int32 v, st).

Definition yread_ll (st : state) : result (Z * state) :=
  let* (v, overflow, st) := yparse_int st in
  if negb (overflow =? 0)
  then Ok ((if v >? 0 then LLONG_MAX else LLONG_MIN), st)
  else Ok (v, st).

Definition yread_uint (st : state) : result (Z * state) :=
  let* (v, overflow, st) := yparse_uint st in
  if negb (overflow =? 0) || (v >? UINT32_MAX)
  then Ok (UINT32_MAX, st)
  else Ok (uint32 v, st).

Definition yread_ull (st : state) : result (Z * state) :=
  let* (v, overflow, st) := yparse_uint st in
  if negb (overflow =? 0)
  then Ok (ULLONG_MAX, st)
  else Ok (v, st).

(** [while (c >= '0' && c <= '9') { acc = step(acc, c - '0'); c = ynext_char(); }] *)
Fixpoint ydigits_loop {A : Type} (step : A -> Z -> A) (fuel : nat) (acc : A)
    (c : Z) (st : state) : result (A * Z * state) :=
  match fuel with
  | O => Err OutOfFuel
  | S fuel' =>
      if is_digit c then
        let (c', st) := ynext_char st in
        ydigits_loop step fuel' (step acc (c - 48)) c' st
      else Ok (acc, c, st)
  end.

(** The mantissa, and the byte read last (which [yread_double] drops). *)
Definition yread_mantissa (st : state) : result (numeral * Z * state) :=
  let* st := yskip_space_input st in
  let (c, st) := ynext_char st in
  let '(sign, c, st) :=
    if c =? 45 then let (c, st) := ynext_char st in (-1, c, st)
    else if c =? 43 then let (c, st) := ynext_char st in (1, c, st)
    else (1, c, st) in
  let* (x, c, st) := ydigits_loop (fun ds d => ds ++ [d]) (S (S (avail st))) [] c st in
  let* (frac, c, st) :=
    if c =? 46 then
      let (c, st) := ynext_char st in
      ydigits_loop (fun ds d => ds ++ [d]) (S (S (avail st))) [] c st
    else Ok ([], c, st) in
  Ok (mkNumeral sign x frac None, c, st).

Definition yread_double (st : state) : result (numeral * state) :=
  let* (x, _, st) := yread_mantissa st in
  Ok (x, st).

Definition yread_double_exp (st : state) : result (numeral * state) :=
  let* (x, st) := yread_double st in
  let (c, st) := ypeek_char st in
  if (c =? 101) || (c =? 69) then
    let st := snd (ynext_char st) in
    let (c, st) := ynext_char st in
    let '(esign, c, st) :=
      if c =? 45 then let (c, st) := ynext_char st in (-1, c, st)
      else if c =? 43 then let (c, st) := ynext_char st in (1, c, st)
      else (1, c, st) in
    let* (e, _, st) :=
      ydigits_loop (fun e d => int32 (e * 10 + d)) (S (S (avail st))) 0 c st in
    Ok (mkNumeral (n_sign x) (n_int x) (n_frac x) (Some (esign, e)), st)
  else Ok (x, st).

(** [while ((c = ynext_char()) != EOF && !isspace(c)) { *s++ = (char)c; }] *)
Fixpoint ystring_loop (fuel : nat) (s : list Z) (st : state)
  : result (list Z * state) :=
  match fuel with
  | O => Err OutOfFuel
  | S fuel' =>
      let (c, st) := ynext_char st in
      if negb (c =? EOF) && negb (isspace c) then ystring_loop fuel' (s ++ [c]) st
      else Ok (s, st)
  end.

Definition yread_string (st : state) : result (list Z * state) :=
  let* st := yskip_space_input st in
  ystring_loop (S (avail st)) [] st.

(** ** The dispatcher *)

(** The variables of [yscanf]'s loop: [fmt], [ap] (the index of the next
    argument), [cnt], [skip_space], the output slots and the buffer. *)
Record config := mkConfig {
  fmt : list byte;
  ap : nat;
  cnt : Z;
  skip_space : bool;
  slots : list val;
  io : state
}.

Inductive step :=
| Next (c : config)
| Return (r : Z) (sl : list val) (st : state).

(** [if (skip_space) yskip_space_input();] *)
Definition skip_if (b : bool) (st : state) : result state :=
  if b then yskip_space_input st else Ok st.

(** A case that cannot fail: [if (skip_space) yskip_space_input();
    p = va_arg(ap, ...); *p = reader(); cnt++; break;] followed by
    [skip_space = 0; fmt++;]. *)
Definition convert {A : Type} (reader : state -> result (A * state))
    (inj : A -> val) (c : config) (f : list byte) : result step :=
  let* st := skip_if (skip_space c) (io c) in
  match nth_error (slots c) (ap c) with
  | None => Err NoArgument
  | Some _ =>
      let* (v, st) := reader st in
      match poke (ap c) (inj v) (slots c) with
      | None => Err NoArgument
      | Some sl =>
          Ok (Next (mkConfig (advance f) (S (ap c)) (int32 (cnt c + 1)) false sl st))
      end
  end.

(** [case 'c'] *)
Definition convert_char (c : config) (f : list byte) : result step :=
  match nth_error (slots c) (ap c) with
  | None => Err NoArgument
  | Some _ =>
      let* st := skip_if (skip_space c) (io c) in
      let (ch, st) := ynext_char st in
      if ch =? EOF then
        Ok (Return (if cnt c =? 0 then EOF else cnt c) (slots c) st)
      else
        match poke (ap c) (Vchar ch) (slots c) with
        | None => Err NoArgument
        | Some sl =>
            Ok (Next (mkConfig (advance f) (S (ap c)) (int32 (cnt c + 1)) false sl st))
        end
  end.

(** The body of the loop [while ( *fmt ) {...}]. *)
Definition yscanf_step (c : config) : result step :=
  let f := fmt c in
  if isspace (deref f) then
    Ok (Next (mkConfig (advance f) (ap c) (cnt c) true (slots c) (io c)))
  else if negb (deref f =? 37) then
    Ok (Next (mkConfig (advance f) (ap c) (cnt c) false (slots c) (io c)))
  else
    let f := advance f in
    if deref f =? 100 then convert yread_int Vint c f
    else if deref f =? 117 then convert yread_uint Vuint c f
    else if deref f =? 115 then convert yread_string Vstr c f
    else if deref f =? 99 then convert_char c f
    else if deref f =? 108 then
      let f := advance f in
      if deref f =? 108 then
        let f := advance f in
        if deref f =? 100 then convert yread_ll Vll c f
        else if deref f =? 117 then convert yread_ull Vull c f
        else Ok (Return (-1) (slots c) (io c))
      else if deref f =? 102 then convert yread_double Vdouble c f
      else Ok (Return (-1) (slots c) (io c))
    else if (deref f =? 103) || (deref f =? 101) || (deref f =? 102) then
      convert yread_double_exp Vdouble c f
    else Ok (Return (-1) (slots c) (io c)).

Fixpoint yscanf_loop (fuel : nat) (c : config) {struct fuel}
  : result (Z * list val * state) :=
  if deref (fmt c) =? 0 then Ok (cnt c, slots c, io c)
  else
    match fuel with
    | O => Err OutOfFuel
    | S fuel' =>
        let* s := yscanf_step c in
        match s with
        | Next c' => yscanf_loop fuel' c'
        | Return r sl st => Ok (r, sl, st)
        end
    end.

Definition yscanf (f : list byte) (sl : list val) (st : state)
  : result (Z * list val * state) :=
  yscanf_loop (length f) (mkConfig f 0 0 false sl st).

Inductive reaches : config -> config -> Prop :=
| reaches_here c : reaches c c
| reaches_next c c1 c' :
    deref (fmt c) <> 0 -> yscanf_step c = Ok (Next c1) -> reaches c1 c' ->
    reaches c c'.

(** The tags after ['%'] that [yscanf] converts: d, u, s, c, lld, llu, lf,
    g, e, f. *)
Definition tags : list (list byte) :=
  [ [x64]; [x75]; [x73]; [x63]; [x6c; x6c; x64]; [x6c; x6c; x75];
    [x6c; x66]; [x67]; [x65]; [x66] ].

(** The bytes between [yptr] and [yend]. *)
Definition buffered (st : state) : list byte :=
  map (fun i => nth i (ybuf st) x00) (seq (yptr st) (yend st - yptr st)).

(** The bytes [ynext_char] will deliver, in order, before it first returns
    [EOF]. *)
Definition input (st : state) : list byte :=
  buffered st ++ upcoming (chunks (stdin st)).

End V2.

Definition bytes (s : string) : list byte := list_byte_of_string s.

(* ------------------------------------------------------------------ *)
(** * Vocabulary of the statements *)

Fixpoint drop_while (p : byte -> bool) (l : list byte) : list byte :=
  match l with
  | [] => []
  | b :: t => if p b then drop_while p t else l
  end.

Fixpoint take_while (p : byte -> bool) (l : list byte) : list byte :=
  match l with
  | [] => []
  | b :: t => if p b then b :: take_while p t else []
  end.

Definition space_byte (b : byte) : bool := isspace (uchar b).
Definition digit_byte (b : byte) : bool := is_digit (uchar b).

(** [t] is at the front of [f]. *)
Fixpoint is_prefix (t f : list byte) : bool :=
  match t, f with
  | [], _ => true
  | _ :: _, [] => false
  | a :: t', b :: f' => Byte.eqb a b && is_prefix t' f'
  end.

(** The bytes after a ['%'] start with one of the tags. *)
Definition recognized (tags : list (list byte)) (f : list byte) : bool :=
  existsb (fun t => is_prefix t f) tags.


(** The value of a run of decimal digits. *)
Definition decimal (ds : list byte) : Z :=
  fold_left (fun x b => x * 10 + (uchar b - 48)) ds 0.

(** The same with the accumulation the readers do in a fixed width. *)
Definition accumulate (wrap : Z -> Z) (ds : list byte) : Z :=
  fold_left (fun x d => wrap (x * 10 + d)) (map (fun b => uchar b - 48) ds) 0.

(** An optional sign at the front of [l]: its value and what follows. *)
Definition sign_of (l : list byte) : Z * list byte :=
  match l with
  | [] => (1, [])
  | b :: t =>
      if (uchar b =? 43) || (uchar b =? 45)
      then ((if uchar b =? 45 then -1 else 1), t)
      else (1, l)
  end.

(** A byte that is not a line terminator. *)
Definition line_byte (b : byte) : bool :=
  negb (uchar b =? 10) && negb (uchar b =? 13).

(** What is left of an input that starts with a line terminator once the
    terminator is taken off: ['\n'], or ['\r'] with the ['\n'] that may
    follow it. *)
Definition after_terminator (l : list byte) : list byte :=
  match l with
  | [] => []
  | b :: t =>
      if uchar b =? 13 then
        match t with
        | [] => []
        | n :: t' => if uchar n =? 10 then t' else t
        end
      else t
  end.

(** The bytes of a line that fit a destination of [maxlen] bytes with its
    terminating 0. *)
Definition truncate (maxlen : Z) (line : list byte) : list Z :=
  map uchar (firstn (Z.to_nat (maxlen - 1)) line).

(** The accumulation of [yparse_int] and [yparse_uint] over the digits of a
    numeral: it stops with [*overflow] set at the first step whose result
    is below the accumulator.  Returns [x] and [*overflow]. *)
Fixpoint parse_acc (wrap : Z -> Z) (x : Z) (ds : list byte) : Z * Z :=
  match ds with
  | [] => (x, 0)
  | d :: ds' =>
      let next := wrap (x * 10 + (uchar d - 48)) in
      if next <? x then (x, 1) else parse_acc wrap next ds'
  end.

(** What [yget] and [ypeek] return on an input. *)
Definition front (l : list byte) : Z :=
  match l with
  | [] => EOF
  | b :: _ => uchar b
  end.

(** What the signed readers do on the input left after the whitespace:
    [None] when they return 0, the sign and the digits when they return 1;
    and the input they leave. *)
Definition lex_signed (l : list byte) : option (Z * list byte) * list byte :=
  match l with
  | [] => (None, [])
  | _ =>
      let (sg, l1) := sign_of l in
      if is_digit (front l1)
      then (Some (sg, take_while digit_byte l1), drop_while digit_byte l1)
      else (None, l1)
  end.

(** The same for the unsigned readers, which take no sign. *)
Definition lex_unsigned (l : list byte) : option (list byte) * list byte :=
  if is_digit (front l)
  then (Some (take_while digit_byte l), drop_while digit_byte l)
  else (None, l).


(** The bytes the inner loop stores, one test per byte as in the code. *)
Definition stored (maxlen : Z) (s : list Z) (line : list byte) : list Z :=
  fold_left (fun s b => if Z.of_nat (length s) <? maxlen - 1 then s ++ [uchar b] else s)
            line s.

(** [ynext_char] hands over the first byte of [l] and leaves the rest. *)
Definition presents (c : Z) (st : V2.state) (l : list byte) : Prop :=
  c = front l /\ (l <> [] -> V2.input st = tl l).

(** An input that, after the whitespace, holds an optional sign [sgn], the
    digits [ds] and then [rest]. *)
Definition numeral_at (l sgn ds rest : list byte) : Prop :=
  l = sgn ++ ds ++ rest /\
  (sgn = [] \/ sgn = [x2b] \/ sgn = [x2d]) /\
  ds <> [] /\ Forall (fun b => digit_byte b = true) ds /\
  is_digit (front rest) = false.

Definition sign_value (sgn : list byte) : Z :=
  match sgn with
  | [b] => if uchar b =? 45 then -1 else 1
  | _ => 1
  end.

(** A reader that always returns. *)
Definition returns (reader : val -> V3.state -> result (Z * val * V3.state)) : Prop :=
  forall out st, exists r, reader out st = Ok r.

(* ------------------------------------------------------------------ *)
(** * The reading loops of test_yscanf.c and benchmark.c

    The loops call [yscanf] until it stops returning 1.  The sources include
    the header under another name, so the loops are written over either
    scanner. *)

Module Callers.

(** The [int] a slot holds. *)
Definition int_of (v : val) : Z :=
  match v with
  | Vint z => z
  | _ => 0
  end.

Section Loops.

Variable St : Type.
Variable yscanf : list byte -> list val -> St -> result (Z * list val * St).

(** test_performance: [int sum = 0; int val;
    while (yscanf("%d", &val) == 1) { sum += val; }], with [v] the content
    of [val]. *)
Fixpoint sum_loop (fuel : nat) (sum : Z) (v : val) (st : St)
  : result (Z * val * St) :=
  match fuel with
  | O => Err OutOfFuel
  | S fuel' =>
      let* (r, sl, st) := yscanf (bytes "%d") [v] st in
      let v := nth 0 sl v in
      if r =? 1 then sum_loop fuel' (int32 (sum + int_of v)) v st
      else Ok (sum, v, st)
  end.

(** benchmark_operations: [int val, count = 0;
    while (yscanf("%d", &val) == 1) count++;] *)
Fixpoint count_loop (fuel : nat) (count : Z) (v : val) (st : St)
  : result (Z * val * St) :=
  match fuel with
  | O => Err OutOfFuel
  | S fuel' =>
      let* (r, sl, st) := yscanf (bytes "%d") [v] st in
      let v := nth 0 sl v in
      if r =? 1 then count_loop fuel' (int32 (count + 1)) v st
      else Ok (count, v, st)
  end.

End Loops.

End Callers.

(** ** More vocabulary *)

(** The indices of the buffer are where the C code needs them:
    [yptr <= yend], [yend] within the bytes read into [ybuf], and those
    within the array. *)
Definition in_bounds (st : V3.state) : Prop :=
  (V3.yptr st <= V3.yend st)%nat /\
  (V3.yend st <= length (V3.ybuf st))%nat /\
  (N.of_nat (length (V3.ybuf st)) <= YSCANF_BUFFER_SIZE)%N.

Definition in_bounds_v2 (st : V2.state) : Prop :=
  (V2.yptr st <= V2.yend st)%nat /\
  (V2.yend st <= length (V2.ybuf st))%nat /\
  (N.of_nat (length (V2.ybuf st)) <= YSCANF_BUFFER_SIZE)%N.

(** [st'] is [st] after some calls of [yget] and [ypeek]. *)
Inductive reads : V3.state -> V3.state -> Prop :=
| reads_none st : reads st st
| reads_get st st' : reads (snd (V3.yget st)) st' -> reads st st'
| reads_peek st st' : reads (snd (V3.ypeek st)) st' -> reads st st'.

(** A reader of [yscanf] in yscanf3.h: it touches the buffer through [yget]
    and [ypeek] only, and returns either 0, with [*out] as it was, or 1. *)
Definition reader_keeps (reader : val -> V3.state -> result (Z * val * V3.state))
  : Prop :=
  forall out st ok out' st',
    reader out st = Ok (ok, out', st') ->
    reads st st' /\ ((ok = 0 /\ out' = out) \/ ok = 1).

(** The same for [ynext_char] and [ypeek_char]. *)
Inductive reads_v2 : V2.state -> V2.state -> Prop :=
| reads_none_v2 st : reads_v2 st st
| reads_next_v2 st st' : reads_v2 (snd (V2.ynext_char st)) st' -> reads_v2 st st'
| reads_peek_v2 st st' : reads_v2 (snd (V2.ypeek_char st)) st' -> reads_v2 st st'.

(** An iteration of the loop of [yscanf] in yscanf2.h has touched the buffer
    through [ynext_char] and [ypeek_char] only. *)
Definition step_reads (c : V2.config) (s : V2.step) : Prop :=
  match s with
  | V2.Next c' => reads_v2 (V2.io c) (V2.io c')
  | V2.Return _ _ st => reads_v2 (V2.io c) st
  end.

(** A byte that is not whitespace. *)
Definition token_byte (b : byte) : bool := negb (space_byte b).

(** A byte of a format that is neither the end of the string nor a ['%']. *)
Definition plain_byte (b : byte) : Prop := b <> x00 /\ b <> x25.

(** A literal of a format: a plain byte that is not whitespace. *)
Definition literal_byte (b : byte) : Prop := plain_byte b /\ space_byte b = false.

(** The tags of yscanf2.h whose case has no way to return early: all but
    [c]. *)
Definition sure_tags : list (list byte) :=
  [ [x64]; [x75]; [x73]; [x6c; x6c; x64]; [x6c; x6c; x75];
    [x6c; x66]; [x67]; [x65]; [x66] ].

(** A format made of [n] such conversions, whitespace and literals. *)
Inductive sure_format : list byte -> nat -> Prop :=
| sure_end : sure_format [] 0
| sure_plain b f n :
    plain_byte b -> sure_format f n -> sure_format (b :: f) n
| sure_conv tag f n :
    In tag sure_tags -> sure_format f n -> sure_format (x25 :: tag ++ f) (S n).

(** [n] calls of [ynext_char]: what they return, and the state after. *)
Fixpoint nexts (n : nat) (st : V2.state) : list Z * V2.state :=
  match n with
  | O => ([], st)
  | S n' =>
      let (c, st1) := V2.ynext_char st in
      let (cs, st2) := nexts n' st1 in
      (c :: cs, st2)
  end.

(** A format made of whole directives: whitespace, literals, and ['%']
    with one of the tags. *)
Inductive directives (tags : list (list byte)) : list byte -> Prop :=
| directives_end : directives tags []
| directives_plain b f :
    plain_byte b -> directives tags f -> directives tags (b :: f)
| directives_conv tag f :
    In tag tags -> directives tags f -> directives tags (x25 :: tag ++ f).

(** A numeral of a text of integers: its sign, its digits and the
    whitespace written after it. *)
Definition int_token (t : list byte * list byte * list byte) : Prop :=
  let '(sgn, ds, ws) := t in
  (sgn = [] \/ sgn = [x2b] \/ sgn = [x2d]) /\
  ds <> [] /\ Forall (fun b => digit_byte b = true) ds /\
  ws <> [] /\ Forall (fun b => space_byte b = true) ws /\
  INT32_MIN <= sign_value sgn * decimal ds <= INT32_MAX.

Definition token_value (t : list byte * list byte * list byte) : Z :=
  let '(sgn, ds, _) := t in sign_value sgn * decimal ds.

(** The text: the numerals one after the other, as
    [fprintf(fp, "%d ", i)] writes them. *)
Definition ints_text (toks : list (list byte * list byte * list byte)) : list byte :=
  concat (map (fun t => let '(sgn, ds, ws) := t in sgn ++ ds ++ ws) toks).

(** The values of a run of digits. *)
Definition digit_values (ds : list byte) : list Z := map (fun b => uchar b - 48) ds.

(** The exponent part of a floating-point numeral, when there is one: the
    ['e'] or ['E'], an optional sign and the digits. *)
Definition exp_text (ex : option (byte * list byte * list byte)) : list byte :=
  match ex with
  | None => []
  | Some (e, esgn, eds) => e :: esgn ++ eds
  end.

Definition exp_value (ex : option (byte * list byte * list byte)) : option (Z * Z) :=
  match ex with
  | None => None
  | Some (_, esgn, eds) => Some (sign_value esgn, decimal eds)
  end.

(** An exponent part as [yread_double_ok] takes it, before [rest]: the
    digits may be missing, and then no sign may follow in [rest]; without an
    exponent part, [rest] does not start with an ['e'] or ['E']. *)
Definition exp_ok (ex : option (byte * list byte * list byte)) (rest : list byte)
  : Prop :=
  match ex with
  | None => front rest <> 101 /\ front rest <> 69
  | Some (e, esgn, eds) =>
      (uchar e = 101 \/ uchar e = 69) /\
      (esgn = [] \/ esgn = [x2b] \/ esgn = [x2d]) /\
      Forall (fun b => digit_byte b = true) eds /\
      decimal eds <= INT32_MAX /\
      (esgn = [] -> eds = [] -> front rest <> 43 /\ front rest <> 45)
  end.

(** A reader of yscanf2.h that starts with [yskip_space_input]: after a
    skip of the dispatcher it does what it does without. *)
Definition skips_first {A : Type} (reader : V2.state -> result (A * V2.state))
  : Prop :=
  forall st st1,
    V2.yskip_space_input st = Ok st1 -> V2.yskip_space_input st1 = Ok st1 ->
    reader st1 = reader st.

(* ------------------------------------------------------------------ *)
(** * The stream *)

Lemma buffer_size_pos : YSCANF_BUFFER_SIZE <> 0%N.
Proof. discriminate. Qed.

Lemma split_at_app n l : fst (split_at n l) ++ snd (split_at n l) = l.
Proof.
  revert n; induction l as [|b t IH]; intros n; simpl; [reflexivity|].
  destruct (N.eqb n 0); simpl; [reflexivity|].
  specialize (IH (N.pred n)).
  destruct (split_at (N.pred n) t) as [a r]; simpl in *. now rewrite IH.
Qed.

Lemma split_at_cons n b t :
  n <> 0%N -> exists a, fst (split_at n (b :: t)) = b :: a.
Proof.
  intros Hn; simpl. destruct (N.eqb_spec n 0) as [E|E]; [contradiction|].
  destruct (split_at (N.pred n) t) as [a r]. now exists a.
Qed.

Lemma upcoming_le_pending chs :
  (length (upcoming chs) <=
   fold_right (fun ch n => length ch + n) 0 chs)%nat.
Proof.
  induction chs as [|ch rest IH]; simpl; [lia|].
  destruct ch as [|b t]; simpl; [lia|].
  rewrite length_app. lia.
Qed.

(** A read either reports zero bytes, and the stream was at its end as far
    as the readers can see, or delivers the next bytes of the stream. *)
Lemma fread_upcoming cap f :
  cap <> 0%N ->
  (fst (fread cap f) = [] /\ upcoming (chunks f) = []) \/
  (fst (fread cap f) <> [] /\
   upcoming (chunks f) = fst (fread cap f) ++ upcoming (chunks (snd (fread cap f)))).
Proof.
  intros Hcap. unfold fread. destruct (chunks f) as [|ch rest] eqn:E.
  - left; simpl; auto.
  - destruct ch as [|b t].
    + left; simpl; auto.
    + right. destruct (split_at_cons cap b t Hcap) as [a Ha].
      pose proof (split_at_app cap (b :: t)) as Happ.
      destruct (split_at cap (b :: t)) as [got left]; simpl in *. subst got.
      split; [discriminate|].
      destruct left as [|x l]; simpl.
      * rewrite app_nil_r in Happ. injection Happ as ->. reflexivity.
      * injection Happ as <-. now rewrite <- app_assoc.
Qed.

Lemma fread_freads cap f : freads (snd (fread cap f)) = S (freads f).
Proof.
  unfold fread. destruct (chunks f) as [|ch rest]; simpl; [reflexivity|].
  now destruct (split_at cap ch).
Qed.

Lemma filled_prefix (got old : list byte) :
  map (fun i => nth i (got ++ old) x00) (seq 0 (length got)) = got.
Proof.
  induction got as [|b t IH]; simpl; [reflexivity|].
  f_equal. rewrite <- seq_shift, map_map. exact IH.
Qed.

(* ------------------------------------------------------------------ *)
(** * Bytes and digits *)

Lemma uchar_range b : 0 <= uchar b < 256.
Proof.
  unfold uchar. pose proof (Byte.to_N_bounded b). lia.
Qed.

Lemma uchar_not_EOF b : (uchar b =? EOF) = false.
Proof.
  pose proof (uchar_range b). unfold EOF. apply Z.eqb_neq. lia.
Qed.

Lemma uchar_inj a b : uchar a = uchar b -> a = b.
Proof.
  unfold uchar. intros H. apply N2Z.inj in H.
  pose proof (Byte.of_to_N a) as Ha. pose proof (Byte.of_to_N b) as Hb.
  rewrite H in Ha. rewrite Ha in Hb. now injection Hb.
Qed.

Lemma not_digit_test c : (c <? 48) || (c >? 57) = negb (is_digit c).
Proof.
  unfold is_digit.
  destruct (Z.ltb_spec c 48), (Z.gtb_spec c 57), (Z.leb_spec 48 c),
    (Z.leb_spec c 57); try reflexivity; lia.
Qed.

Lemma front_EOF l : (front l =? EOF) = match l with [] => true | _ => false end.
Proof.
  destruct l as [|b t]; [reflexivity|]. apply uchar_not_EOF.
Qed.

Lemma is_digit_front l :
  is_digit (front l) = match l with [] => false | b :: _ => digit_byte b end.
Proof. destruct l; reflexivity. Qed.

Lemma digit_byte_range b : digit_byte b = true -> 0 <= uchar b - 48 <= 9.
Proof.
  unfold digit_byte, is_digit. intros H. apply andb_prop in H as [H1 H2].
  apply Z.leb_le in H1, H2. lia.
Qed.

Lemma take_while_all p l : Forall (fun b => p b = true) (take_while p l).
Proof.
  induction l as [|b t IH]; cbn; [constructor|].
  destruct (p b) eqn:E; constructor; assumption.
Qed.

Lemma decimal_from_ge ds : forall acc,
  Forall (fun b => digit_byte b = true) ds -> 0 <= acc ->
  acc <= fold_left (fun x b => x * 10 + (uchar b - 48)) ds acc.
Proof.
  induction ds as [|d ds IH]; intros acc Hall Hacc; cbn [fold_left]; [lia|].
  inversion Hall as [|? ? Hd Hds]; subst.
  pose proof (digit_byte_range d Hd).
  specialize (IH (acc * 10 + (uchar d - 48)) Hds). lia.
Qed.

Lemma int64_small x : - 2 ^ 63 <= x < 2 ^ 63 -> int64 x = x.
Proof.
  intros H. unfold int64, wrap_signed.
  change (2 ^ (64 - 1)) with (2 ^ 63). rewrite Z.mod_small; lia.
Qed.

Lemma int32_small x : - 2 ^ 31 <= x < 2 ^ 31 -> int32 x = x.
Proof.
  intros H. unfold int32, wrap_signed.
  change (2 ^ (32 - 1)) with (2 ^ 31). rewrite Z.mod_small; lia.
Qed.

Lemma decimal_nonneg ds :
  Forall (fun b => digit_byte b = true) ds -> 0 <= decimal ds.
Proof. intros H. apply (decimal_from_ge ds 0 H). lia. Qed.

Lemma drop_while_spaces ws l :
  Forall (fun b => space_byte b = true) ws ->
  drop_while space_byte (ws ++ l) = drop_while space_byte l.
Proof.
  induction 1 as [|b ws Hb _ IH]; cbn [app drop_while]; [reflexivity|].
  now rewrite Hb.
Qed.

Lemma poke_same sl : forall i v, nth_error sl i = Some v -> poke i v sl = Some sl.
Proof.
  induction sl as [|x t IH]; intros [|i] v H; cbn in *; try discriminate.
  - now injection H as ->.
  - now rewrite (IH i v H).
Qed.

Lemma advance_length f : (length (advance f) <= length f)%nat.
Proof. destruct f; cbn; lia. Qed.

(* ------------------------------------------------------------------ *)
(** * The buffer of yscanf3.h *)

Module V3_buffer.
Import V3.

Lemma buffered_empty st : (yend st <= yptr st)%nat -> buffered st = [].
Proof.
  intros H. unfold buffered. replace (yend st - yptr st)%nat with 0%nat by lia.
  reflexivity.
Qed.

Lemma buffered_cons st :
  (yptr st < yend st)%nat ->
  buffered st =
  nth (yptr st) (ybuf st) x00 ::
  buffered (mkState (ybuf st) (S (yptr st)) (yend st) (yeof st) (stdin st)).
Proof.
  intros H. unfold buffered; simpl.
  replace (yend st - yptr st)%nat with (S (yend st - S (yptr st))) by lia.
  reflexivity.
Qed.

Lemma buffered_filled got old e f :
  buffered (mkState (got ++ old) 0 (length got) e f) = got.
Proof.
  unfold buffered; cbn [ybuf yptr yend]. rewrite Nat.sub_0_r.
  apply filled_prefix.
Qed.

Lemma buffered_filled_next b got old e f :
  buffered (mkState ((b :: got) ++ old) 1 (length (b :: got)) e f) =
  tl (buffered (mkState ((b :: got) ++ old) 0 (length (b :: got)) e f)).
Proof.
  unfold buffered; cbn [ybuf yptr yend length].
  rewrite Nat.sub_0_r. simpl seq. simpl Nat.sub. rewrite Nat.sub_0_r. reflexivity.
Qed.

(** [ypeek] and [yget] in terms of the input: both return its first byte,
    or [EOF] when there is none; [yget] removes it. *)
Lemma ypeek_spec st :
  fst (ypeek st) = front (input st) /\ input (snd (ypeek st)) = input st.
Proof.
  unfold ypeek. destruct (Nat.leb_spec (yend st) (yptr st)) as [H|H].
  - unfold input at 1 3. rewrite (buffered_empty st H). simpl.
    destruct (yeof st) eqn:Ef; simpl.
    + split; [reflexivity|]. unfold input. now rewrite buffered_empty, Ef.
    + destruct (fread_upcoming YSCANF_BUFFER_SIZE (stdin st) buffer_size_pos)
        as [[Hg Hu]|[Hg Hu]];
        destruct (fread YSCANF_BUFFER_SIZE (stdin st)) as [got f]; simpl in *.
      * subst got; simpl. rewrite Hu. split; [reflexivity|].
        unfold input; simpl. now rewrite buffered_empty by (simpl; lia).
      * destruct got as [|b t]; [contradiction|].
        change (length (b :: t) =? 0)%nat with false. cbv iota.
        rewrite Hu. split; [reflexivity|].
        cbn [snd]. unfold input; cbn [yeof stdin]. now rewrite buffered_filled.
  - simpl. split; [|reflexivity].
    unfold input. now rewrite (buffered_cons st H).
Qed.

Lemma yget_spec st :
  fst (yget st) = front (input st) /\ input (snd (yget st)) = tl (input st).
Proof.
  unfold yget. destruct (Nat.leb_spec (yend st) (yptr st)) as [H|H].
  - unfold input at 1 3. rewrite (buffered_empty st H). simpl.
    destruct (yeof st) eqn:Ef; simpl.
    + split; [reflexivity|]. unfold input. now rewrite buffered_empty, Ef.
    + destruct (fread_upcoming YSCANF_BUFFER_SIZE (stdin st) buffer_size_pos)
        as [[Hg Hu]|[Hg Hu]];
        destruct (fread YSCANF_BUFFER_SIZE (stdin st)) as [got f]; simpl in *.
      * subst got; simpl. rewrite Hu. split; [reflexivity|].
        unfold input; simpl. now rewrite buffered_empty by (simpl; lia).
      * destruct got as [|b t]; [contradiction|].
        change (length (b :: t) =? 0)%nat with false. cbv iota.
        rewrite Hu. split; [reflexivity|].
        cbn [snd]. unfold input; cbn [yeof stdin].
        now rewrite buffered_filled_next, buffered_filled.
  - simpl. unfold input at 1 3. rewrite (buffered_cons st H). simpl.
    split; reflexivity.
Qed.

Lemma input_le_avail st : (length (input st) <= avail st)%nat.
Proof.
  unfold input, avail, buffered, pending.
  rewrite length_app, length_map, length_seq.
  pose proof (upcoming_le_pending (chunks (stdin st))).
  destruct (yeof st); simpl; lia.
Qed.



(** Naming the result of a [ypeek] or [yget] together with its
    specification. *)
Ltac peek st c st1 Hc Hi :=
  destruct (ypeek_spec st) as [Hc Hi];
  destruct (ypeek st) as [c st1]; cbn [fst snd] in Hc, Hi.

Ltac get st c st1 Hc Hi :=
  destruct (yget_spec st) as [Hc Hi];
  destruct (yget st) as [c st1]; cbn [fst snd] in Hc, Hi.

(** [yskip_space] returns, having removed the leading whitespace. *)
Lemma yskip_space_loop_spec fuel : forall st,
  (length (input st) < fuel)%nat ->
  exists st', yskip_space_loop fuel st = Ok st' /\
              input st' = drop_while space_byte (input st).
Proof.
  induction fuel as [|fuel IH]; intros st Hf; [lia|].
  cbn [yskip_space_loop]. peek st c st1 Hc Hi.
  destruct (input st) as [|b t] eqn:Ein; cbn [front] in Hc; subst c.
  - cbn. exists st1. now split.
  - rewrite uchar_not_EOF. cbn [negb andb drop_while]. unfold space_byte.
    destruct (isspace (uchar b)).
    + destruct (yget_spec st1) as [_ Hi2]. rewrite Hi in Hi2. cbn [tl] in Hi2.
      destruct (IH (snd (yget st1))) as [st' [Hr Hin]].
      { rewrite Hi2. cbn [length] in Hf. lia. }
      exists st'. split; [exact Hr|]. now rewrite Hin, Hi2.
    + exists st1. now split.
Qed.

Lemma yskip_space_spec st :
  exists st', yskip_space st = Ok st' /\
              input st' = drop_while space_byte (input st).
Proof.
  apply yskip_space_loop_spec. pose proof (input_le_avail st). lia.
Qed.

(** The digit loops return, having consumed the digits at the front of the
    input and folded them into the accumulator. *)
Lemma ydigits_loop_spec {A} (step : A -> Z -> A) fuel : forall acc st,
  (length (input st) < fuel)%nat ->
  exists st',
    ydigits_loop step fuel acc st =
    Ok (fold_left step (map (fun b => uchar b - 48)
                            (take_while digit_byte (input st))) acc, st') /\
    input st' = drop_while digit_byte (input st).
Proof.
  induction fuel as [|fuel IH]; intros acc st Hf; [lia|].
  cbn [ydigits_loop]. peek st c st1 Hc Hi.
  destruct (input st) as [|b t] eqn:Ein; cbn [front] in Hc; subst c.
  - cbn. exists st1. now split.
  - cbn [take_while drop_while]. unfold digit_byte at 1 3.
    destruct (is_digit (uchar b)).
    + get st1 d st2 Hd Hi2. rewrite Hi in Hd, Hi2. cbn [front tl] in Hd, Hi2. subst d.
      destruct (IH (step acc (uchar b - 48)) st2) as [st' [Hr Hin]].
      { rewrite Hi2. cbn [length] in Hf. lia. }
      rewrite Hi2 in Hr, Hin. exists st'. now split.
    + exists st1. now split.
Qed.

Lemma ydigits_spec {A} (step : A -> Z -> A) acc st :
  exists st',
    ydigits step acc st =
    Ok (fold_left step (map (fun b => uchar b - 48)
                            (take_while digit_byte (input st))) acc, st') /\
    input st' = drop_while digit_byte (input st).
Proof.
  apply ydigits_loop_spec. pose proof (input_le_avail st). lia.
Qed.

(** ** Peeking does not consume *)

(** C9. For every state of the buffer and the stream, a second [ypeek]
    returns what the first returned and leaves the state as the first left
    it, and when [ypeek] returns a byte (not [EOF]), the [yget] that follows
    returns that byte. *)
Theorem ypeek_does_not_consume st :
  ypeek (snd (ypeek st)) = (fst (ypeek st), snd (ypeek st)) /\
  (fst (ypeek st) <> EOF -> fst (yget (snd (ypeek st))) = fst (ypeek st)).
Proof.
  split.
  - unfold ypeek at 2 3 4. destruct (Nat.leb_spec (yend st) (yptr st)) as [H|H].
    + destruct (yeof st) eqn:Ef.
      * cbn [fst snd]. unfold ypeek.
        destruct (Nat.leb_spec (yend st) (yptr st)); [|lia]. now rewrite Ef.
      * destruct (fread YSCANF_BUFFER_SIZE (stdin st)) as [got f].
        destruct got as [|b t]; cbn [length Nat.eqb fst snd].
        -- unfold ypeek; cbn [yend yptr yeof].
           destruct (Nat.leb_spec (yend st) (yptr st)); [reflexivity|lia].
        -- unfold ypeek; cbn [yend yptr yeof ybuf]. reflexivity.
    + cbn [fst snd]. unfold ypeek.
      destruct (Nat.leb_spec (yend st) (yptr st)); [lia|reflexivity].
  - intros _. destruct (yget_spec (snd (ypeek st))) as [Hg _].
    destruct (ypeek_spec st) as [Hp Hi]. now rewrite Hg, Hi, Hp.
Qed.

Lemma ypeek_does_not_consume_witness :
  fst (yget (snd (ypeek (start (file_of (bytes "ab")))))) = 97.
Proof.
  change 97 with (fst (ypeek (start (file_of (bytes "ab"))))).
  apply (ypeek_does_not_consume (start (file_of (bytes "ab")))).
  vm_compute. discriminate.
Defined.

(** ** Latching of the end of the stream *)

Lemma latched_call o st :
  yeof st = true -> (yend st <= yptr st)%nat -> run_call o st = (EOF, st).
Proof.
  intros Hf Hp. destruct o; cbn [run_call]; unfold yget, ypeek;
    destruct (Nat.leb_spec (yend st) (yptr st)); try lia; now rewrite Hf.
Qed.

Lemma latched_calls os : forall st,
  yeof st = true -> (yend st <= yptr st)%nat ->
  run_calls os st = (repeat EOF (length os), st).
Proof.
  induction os as [|o os IH]; intros st Hf Hp; cbn [run_calls]; [reflexivity|].
  rewrite (latched_call o st Hf Hp), (IH st Hf Hp). reflexivity.
Qed.

Lemma zero_refill_call o st :
  zero_refill st ->
  fst (run_call o st) = EOF /\
  yeof (snd (run_call o st)) = true /\
  (yend (snd (run_call o st)) <= yptr (snd (run_call o st)))%nat /\
  freads (stdin (snd (run_call o st))) = S (freads (stdin st)).
Proof.
  intros (Hp & Hf & Hz).
  pose proof (fread_freads YSCANF_BUFFER_SIZE (stdin st)) as Hn.
  destruct o; cbn [run_call]; unfold yget, ypeek;
    (destruct (Nat.leb_spec (yend st) (yptr st)); [|lia]);
    rewrite Hf;
    destruct (fread YSCANF_BUFFER_SIZE (stdin st)) as [got f];
    cbn [fst snd] in Hz, Hn; subst got; cbn; auto.
Qed.

(** When a call of [yget] or [ypeek] refills and the stream reports zero
    bytes, the call returns [EOF] with [yeof] set, and every call of [yget]
    or [ypeek] after it returns [EOF], leaves [yeof] set and does not call
    [fread]: the count of reads stays what it was. *)
Lemma zero_refill_latches st o os :
  zero_refill st ->
  let st1 := snd (run_call o st) in
  fst (run_call o st) = EOF /\ yeof st1 = true /\
  Forall (fun c => c = EOF) (fst (run_calls os st1)) /\
  length (fst (run_calls os st1)) = length os /\
  yeof (snd (run_calls os st1)) = true /\
  freads (stdin (snd (run_calls os st1))) = freads (stdin st1).
Proof.
  intros Hz st1. destruct (zero_refill_call o st Hz) as (Hc & Hf & Hp & _).
  fold st1 in Hf, Hp. rewrite (latched_calls os st1 Hf Hp). cbn [fst snd].
  repeat split; auto.
  - apply Forall_forall. intros c Hin. now apply repeat_spec in Hin.
  - apply repeat_length.
Qed.

End V3_buffer.

(* ------------------------------------------------------------------ *)
(** * The readers of yscanf3.h *)

Module V3_readers.
Import V3 V3_buffer.

(** The optional sign, as the signed readers consume it. *)
Lemma sign_step st l :
  input st = l -> l <> [] ->
  input (snd (if (front l =? 43) || (front l =? 45)
              then ((if front l =? 45 then -1 else 1), snd (yget st))
              else (1, st))) = snd (sign_of l) /\
  fst (if (front l =? 43) || (front l =? 45)
       then ((if front l =? 45 then -1 else 1), snd (yget st))
       else (1, st)) = fst (sign_of l).
Proof.
  intros Hin Hne. destruct l as [|b t]; [contradiction|]. cbn [front sign_of].
  destruct ((uchar b =? 43) || (uchar b =? 45)); cbn [fst snd].
  - destruct (yget_spec st) as [_ Hi]. rewrite Hi, Hin. now split.
  - now split.
Qed.





Lemma yread_int_ok_spec out st :
  let l := drop_while space_byte (input st) in
  exists st',
    yread_int_ok out st =
    Ok (match fst (lex_signed l) with
        | None => (0, out)
        | Some (sg, ds) => (1, Vint (int32 (int64 (accumulate int64 ds * sg))))
        end, st') /\
    input st' = snd (lex_signed l).
Proof.
  intros l. unfold yread_int_ok.
  destruct (yskip_space_spec st) as [st1 [Hs Hi1]]. rewrite Hs. cbn [bind].
  fold l in Hi1. peek st1 c st2 Hc Hi2. rewrite Hi1 in Hc, Hi2. subst c.
  rewrite front_EOF. unfold lex_signed.
  destruct l as [|b t] eqn:El; [exists st2; now split|]. rewrite <- El in *.
  assert (Hne : l <> []) by (rewrite El; discriminate).
  destruct (sign_step st2 l Hi2 Hne) as [Hi3 Hsg].
  destruct (if (front l =? 43) || (front l =? 45)
            then ((if front l =? 45 then -1 else 1), snd (yget st2))
            else (1, st2)) as [sg st3]. cbn [fst snd] in Hi3, Hsg.
  destruct (sign_of l) as [sg' l1]. cbn [fst snd] in Hi3, Hsg. subst sg'.
  replace (match l with [] => (None, []) | _ :: _ =>
             if is_digit (front l1)
             then (Some (sg, take_while digit_byte l1), drop_while digit_byte l1)
             else (None, l1) end)
    with (if is_digit (front l1)
          then (Some (sg, take_while digit_byte l1), drop_while digit_byte l1)
          else (@None (Z * list byte), l1))
    by (rewrite El; reflexivity).
  peek st3 c st4 Hc Hi4. rewrite Hi3 in Hc, Hi4. subst c.
  rewrite not_digit_test. destruct (is_digit (front l1)); cbn [negb fst snd].
  - destruct (ydigits_spec (fun x d => int64 (x * 10 + d)) 0 st4) as [st5 [Hd Hi5]].
    rewrite Hd. cbn [bind]. rewrite Hi4 in Hi5. exists st5. split; [|exact Hi5].
    rewrite Hi4. reflexivity.
  - exists st4. now split.
Qed.

Lemma yread_ll_ok_spec out st :
  let l := drop_while space_byte (input st) in
  exists st',
    yread_ll_ok out st =
    Ok (match fst (lex_signed l) with
        | None => (0, out)
        | Some (sg, ds) => (1, Vll (int64 (accumulate int64 ds * sg)))
        end, st') /\
    input st' = snd (lex_signed l).
Proof.
  intros l. unfold yread_ll_ok.
  destruct (yskip_space_spec st) as [st1 [Hs Hi1]]. rewrite Hs. cbn [bind].
  fold l in Hi1. peek st1 c st2 Hc Hi2. rewrite Hi1 in Hc, Hi2. subst c.
  rewrite front_EOF. unfold lex_signed.
  destruct l as [|b t] eqn:El; [exists st2; now split|]. rewrite <- El in *.
  assert (Hne : l <> []) by (rewrite El; discriminate).
  destruct (sign_step st2 l Hi2 Hne) as [Hi3 Hsg].
  destruct (if (front l =? 43) || (front l =? 45)
            then ((if front l =? 45 then -1 else 1), snd (yget st2))
            else (1, st2)) as [sg st3]. cbn [fst snd] in Hi3, Hsg.
  destruct (sign_of l) as [sg' l1]. cbn [fst snd] in Hi3, Hsg. subst sg'.
  replace (match l with [] => (None, []) | _ :: _ =>
             if is_digit (front l1)
             then (Some (sg, take_while digit_byte l1), drop_while digit_byte l1)
             else (None, l1) end)
    with (if is_digit (front l1)
          then (Some (sg, take_while digit_byte l1), drop_while digit_byte l1)
          else (@None (Z * list byte), l1))
    by (rewrite El; reflexivity).
  peek st3 c st4 Hc Hi4. rewrite Hi3 in Hc, Hi4. subst c.
  rewrite not_digit_test. destruct (is_digit (front l1)); cbn [negb fst snd].
  - destruct (ydigits_spec (fun x d => int64 (x * 10 + d)) 0 st4) as [st5 [Hd Hi5]].
    rewrite Hd. cbn [bind]. rewrite Hi4 in Hi5. exists st5. split; [|exact Hi5].
    rewrite Hi4. reflexivity.
  - exists st4. now split.
Qed.

Lemma unsigned_test l :
  (front l =? EOF) || (front l <? 48) || (front l >? 57) = negb (is_digit (front l)).
Proof.
  rewrite <- orb_assoc, not_digit_test, front_EOF.
  destruct l; reflexivity.
Qed.

Lemma yread_uint_ok_spec out st :
  let l := drop_while space_byte (input st) in
  exists st',
    yread_uint_ok out st =
    Ok (match fst (lex_unsigned l) with
        | None => (0, out)
        | Some ds => (1, Vuint (uint32 (accumulate uint64 ds)))
        end, st') /\
    input st' = snd (lex_unsigned l).
Proof.
  intros l. unfold yread_uint_ok.
  destruct (yskip_space_spec st) as [st1 [Hs Hi1]]. rewrite Hs. cbn [bind].
  fold l in Hi1. peek st1 c st2 Hc Hi2. rewrite Hi1 in Hc, Hi2. subst c.
  rewrite unsigned_test. unfold lex_unsigned.
  destruct (is_digit (front l)); cbn [negb fst snd].
  - destruct (ydigits_spec (fun x d => uint64 (x * 10 + d)) 0 st2) as [st3 [Hd Hi3]].
    rewrite Hd. cbn [bind]. rewrite Hi2 in Hi3. exists st3. split; [|exact Hi3].
    rewrite Hi2. reflexivity.
  - exists st2. now split.
Qed.

Lemma yread_ull_ok_spec out st :
  let l := drop_while space_byte (input st) in
  exists st',
    yread_ull_ok out st =
    Ok (match fst (lex_unsigned l) with
        | None => (0, out)
        | Some ds => (1, Vull (accumulate uint64 ds))
        end, st') /\
    input st' = snd (lex_unsigned l).
Proof.
  intros l. unfold yread_ull_ok.
  destruct (yskip_space_spec st) as [st1 [Hs Hi1]]. rewrite Hs. cbn [bind].
  fold l in Hi1. peek st1 c st2 Hc Hi2. rewrite Hi1 in Hc, Hi2. subst c.
  rewrite unsigned_test. unfold lex_unsigned.
  destruct (is_digit (front l)); cbn [negb fst snd].
  - destruct (ydigits_spec (fun x d => uint64 (x * 10 + d)) 0 st2) as [st3 [Hd Hi3]].
    rewrite Hd. cbn [bind]. rewrite Hi2 in Hi3. exists st3. split; [|exact Hi3].
    rewrite Hi2. reflexivity.
  - exists st2. now split.
Qed.

(** ** The readers at the end of the input *)









(** ** Accumulation without overflow *)






Lemma accumulate_int64_from ds : forall acc,
  Forall (fun b => digit_byte b = true) ds -> 0 <= acc ->
  fold_left (fun x b => x * 10 + (uchar b - 48)) ds acc < 2 ^ 63 ->
  fold_left (fun x d => int64 (x * 10 + d)) (map (fun b => uchar b - 48) ds) acc
  = fold_left (fun x b => x * 10 + (uchar b - 48)) ds acc.
Proof.
  induction ds as [|d ds IH]; intros acc Hall Hacc Hlt; cbn [fold_left map];
    [reflexivity|].
  inversion Hall as [|? ? Hd Hds]; subst.
  pose proof (digit_byte_range d Hd).
  pose proof (decimal_from_ge ds (acc * 10 + (uchar d - 48)) Hds ltac:(lia)).
  cbn [fold_left] in Hlt.
  rewrite int64_small by lia. apply IH; auto; lia.
Qed.

Lemma accumulate_int64 ds :
  Forall (fun b => digit_byte b = true) ds -> decimal ds < 2 ^ 63 ->
  accumulate int64 ds = decimal ds.
Proof.
  intros Hall Hlt. apply accumulate_int64_from; auto; lia.
Qed.


(** ** Signs *)

(** C10. When the first byte after the whitespace is a ['+'] or a ['-'],
    [yread_uint_ok] and [yread_ull_ok] return 0, leave [*out] as it was and
    leave the sign in the input.  The signed readers take the sign: followed
    by digits of a value in range they return 1 and store the signed value;
    followed by anything else (a second sign, say) they return 0. *)
Theorem unsigned_readers_reject_sign out st b rest :
  drop_while space_byte (input st) = b :: rest ->
  uchar b = 43 \/ uchar b = 45 ->
  let sg := if uchar b =? 45 then -1 else 1 in
  let ds := take_while digit_byte rest in
  (exists st', yread_uint_ok out st = Ok (0, out, st') /\ input st' = b :: rest) /\
  (exists st', yread_ull_ok out st = Ok (0, out, st') /\ input st' = b :: rest) /\
  (ds <> [] -> decimal ds <= INT32_MAX ->
   exists st', yread_int_ok out st = Ok (1, Vint (sg * decimal ds), st') /\
               input st' = drop_while digit_byte rest) /\
  (ds <> [] -> decimal ds <= LLONG_MAX ->
   exists st', yread_ll_ok out st = Ok (1, Vll (sg * decimal ds), st') /\
               input st' = drop_while digit_byte rest) /\
  (ds = [] ->
   (exists st', yread_int_ok out st = Ok (0, out, st') /\ input st' = rest) /\
   (exists st', yread_ll_ok out st = Ok (0, out, st') /\ input st' = rest)).
Proof.
  intros Hl Hb sg ds.
  assert (Hnd : is_digit (uchar b) = false).
  { unfold is_digit. destruct Hb as [-> | ->]; reflexivity. }
  assert (Hsign : sign_of (b :: rest) = (sg, rest)).
  { unfold sign_of, sg. destruct Hb as [-> | ->]; reflexivity. }
  assert (Hfr : is_digit (front rest) = match ds with [] => false | _ => true end).
  { unfold ds. rewrite is_digit_front. destruct rest as [|d r]; [reflexivity|].
    cbn [take_while]. now destruct (digit_byte d). }
  pose proof (take_while_all digit_byte rest) as Hall. fold ds in Hall.
  pose proof (decimal_nonneg ds Hall) as H0.
  assert (Hsg : sg = 1 \/ sg = -1) by (unfold sg; destruct (uchar b =? 45); auto).
  destruct (yread_uint_ok_spec out st) as [s1 [Hu1 Hu2]].
  destruct (yread_ull_ok_spec out st) as [s2 [Hv1 Hv2]].
  destruct (yread_int_ok_spec out st) as [s3 [Hi1 Hi2]].
  destruct (yread_ll_ok_spec out st) as [s4 [Hj1 Hj2]].
  rewrite Hl in *. unfold lex_unsigned in *. cbn [front] in *.
  rewrite Hnd in *. cbn [fst snd] in *.
  unfold lex_signed in *. rewrite Hsign in *. rewrite Hfr in *. fold ds in Hi1, Hj1.
  split; [now exists s1|]. split; [now exists s2|].
  unfold INT32_MAX, LLONG_MAX.
  split; [|split].
  - intros Hne Hr. destruct ds as [|d ds'] eqn:Eds; [contradiction|].
    rewrite <- Eds in *. cbn [fst snd] in *. exists s3. split; [|exact Hi2].
    rewrite Hi1, accumulate_int64 by (auto; lia).
    rewrite int64_small by (destruct Hsg as [-> | ->]; lia).
    rewrite int32_small by (destruct Hsg as [-> | ->]; lia).
    now rewrite Z.mul_comm.
  - intros Hne Hr. destruct ds as [|d ds'] eqn:Eds; [contradiction|].
    rewrite <- Eds in *. cbn [fst snd] in *. exists s4. split; [|exact Hj2].
    rewrite Hj1, accumulate_int64 by (auto; lia).
    rewrite int64_small by (destruct Hsg as [-> | ->]; lia).
    now rewrite Z.mul_comm.
  - intros Hnil. rewrite Hnil in *. cbn [fst snd] in *.
    split; [now exists s3 | now exists s4].
Qed.

(** The input ["  -12x"]. *)
Lemma unsigned_readers_reject_sign_witness :
  (exists st', yread_uint_ok (Vuint 9) (start (file_of (bytes "  -12x")))
               = Ok (0, Vuint 9, st') /\ input st' = bytes "-12x") /\
  (exists st', yread_int_ok (Vint 9) (start (file_of (bytes "  -12x")))
               = Ok (1, Vint (-12), st') /\ input st' = bytes "x").
Proof.
  destruct (unsigned_readers_reject_sign (Vuint 9)
              (start (file_of (bytes "  -12x"))) x2d (bytes "12x")
              eq_refl (or_intror eq_refl)) as (Hu & _).
  destruct (unsigned_readers_reject_sign (Vint 9)
              (start (file_of (bytes "  -12x"))) x2d (bytes "12x")
              eq_refl (or_intror eq_refl)) as (_ & _ & Hi & _).
  split; [exact Hu|]. apply Hi; [discriminate|]. vm_compute. discriminate.
Defined.

End V3_readers.

(* ------------------------------------------------------------------ *)
(** * The line readers of yscanf3.h *)

Module V3_lines.
Import V3 V3_buffer.


Lemma stored_from maxlen line : forall s,
  stored maxlen s line =
  s ++ map uchar (firstn (Z.to_nat (maxlen - 1) - length s) line).
Proof.
  unfold stored. induction line as [|b t IH]; intros s; cbn [fold_left].
  - now rewrite firstn_nil, app_nil_r.
  - rewrite IH. destruct (Z.ltb_spec (Z.of_nat (length s)) (maxlen - 1)) as [H|H].
    + rewrite length_app. cbn [length].
      replace (Z.to_nat (maxlen - 1) - length s)%nat
        with (S (Z.to_nat (maxlen - 1) - (length s + 1))) by lia.
      cbn [firstn map]. now rewrite <- app_assoc.
    + replace (Z.to_nat (maxlen - 1) - length s)%nat with 0%nat by lia.
      reflexivity.
Qed.

Lemma stored_truncate maxlen line : stored maxlen [] line = truncate maxlen line.
Proof.
  rewrite stored_from. cbn [app length]. now rewrite Nat.sub_0_r.
Qed.

Lemma yline_loop_spec maxlen fuel : forall l s st c,
  c = front l -> input st = tl l -> (length l < fuel)%nat ->
  exists st',
    yline_loop fuel maxlen c s st =
    Ok (front (drop_while line_byte l),
        stored maxlen s (take_while line_byte l), st') /\
    input st' = tl (drop_while line_byte l).
Proof.
  induction fuel as [|fuel IH]; intros l s st c Hc Hin Hf; [lia|].
  cbn [yline_loop]. destruct l as [|b t]; cbn [front tl] in Hc, Hin; subst c.
  - cbn. exists st. now split.
  - rewrite uchar_not_EOF. cbn [negb andb take_while drop_while].
    change (negb (uchar b =? 10) && negb (uchar b =? 13)) with (line_byte b).
    destruct (line_byte b).
    + get st c st1 Hc Hi. rewrite Hin in Hc, Hi.
      destruct (IH t (if Z.of_nat (length s) <? maxlen - 1 then s ++ [uchar b] else s)
                  st1 c Hc Hi) as [st' [Hr Hi']].
      { cbn [length] in Hf. lia. }
      exists st'. split; [|exact Hi']. rewrite Hr. reflexivity.
    + exists st. now split.
Qed.

(** From the byte [c] just read on: the line is stored cut to [maxlen - 1]
    bytes, whatever its length, and the input is left after the
    terminator. *)
Lemma yline_rest_spec maxlen l st c :
  c = front l -> input st = tl l ->
  exists st',
    yline_rest maxlen c st = Ok (1, truncate maxlen (take_while line_byte l), st') /\
    input st' = after_terminator (drop_while line_byte l).
Proof.
  intros Hc Hin. unfold yline_rest.
  destruct (yline_loop_spec maxlen (S (S (avail st))) l [] st c Hc Hin)
    as [st1 [Hr Hi1]].
  { pose proof (input_le_avail st). rewrite Hin in H.
    destruct l; cbn [length tl] in *; lia. }
  rewrite Hr, stored_truncate. cbn [bind].
  destruct (drop_while line_byte l) as [|b t]; cbn [front tl] in *.
  - exists st1. now split.
  - unfold after_terminator. destruct (uchar b =? 13).
    + peek st1 c2 st2 Hc2 Hi2. rewrite Hi1 in Hc2, Hi2. subst c2.
      destruct t as [|n t']; cbn [front].
      * exists st2. now split.
      * destruct (uchar n =? 10).
        -- destruct (yget_spec st2) as [_ Hi3]. rewrite Hi2 in Hi3.
           exists (snd (yget st2)). now split.
        -- exists st2. now split.
    + exists st1. now split.
Qed.

(** [ygetline_ok]: no token on an empty input only; otherwise the bytes
    before the first terminator, leading whitespace included, cut to
    [maxlen - 1], with the whole line and its terminator consumed. *)
Lemma ygetline_ok_spec s maxlen st :
  exists st',
    ygetline_ok s maxlen st =
    Ok (match input st with
        | [] => (0, s)
        | _ => (1, truncate maxlen (take_while line_byte (input st)))
        end, st') /\
    input st' = after_terminator (drop_while line_byte (input st)).
Proof.
  unfold ygetline_ok. get st c st1 Hc Hi.
  destruct (input st) as [|b t] eqn:Ein; cbn [front] in Hc; subst c.
  - cbn. exists st1. now split.
  - rewrite uchar_not_EOF.
    apply (yline_rest_spec maxlen (b :: t) st1 (uchar b) eq_refl Hi).
Qed.

(** [yread_line_ok] is [ygetline_ok] after the terminator bytes at the
    front of the input have been dropped. *)
Lemma yread_line_loop_spec maxlen s fuel : forall st,
  (length (input st) < fuel)%nat ->
  let l := drop_while (fun b => negb (line_byte b)) (input st) in
  exists st',
    yread_line_loop fuel s maxlen st =
    Ok (match l with
        | [] => (0, s)
        | _ => (1, truncate maxlen (take_while line_byte l))
        end, st') /\
    input st' = after_terminator (drop_while line_byte l).
Proof.
  induction fuel as [|fuel IH]; intros st Hf l; [lia|].
  cbn [yread_line_loop]. get st c st1 Hc Hi. unfold l.
  destruct (input st) as [|b t] eqn:Ein; cbn [front tl] in Hc, Hi; subst c.
  - cbn. exists st1. now split.
  - rewrite uchar_not_EOF. cbn [drop_while].
    replace ((uchar b =? 10) || (uchar b =? 13)) with (negb (line_byte b))
      by (unfold line_byte; now rewrite negb_andb, !negb_involutive).
    destruct (negb (line_byte b)).
    + destruct (IH st1) as [st' [Hr Hi']].
      { rewrite Hi. cbn [length] in Hf. lia. }
      rewrite Hi in Hr, Hi'. exists st'. now split.
    + destruct (yline_rest_spec maxlen (b :: t) st1 (uchar b) eq_refl Hi)
        as [st' [Hr Hi']].
      exists st'. now split.
Qed.

Lemma yread_line_ok_spec s maxlen st :
  let l := drop_while (fun b => negb (line_byte b)) (input st) in
  exists st',
    yread_line_ok s maxlen st =
    Ok (match l with
        | [] => (0, s)
        | _ => (1, truncate maxlen (take_while line_byte l))
        end, st') /\
    input st' = after_terminator (drop_while line_byte l).
Proof.
  apply yread_line_loop_spec. pose proof (input_le_avail st). lia.
Qed.

End V3_lines.

(* ------------------------------------------------------------------ *)
(** * The dispatcher of yscanf3.h *)

Module V3_dispatch.
Import V3 V3_buffer V3_readers.

Lemma yscanf_loop_unfold fuel c :
  yscanf_loop (S fuel) c =
  if deref (fmt c) =? 0 then Ok (cnt c, slots c, io c)
  else
    let* s := yscanf_step c in
    match s with
    | Next c' => yscanf_loop fuel c'
    | Return r sl st => Ok (r, sl, st)
    end.
Proof. reflexivity. Qed.

Lemma yscanf_loop_end fuel c :
  deref (fmt c) = 0 -> yscanf_loop fuel c = Ok (cnt c, slots c, io c).
Proof. intros H. destruct fuel; cbn [yscanf_loop]; now rewrite H. Qed.

Lemma yscanf_loop_next fuel c c' :
  deref (fmt c) <> 0 -> yscanf_step c = Ok (Next c') ->
  yscanf_loop (S fuel) c = yscanf_loop fuel c'.
Proof.
  intros H Hs. rewrite yscanf_loop_unfold, Hs.
  apply Z.eqb_neq in H. now rewrite H.
Qed.

Lemma yscanf_loop_return fuel c r sl st :
  deref (fmt c) <> 0 -> yscanf_step c = Ok (Return r sl st) ->
  yscanf_loop (S fuel) c = Ok (r, sl, st).
Proof.
  intros H Hs. rewrite yscanf_loop_unfold, Hs.
  apply Z.eqb_neq in H. now rewrite H.
Qed.

(** The cases of [yscanf_step] used below. *)
Lemma step_whitespace c :
  isspace (deref (fmt c)) = true ->
  yscanf_step c =
  let* st := yskip_space (io c) in
  Ok (Next (mkConfig (advance (fmt c)) (ap c) (cnt c) (slots c) st)).
Proof. intros H. unfold yscanf_step. now rewrite H. Qed.

Lemma step_literal c :
  isspace (deref (fmt c)) = false -> deref (fmt c) <> 37 ->
  yscanf_step c =
  Ok (Next (mkConfig (advance (fmt c)) (ap c) (cnt c) (slots c) (io c))).
Proof.
  intros H H'. unfold yscanf_step. rewrite H.
  apply Z.eqb_neq in H'. now rewrite H'.
Qed.

Lemma step_d c :
  deref (fmt c) = 37 -> deref (advance (fmt c)) = 100 ->
  yscanf_step c = convert yread_int_ok c (advance (fmt c)).
Proof. intros H H'. unfold yscanf_step. now rewrite H, H'. Qed.

Lemma convert_done reader c f out ok out' st sl :
  nth_error (slots c) (ap c) = Some out ->
  reader out (io c) = Ok (ok, out', st) ->
  poke (ap c) out' (slots c) = Some sl ->
  convert reader c f =
  if ok =? 0 then Ok (Return (if cnt c =? 0 then EOF else cnt c) sl st)
  else Ok (Next (mkConfig (advance f) (S (ap c)) (int32 (cnt c + 1)) sl st)).
Proof.
  intros Hn Hr Hp. unfold convert. rewrite Hn, Hr. cbn [bind]. now rewrite Hp.
Qed.









(** C1. [yscanf("%d %d", &a, &b)] on a stream that holds just ["42"]
    returns 1, stores 42 in the first slot and leaves the second slot as it
    was. *)
Theorem second_slot_untouched_at_end a b st :
  input st = bytes "42" ->
  exists st',
    yscanf (bytes "%d %d") [a; b] st = Ok (1, [Vint 42; b], st') /\
    input st' = [].
Proof.
  intros Hin. unfold yscanf. change (length (bytes "%d %d")) with 5%nat.
  destruct (yread_int_ok_spec a st) as [st1 [Hr1 Hi1]].
  rewrite Hin in Hr1, Hi1.
  change (snd (lex_signed (drop_while space_byte (bytes "42")))) with (@nil byte) in Hi1.
  destruct (yskip_space_spec st1) as [st2 [Hr2 Hi2]].
  rewrite Hi1 in Hi2. cbn [drop_while] in Hi2.
  destruct (yread_int_ok_spec b st2) as [st3 [Hr3 Hi3]].
  rewrite Hi2 in Hr3, Hi3.
  set (r1 := match fst _ with Some _ => _ | None => _ end) in Hr1.
  vm_compute in r1. subst r1.
  set (r3 := match fst _ with Some _ => _ | None => _ end) in Hr3.
  cbv in r3. subst r3.
  exists st3. split; [|exact Hi3].
  erewrite yscanf_loop_next;
    [ | discriminate
      | rewrite step_d by reflexivity;
        eapply eq_trans;
        [ eapply convert_done; [reflexivity | exact Hr1 | reflexivity]
        | reflexivity ] ].
  erewrite yscanf_loop_next;
    [ | discriminate
      | rewrite step_whitespace by reflexivity; cbn [io]; rewrite Hr2; reflexivity ].
  erewrite yscanf_loop_return;
    [ reflexivity | discriminate
      | rewrite step_d by reflexivity;
        eapply eq_trans;
        [ eapply convert_done; [reflexivity | exact Hr3 | reflexivity]
        | reflexivity ] ].
Qed.

Lemma second_slot_untouched_at_end_witness :
  exists st',
    yscanf (bytes "%d %d") [Vint 5; Vint 6] (start (file_of (bytes "42")))
    = Ok (1, [Vint 42; Vint 6], st') /\ input st' = [].
Proof.
  apply (second_slot_untouched_at_end (Vint 5) (Vint 6)). reflexivity.
Defined.

(** ** Tags that are not converted *)

Ltac tag_case b k t H :=
  let E := fresh "E" in
  destruct (Z.eqb_spec (uchar b) k) as [E|E];
  [ assert (b = t) by (apply uchar_inj; exact E); subst b;
    try (cbn in H; discriminate)
  | ].

Lemma step_unrecognized c :
  deref (fmt c) = 37 -> recognized tags (advance (fmt c)) = false ->
  yscanf_step c = Ok (Return (-1) (slots c) (io c)).
Proof.
  intros Hp H. unfold yscanf_step. rewrite Hp.
  change (isspace 37) with false. change (negb (37 =? 37)) with false. cbv iota.
  destruct (advance (fmt c)) as [|b1 f1]; [reflexivity|]. cbn [deref advance tl].
  tag_case b1 100 x64 H. tag_case b1 117 x75 H. tag_case b1 108 x6c H.
  - destruct f1 as [|b2 f2]; [reflexivity|]. cbn [deref advance tl].
    tag_case b2 108 x6c H; [|reflexivity].
    destruct f2 as [|b3 f3]; [reflexivity|]. cbn [deref advance tl].
    tag_case b3 100 x64 H. tag_case b3 117 x75 H. reflexivity.
  - tag_case b1 102 x66 H. tag_case b1 101 x65 H. tag_case b1 103 x67 H.
    tag_case b1 115 x73 H. tag_case b1 99 x63 H. reflexivity.
Qed.

Lemma convert_next reader c f c1 :
  convert reader c f = Ok (Next c1) -> fmt c1 = advance f.
Proof.
  unfold convert. destruct (nth_error (slots c) (ap c)); [|discriminate].
  destruct (reader v (io c)) as [[[ok out'] st]|]; [|discriminate]. cbn [bind].
  destruct (poke (ap c) out' (slots c)); [|discriminate].
  destruct (ok =? 0); [discriminate|]. intros H. now injection H as <-.
Qed.

(** Every iteration that goes round the loop has advanced [fmt]. *)
Lemma step_shrinks c c1 :
  deref (fmt c) <> 0 -> yscanf_step c = Ok (Next c1) ->
  (length (fmt c1) < length (fmt c))%nat.
Proof.
  intros Hd. assert (Hlt : (length (advance (fmt c)) < length (fmt c))%nat).
  { destruct (fmt c); [now elim Hd | cbn; lia]. }
  pose proof (advance_length (advance (fmt c))) as H1.
  pose proof (advance_length (advance (advance (fmt c)))) as H2.
  pose proof (advance_length (advance (advance (advance (fmt c))))) as H3.
  unfold yscanf_step.
  repeat match goal with
         | |- context [if ?b then _ else _] => destruct b
         end;
    try discriminate;
    try (intros H; apply convert_next in H; rewrite H; lia).
  - destruct (yskip_space (io c)); [|discriminate].
    intros H; injection H as <-; exact Hlt.
  - intros H; injection H as <-; exact Hlt.
Qed.

Lemma loop_reaches c c' :
  reaches c c' -> forall fuel, (length (fmt c) <= fuel)%nat ->
  exists fuel', (length (fmt c') <= fuel')%nat /\
                yscanf_loop fuel c = yscanf_loop fuel' c'.
Proof.
  induction 1 as [c | c c1 c' Hd Hs _ IH]; intros fuel Hlen.
  - now exists fuel.
  - pose proof (step_shrinks c c1 Hd Hs) as Hlt.
    destruct fuel as [|fuel]; [lia|].
    rewrite (yscanf_loop_next fuel c c1 Hd Hs). apply IH. lia.
Qed.

(** In yscanf3.h: when the dispatcher comes to a
    ['%'] whose tag is not one it converts, the call returns -1, whatever
    [cnt] is by then. *)
Lemma unrecognized_tag_ends_call f sl st c :
  reaches (mkConfig f 0 0 sl st) c ->
  deref (fmt c) = 37 -> recognized tags (advance (fmt c)) = false ->
  yscanf f sl st = Ok (-1, slots c, io c).
Proof.
  intros Hr Hp Hu. unfold yscanf.
  destruct (loop_reaches _ _ Hr (length f)) as [fuel' [Hlen Heq]];
    [cbn [fmt]; lia|].
  rewrite Heq. destruct fuel' as [|fuel'].
  - destruct (fmt c); [discriminate Hp | cbn in Hlen; lia].
  - apply yscanf_loop_return; [rewrite Hp; discriminate|].
    now apply step_unrecognized.
Qed.

End V3_dispatch.

(* ------------------------------------------------------------------ *)
(** * The buffer of yscanf2.h *)

Module V2_buffer.
Import V2.

Lemma buffered_empty_v2 st : (yend st <= yptr st)%nat -> buffered st = [].
Proof.
  intros H. unfold buffered. replace (yend st - yptr st)%nat with 0%nat by lia.
  reflexivity.
Qed.

Lemma buffered_cons_v2 st :
  (yptr st < yend st)%nat ->
  buffered st =
  nth (yptr st) (ybuf st) x00 ::
  buffered (mkState (ybuf st) (S (yptr st)) (yend st) (stdin st)).
Proof.
  intros H. unfold buffered; simpl.
  replace (yend st - yptr st)%nat with (S (yend st - S (yptr st))) by lia.
  reflexivity.
Qed.

(** After a refill that found the buffer used up, the buffer holds what the
    stream delivered. *)
Lemma yrefill_spec st :
  (yend st <= yptr st)%nat ->
  let st' := yrefill st in
  yptr st' = 0%nat /\
  ((yend st' = 0%nat /\ input st = []) \/
   ((0 < yend st')%nat /\ input st' = input st)).
Proof.
  intros H st'. unfold st', yrefill, input. rewrite (buffered_empty_v2 st H).
  destruct (fread_upcoming YSCANF_BUFFER_SIZE (stdin st) buffer_size_pos)
    as [[Hg Hu]|[Hg Hu]];
    destruct (fread YSCANF_BUFFER_SIZE (stdin st)) as [got f];
    cbn [fst snd] in Hg, Hu; cbn [yptr yend stdin]; (split; [reflexivity|]).
  - left. subst got. now split.
  - right. split; [destruct got; [contradiction|cbn; lia]|].
    unfold buffered; cbn [ybuf yptr yend]. rewrite Nat.sub_0_r, filled_prefix.
    now rewrite Hu.
Qed.

(** [ynext_char] and [ypeek_char] return the first byte of the input, or
    [EOF] when there is none; [ynext_char] removes it. *)
Lemma ynext_char_spec st :
  fst (ynext_char st) = front (input st) /\
  (input st <> [] -> input (snd (ynext_char st)) = tl (input st)).
Proof.
  unfold ynext_char. destruct (Nat.leb_spec (yend st) (yptr st)) as [H|H].
  - destruct (yrefill_spec st H) as [Hp [[He Hi]|[He Hi]]];
      set (st' := yrefill st) in *;
      destruct (Nat.leb_spec (yend st') (yptr st')) as [H'|H']; try lia.
    + rewrite Hi. split; [reflexivity|]. now intros [].
    + rewrite <- Hi. cbn [fst snd]. unfold input. rewrite (buffered_cons_v2 st' H').
      cbn [app front tl stdin]. split; [reflexivity|]. intros _. reflexivity.
  - cbn [fst snd]. unfold input. rewrite (buffered_cons_v2 st H).
    cbn [app front tl stdin]. split; [reflexivity|]. intros _. reflexivity.
Qed.

Lemma ypeek_char_spec st :
  fst (ypeek_char st) = front (input st) /\
  (input st <> [] -> input (snd (ypeek_char st)) = input st).
Proof.
  unfold ypeek_char. destruct (Nat.leb_spec (yend st) (yptr st)) as [H|H].
  - destruct (yrefill_spec st H) as [Hp [[He Hi]|[He Hi]]];
      set (st' := yrefill st) in *;
      destruct (Nat.leb_spec (yend st') (yptr st')) as [H'|H']; try lia.
    + rewrite Hi. split; [reflexivity|]. now intros [].
    + rewrite <- Hi. cbn [fst snd]. unfold input at 1. rewrite (buffered_cons_v2 st' H').
      cbn [app front]. split; reflexivity.
  - cbn [fst snd]. unfold input at 1. rewrite (buffered_cons_v2 st H).
    cbn [app front]. split; reflexivity.
Qed.

Lemma input_le_avail_v2 st : (length (input st) <= avail st)%nat.
Proof.
  unfold input, avail, buffered, pending.
  rewrite length_app, length_map, length_seq.
  pose proof (upcoming_le_pending (chunks (stdin st))). lia.
Qed.

Ltac peek st c st1 Hc Hi :=
  destruct (ypeek_char_spec st) as [Hc Hi];
  destruct (ypeek_char st) as [c st1]; cbn [fst snd] in Hc, Hi.

Ltac next st c st1 Hc Hi :=
  destruct (ynext_char_spec st) as [Hc Hi];
  destruct (ynext_char st) as [c st1]; cbn [fst snd] in Hc, Hi.

(** [yskip_space_input] returns; when a byte other than whitespace is left
    in the input, it has removed just the whitespace before it. *)
Lemma yskip_space_loop_spec_v2 fuel : forall st,
  (length (input st) < fuel)%nat ->
  exists st', yskip_space_loop fuel st = Ok st' /\
              (drop_while space_byte (input st) <> [] ->
               input st' = drop_while space_byte (input st)).
Proof.
  induction fuel as [|fuel IH]; intros st Hf; [lia|].
  cbn [yskip_space_loop]. peek st c st1 Hc Hi.
  destruct (input st) as [|b t] eqn:Ein; cbn [front] in Hc; subst c.
  - cbn. exists st1. split; [reflexivity|]. now intros [].
  - specialize (Hi ltac:(discriminate)).
    rewrite uchar_not_EOF. cbn [negb andb drop_while].
    unfold space_byte at 1 3. destruct (isspace (uchar b)).
    + destruct (ynext_char_spec st1) as [_ Hi2]. rewrite Hi in Hi2.
      specialize (Hi2 ltac:(discriminate)). cbn [tl] in Hi2.
      destruct (IH (snd (ynext_char st1))) as [st' [Hr Hin]].
      { rewrite Hi2. cbn [length] in Hf. lia. }
      rewrite Hi2 in Hin. now exists st'.
    + exists st1. now split.
Qed.

Lemma yskip_space_input_spec st :
  exists st', yskip_space_input st = Ok st' /\
              (drop_while space_byte (input st) <> [] ->
               input st' = drop_while space_byte (input st)).
Proof.
  apply yskip_space_loop_spec_v2. pose proof (input_le_avail_v2 st). lia.
Qed.

End V2_buffer.

(* ------------------------------------------------------------------ *)
(** * The integer readers of yscanf2.h *)

Module V2_readers.
Import V2 V2_buffer.


Lemma next_presents st :
  presents (fst (ynext_char st)) (snd (ynext_char st)) (input st).
Proof. exact (ynext_char_spec st). Qed.

Lemma presents_fuel c st l : presents c st l -> (length l < S (S (avail st)))%nat.
Proof.
  intros [_ H]. pose proof (input_le_avail_v2 st) as Ha.
  destruct l as [|b t]; [cbn; lia|].
  rewrite (H ltac:(discriminate)) in Ha. cbn [tl length] in *. lia.
Qed.

Lemma yconsume_loop_spec fuel : forall st,
  (length (input st) < fuel)%nat ->
  exists st', yconsume_loop fuel st = Ok st' /\
              (drop_while digit_byte (input st) <> [] ->
               input st' = tl (drop_while digit_byte (input st))).
Proof.
  induction fuel as [|fuel IH]; intros st Hf; [lia|].
  cbn [yconsume_loop]. next st c st1 Hc Hi.
  destruct (input st) as [|b t] eqn:Ein; cbn [front tl] in Hc, Hi; subst c.
  - cbn. exists st1. split; [reflexivity|]. now intros [].
  - specialize (Hi ltac:(discriminate)). cbn [drop_while].
    unfold digit_byte at 1 3. destruct (is_digit (uchar b)).
    + destruct (IH st1) as [st' [Hr Hi']].
      { rewrite Hi. cbn [length] in Hf. lia. }
      rewrite Hi in Hi'. now exists st'.
    + exists st1. now split.
Qed.

Lemma yparse_loop_spec wrap fuel : forall l x c st,
  presents c st l -> (length l < fuel)%nat ->
  exists st',
    yparse_loop wrap fuel x c st =
    Ok (parse_acc wrap x (take_while digit_byte l), st') /\
    (drop_while digit_byte l <> [] -> input st' = tl (drop_while digit_byte l)).
Proof.
  induction fuel as [|fuel IH]; intros l x c st [Hc Hin] Hf; [lia|].
  cbn [yparse_loop]. destruct l as [|b t]; cbn [front tl] in Hc, Hin; subst c.
  - cbn. exists st. split; [reflexivity|]. now intros [].
  - specialize (Hin ltac:(discriminate)). cbn [take_while drop_while].
    change (is_digit (uchar b)) with (digit_byte b). destruct (digit_byte b).
    + cbn [parse_acc]. destruct (wrap (x * 10 + (uchar b - 48)) <? x).
      * destruct (yconsume_loop_spec (S (avail st)) st) as [st' [Hr Hi']].
        { pose proof (input_le_avail_v2 st). lia. }
        rewrite Hr. cbn [bind]. rewrite Hin in Hi'. now exists st'.
      * pose proof (next_presents st) as Hp. rewrite Hin in Hp.
        destruct (ynext_char st) as [c' st0]. cbn [fst snd] in Hp.
        apply (IH t _ c' st0 Hp). cbn [length] in Hf. lia.
    + exists st. now split.
Qed.

(** The optional sign as [yparse_int] and [yread_mantissa] read it. *)
Lemma sign_presents c st l :
  presents c st l -> l <> [] ->
  let r := if c =? 45 then let (c, st) := ynext_char st in (-1, c, st)
           else if c =? 43 then let (c, st) := ynext_char st in (1, c, st)
           else (1, c, st) in
  fst (fst r) = fst (sign_of l) /\ presents (snd (fst r)) (snd r) (snd (sign_of l)).
Proof.
  intros [Hc Hin] Hne. destruct l as [|b t]; [contradiction|].
  specialize (Hin Hne). cbn [front tl] in Hc, Hin. subst c. cbn [sign_of].
  pose proof (next_presents st) as Hp. rewrite Hin in Hp.
  destruct (ynext_char st) as [c' st']. cbn [fst snd] in Hp.
  destruct (uchar b =? 45) eqn:E45.
  - rewrite orb_true_r. cbn. now split.
  - rewrite orb_false_r. destruct (uchar b =? 43); cbn; split; auto.
    split; [reflexivity|]. intros _. exact Hin.
Qed.

(** [yparse_int] on an input with something after the whitespace: the sign
    is read, then either there is no digit (0, with [*overflow] set) or the
    digits are accumulated; the numeral and the byte after it are
    consumed. *)
Lemma yparse_int_spec st :
  let l := drop_while space_byte (input st) in
  let l1 := snd (sign_of l) in
  l <> [] ->
  exists st',
    yparse_int st =
    Ok (if is_digit (front l1)
        then (let (x, o) := parse_acc int64 0 (take_while digit_byte l1) in
              (int64 (fst (sign_of l) * x), o))
        else (0, 1), st') /\
    (is_digit (front l1) = true -> drop_while digit_byte l1 <> [] ->
     input st' = tl (drop_while digit_byte l1)).
Proof.
  intros l l1 Hne. unfold yparse_int.
  destruct (yskip_space_input_spec st) as [st1 [Hs Hi1]]. fold l in Hi1.
  specialize (Hi1 Hne). rewrite Hs. cbn [bind].
  pose proof (next_presents st1) as Hp. rewrite Hi1 in Hp.
  destruct (ynext_char st1) as [c st2]. cbn [fst snd] in Hp.
  pose proof (sign_presents c st2 l Hp Hne) as Hsg. cbv zeta in Hsg.
  destruct (if c =? 45 then let (c, st) := ynext_char st2 in (-1, c, st)
            else if c =? 43 then let (c, st) := ynext_char st2 in (1, c, st)
            else (1, c, st2)) as [[sg c'] st3].
  cbn [fst snd] in Hsg. destruct Hsg as [Hsg Hp3]. fold l1 in Hp3.
  rewrite not_digit_test. destruct Hp3 as [Hc3 Hi3].
  rewrite Hc3. destruct (is_digit (front l1)) eqn:Ed; cbn [negb].
  - destruct (yparse_loop_spec int64 (S (S (avail st3))) l1 0 (front l1) st3)
      as [st' [Hr Hi']].
    { now split. }
    { apply (presents_fuel (front l1) st3 l1). now split. }
    rewrite Hr. cbn [bind].
    destruct (parse_acc int64 0 (take_while digit_byte l1)) as [x o].
    exists st'. rewrite Hsg. split; [reflexivity|]. intros _. exact Hi'.
  - exists st3. split; [reflexivity|]. discriminate.
Qed.

Lemma yparse_uint_spec st :
  let l := drop_while space_byte (input st) in
  l <> [] ->
  exists st',
    yparse_uint st =
    Ok (if is_digit (front l)
        then parse_acc uint64 0 (take_while digit_byte l)
        else (0, 1), st') /\
    (is_digit (front l) = true -> drop_while digit_byte l <> [] ->
     input st' = tl (drop_while digit_byte l)).
Proof.
  intros l Hne. unfold yparse_uint.
  destruct (yskip_space_input_spec st) as [st1 [Hs Hi1]]. fold l in Hi1.
  specialize (Hi1 Hne). rewrite Hs. cbn [bind].
  pose proof (next_presents st1) as Hp. rewrite Hi1 in Hp.
  destruct (ynext_char st1) as [c st2]. cbn [fst snd] in Hp.
  rewrite not_digit_test. destruct Hp as [Hc Hi2].
  rewrite Hc. destruct (is_digit (front l)) eqn:Ed; cbn [negb].
  - destruct (yparse_loop_spec uint64 (S (S (avail st2))) l 0 (front l) st2)
      as [st' [Hr Hi']].
    { now split. }
    { apply (presents_fuel (front l) st2 l). now split. }
    rewrite Hr. cbn [bind].
    destruct (parse_acc uint64 0 (take_while digit_byte l)) as [x o].
    exists st'. split; [reflexivity|]. intros _. exact Hi'.
  - exists st2. split; [reflexivity|]. discriminate.
Qed.

(** ** The accumulation and its overflow test *)

Section Accumulation.

(** [wrap] is the wrap-around of a type with the nonnegative values below
    [B]; [M] is a bound small enough for one more digit to fit. *)
Variables (wrap : Z -> Z) (B M : Z).
Hypothesis wrap_small : forall y, 0 <= y < B -> wrap y = y.
Hypothesis wrap_below : forall y, wrap y < B.
Hypothesis room : M * 10 + 9 < B.
Hypothesis M_nonneg : 0 <= M.

(** Without overflow the accumulation is exact and the flag stays clear. *)
Lemma parse_acc_exact ds : forall x,
  Forall (fun b => digit_byte b = true) ds -> 0 <= x ->
  fold_left (fun x b => x * 10 + (uchar b - 48)) ds x < B ->
  parse_acc wrap x ds = (fold_left (fun x b => x * 10 + (uchar b - 48)) ds x, 0).
Proof.
  induction ds as [|d ds IH]; intros x Hall Hx Hlt; cbn [parse_acc fold_left];
    [reflexivity|].
  inversion Hall as [|? ? Hd Hds]; subst.
  pose proof (digit_byte_range d Hd).
  pose proof (decimal_from_ge ds (x * 10 + (uchar d - 48)) Hds ltac:(lia)).
  cbn [fold_left] in Hlt. rewrite wrap_small by lia.
  destruct (Z.ltb_spec (x * 10 + (uchar d - 48)) x); [lia|].
  apply IH; auto; lia.
Qed.

(** Once the value has passed [M], the accumulator stays above [M],
    whether the overflow is seen, missed, or does not happen. *)
Lemma parse_acc_large ds : forall x,
  Forall (fun b => digit_byte b = true) ds -> 0 <= x < B ->
  M < x \/ M < fold_left (fun x b => x * 10 + (uchar b - 48)) ds x ->
  M < fst (parse_acc wrap x ds) < B.
Proof.
  induction ds as [|d ds IH]; intros x Hall Hx Hbig; cbn [parse_acc fold_left] in *.
  - cbn [fst]. lia.
  - inversion Hall as [|? ? Hd Hds]; subst.
    pose proof (digit_byte_range d Hd) as Hr.
    pose proof (wrap_below (x * 10 + (uchar d - 48))) as Hb.
    destruct (Z.ltb_spec (wrap (x * 10 + (uchar d - 48))) x) as [Hlt|Hge].
    + cbn [fst]. split; [|lia].
      destruct (Z.le_gt_cases x M) as [Hle|Hgt]; [|lia].
      rewrite wrap_small in Hlt by lia. lia.
    + apply IH; auto; [lia|].
      destruct (Z.le_gt_cases x M) as [Hle|Hgt]; [|left; lia].
      rewrite wrap_small by lia. destruct Hbig as [Hbig|Hbig]; [lia|now right].
Qed.

End Accumulation.

Lemma uint64_small y : 0 <= y < 2 ^ 64 -> uint64 y = y.
Proof. intros H. unfold uint64, wrap_unsigned. now apply Z.mod_small. Qed.

Lemma uint64_below y : uint64 y < 2 ^ 64.
Proof. unfold uint64, wrap_unsigned. apply Z.mod_pos_bound. lia. Qed.

Lemma int64_nonneg_small y : 0 <= y < 2 ^ 63 -> int64 y = y.
Proof. intros H. apply int64_small. lia. Qed.

Lemma int64_below y : int64 y < 2 ^ 63.
Proof.
  unfold int64, wrap_signed. change (2 ^ (64 - 1)) with (2 ^ 63).
  pose proof (Z.mod_pos_bound (y + 2 ^ 63) (2 ^ 64) ltac:(lia)). lia.
Qed.

Lemma span_digits ds rest :
  Forall (fun b => digit_byte b = true) ds -> is_digit (front rest) = false ->
  take_while digit_byte (ds ++ rest) = ds /\
  drop_while digit_byte (ds ++ rest) = rest.
Proof.
  intros Hall Hr. induction Hall as [|d ds Hd _ [IH1 IH2]]; cbn [app].
  - destruct rest as [|r rest]; [now split|].
    cbn [take_while drop_while front] in *. unfold digit_byte. now rewrite Hr.
  - cbn [take_while drop_while]. rewrite Hd, IH1, IH2. now split.
Qed.

(** ** Numerals beyond the range of 32 bits *)



Lemma numeral_sign l sgn ds rest :
  numeral_at l sgn ds rest ->
  sign_of l = (sign_value sgn, ds ++ rest) /\
  is_digit (front (ds ++ rest)) = true /\ l <> [].
Proof.
  intros (Hl & Hs & Hne & Hall & _).
  destruct ds as [|d ds]; [contradiction|]. inversion Hall as [|? ? Hd _]; subst.
  assert (Hf : is_digit (front ((d :: ds) ++ rest)) = true) by exact Hd.
  destruct Hs as [-> | [-> | ->]]; cbn [app sign_of sign_value].
  - pose proof (digit_byte_range d Hd).
    destruct (Z.eqb_spec (uchar d) 43); [lia|].
    destruct (Z.eqb_spec (uchar d) 45); [lia|]. cbn. repeat split; auto.
    discriminate.
  - repeat split; auto. discriminate.
  - repeat split; auto. discriminate.
Qed.

Lemma yparse_int_numeral st sgn ds rest :
  numeral_at (drop_while space_byte (input st)) sgn ds rest ->
  exists st',
    yparse_int st =
    Ok (int64 (sign_value sgn * fst (parse_acc int64 0 ds)),
        snd (parse_acc int64 0 ds), st') /\
    (rest <> [] -> input st' = tl rest).
Proof.
  intros Hn. destruct (numeral_sign _ _ _ _ Hn) as (Hsg & Hd & Hne).
  destruct Hn as (_ & _ & _ & Hall & Hr).
  destruct (span_digits ds rest Hall Hr) as [Ht Hdr].
  destruct (yparse_int_spec st Hne) as [st' [Hp Hi]].
  rewrite Hsg in Hp, Hi. cbn [fst snd] in Hp, Hi. rewrite Hd, Ht in Hp.
  rewrite Hdr in Hi. exists st'. split; [|now apply Hi].
  rewrite Hp. now destruct (parse_acc int64 0 ds).
Qed.

Lemma yparse_uint_numeral st ds rest :
  numeral_at (drop_while space_byte (input st)) [] ds rest ->
  exists st',
    yparse_uint st = Ok (parse_acc uint64 0 ds, st') /\
    (rest <> [] -> input st' = tl rest).
Proof.
  intros Hn. destruct (numeral_sign _ _ _ _ Hn) as (_ & Hd & Hne).
  destruct Hn as (Hl & _ & _ & Hall & Hr). cbn [app] in Hl.
  destruct (span_digits ds rest Hall Hr) as [Ht Hdr].
  destruct (yparse_uint_spec st Hne) as [st' [Hp Hi]].
  rewrite Hl in Hp, Hi. rewrite Hd, Ht in Hp. rewrite Hdr in Hi.
  exists st'. split; [exact Hp | now apply Hi].
Qed.

Lemma sign_value_cases sgn : sign_value sgn = 1 \/ sign_value sgn = -1.
Proof.
  destruct sgn as [|b [|? ?]]; cbn; auto. destruct (uchar b =? 45); auto.
Qed.

(** [yread_int] on a numeral whose value is above [INT32_MAX]. *)
Lemma yread_int_saturates st sgn ds rest :
  numeral_at (drop_while space_byte (input st)) sgn ds rest ->
  INT32_MAX < decimal ds ->
  exists st',
    yread_int st =
    Ok ((if sign_value sgn =? 1 then INT32_MAX else INT32_MIN), st') /\
    (rest <> [] -> input st' = tl rest).
Proof.
  intros Hn Hbig. destruct (yparse_int_numeral st sgn ds rest Hn) as [st' [Hp Hi]].
  destruct Hn as (_ & _ & _ & Hall & _).
  pose proof (parse_acc_large int64 (2 ^ 63) INT32_MAX int64_nonneg_small
                int64_below ltac:(unfold INT32_MAX; lia)
                ltac:(unfold INT32_MAX; lia) ds 0 Hall ltac:(lia) (or_intror Hbig)) as Hx.
  exists st'. split; [|exact Hi]. unfold yread_int. rewrite Hp. cbn [bind].
  destruct (parse_acc int64 0 ds) as [x o]. cbn [fst snd] in *.
  unfold INT32_MAX, INT32_MIN in *.
  destruct (sign_value_cases sgn) as [-> | ->].
  - rewrite int64_small by lia. replace (1 * x) with x by lia.
    destruct (Z.gtb_spec x 2147483647); [|lia]. rewrite orb_true_r. cbn [orb].
    destruct (Z.gtb_spec x 0); [reflexivity|lia].
  - rewrite int64_small by lia. cbn [Z.eqb].
    destruct (Z.gtb_spec (-1 * x) 0); [lia|].
    destruct (negb (o =? 0) || (-1 * x >? 2147483647) || (-1 * x <? -2147483648))
      eqn:E; [reflexivity|].
    apply orb_false_elim in E as [_ E]. apply Z.ltb_ge in E.
    replace (-1 * x) with (-2147483648) by lia. reflexivity.
Qed.

(** [yread_uint] on a numeral whose value is above [UINT32_MAX]. *)
Lemma yread_uint_saturates st ds rest :
  numeral_at (drop_while space_byte (input st)) [] ds rest ->
  UINT32_MAX < decimal ds ->
  exists st',
    yread_uint st = Ok (UINT32_MAX, st') /\ (rest <> [] -> input st' = tl rest).
Proof.
  intros Hn Hbig. destruct (yparse_uint_numeral st ds rest Hn) as [st' [Hp Hi]].
  destruct Hn as (_ & _ & _ & Hall & _).
  pose proof (parse_acc_large uint64 (2 ^ 64) UINT32_MAX uint64_small
                uint64_below ltac:(unfold UINT32_MAX; lia)
                ltac:(unfold UINT32_MAX; lia) ds 0 Hall ltac:(lia) (or_intror Hbig)) as Hx.
  exists st'. split; [|exact Hi]. unfold yread_uint. rewrite Hp. cbn [bind].
  destruct (parse_acc uint64 0 ds) as [x o]. cbn [fst snd] in *.
  unfold UINT32_MAX in *.
  destruct (Z.gtb_spec x 4294967295); [|lia]. now rewrite orb_true_r.
Qed.

(** [yparse_int] leaves [*overflow] clear on every numeral that fits 64
    bits, the ones beyond the range of [int] among them. *)
Lemma yparse_int_flag_clear st sgn ds rest :
  numeral_at (drop_while space_byte (input st)) sgn ds rest ->
  decimal ds < 2 ^ 63 ->
  exists st',
    yparse_int st = Ok (sign_value sgn * decimal ds, 0, st') /\
    (rest <> [] -> input st' = tl rest).
Proof.
  intros Hn Hfit. destruct (yparse_int_numeral st sgn ds rest Hn) as [st' [Hp Hi]].
  destruct Hn as (_ & _ & _ & Hall & _).
  pose proof (decimal_nonneg ds Hall) as H0.
  rewrite (parse_acc_exact int64 (2 ^ 63) int64_nonneg_small ds 0 Hall
             ltac:(lia) Hfit) in Hp.
  cbn [fst snd] in Hp. fold (decimal ds) in Hp.
  rewrite int64_small in Hp
    by (destruct (sign_value_cases sgn) as [-> | ->]; lia).
  now exists st'.
Qed.

(** The same for [yparse_uint], on every numeral that fits 64 bits. *)
Lemma yparse_uint_exact st ds rest :
  numeral_at (drop_while space_byte (input st)) [] ds rest ->
  decimal ds < 2 ^ 64 ->
  exists st',
    yparse_uint st = Ok (decimal ds, 0, st') /\ (rest <> [] -> input st' = tl rest).
Proof.
  intros Hn Hfit. destruct (yparse_uint_numeral st ds rest Hn) as [st' [Hp Hi]].
  destruct Hn as (_ & _ & _ & Hall & _).
  rewrite (parse_acc_exact uint64 (2 ^ 64) uint64_small ds 0 Hall ltac:(lia) Hfit)
    in Hp.
  now exists st'.
Qed.

(** [yread_int] on a numeral in the range of [int]. *)
Lemma yread_int_in_range st sgn ds rest :
  numeral_at (drop_while space_byte (input st)) sgn ds rest ->
  INT32_MIN <= sign_value sgn * decimal ds <= INT32_MAX ->
  exists st',
    yread_int st = Ok (sign_value sgn * decimal ds, st') /\
    (rest <> [] -> input st' = tl rest).
Proof.
  intros Hn Hr. pose proof Hn as (_ & _ & _ & Hall & _).
  pose proof (decimal_nonneg ds Hall) as H0.
  unfold INT32_MIN, INT32_MAX in Hr.
  assert (Hfit : decimal ds < 2 ^ 63).
  { destruct (sign_value_cases sgn) as [E | E]; rewrite E in Hr; lia. }
  destruct (yparse_int_flag_clear st sgn ds rest Hn Hfit) as [st' [Hp Hi]].
  exists st'. split; [|exact Hi]. unfold yread_int. rewrite Hp. cbn [bind].
  unfold INT32_MAX, INT32_MIN. cbn [Z.eqb negb orb].
  destruct (Z.gtb_spec (sign_value sgn * decimal ds) 2147483647); [lia|].
  destruct (Z.ltb_spec (sign_value sgn * decimal ds) (-2147483648)); [lia|].
  cbn [orb]. now rewrite int32_small by lia.
Qed.

End V2_readers.

(* ------------------------------------------------------------------ *)
(** * The dispatcher of yscanf2.h *)

Module V2_dispatch.
Import V2 V2_buffer.

Lemma yscanf_loop_unfold_v2 fuel c :
  yscanf_loop (S fuel) c =
  if deref (fmt c) =? 0 then Ok (cnt c, slots c, io c)
  else
    let* s := yscanf_step c in
    match s with
    | Next c' => yscanf_loop fuel c'
    | Return r sl st => Ok (r, sl, st)
    end.
Proof. reflexivity. Qed.

Lemma yscanf_loop_end_v2 fuel c :
  deref (fmt c) = 0 -> yscanf_loop fuel c = Ok (cnt c, slots c, io c).
Proof. intros H. destruct fuel; cbn [yscanf_loop]; now rewrite H. Qed.

Lemma yscanf_loop_next_v2 fuel c c' :
  deref (fmt c) <> 0 -> yscanf_step c = Ok (Next c') ->
  yscanf_loop (S fuel) c = yscanf_loop fuel c'.
Proof.
  intros H Hs. rewrite yscanf_loop_unfold_v2, Hs.
  apply Z.eqb_neq in H. now rewrite H.
Qed.

Lemma yscanf_loop_return_v2 fuel c r sl st :
  deref (fmt c) <> 0 -> yscanf_step c = Ok (Return r sl st) ->
  yscanf_loop (S fuel) c = Ok (r, sl, st).
Proof.
  intros H Hs. rewrite yscanf_loop_unfold_v2, Hs.
  apply Z.eqb_neq in H. now rewrite H.
Qed.

Lemma step_whitespace_v2 c :
  isspace (deref (fmt c)) = true ->
  yscanf_step c =
  Ok (Next (mkConfig (advance (fmt c)) (ap c) (cnt c) true (slots c) (io c))).
Proof. intros H. unfold yscanf_step. now rewrite H. Qed.

Lemma step_literal_v2 c :
  isspace (deref (fmt c)) = false -> deref (fmt c) <> 37 ->
  yscanf_step c =
  Ok (Next (mkConfig (advance (fmt c)) (ap c) (cnt c) false (slots c) (io c))).
Proof.
  intros H H'. unfold yscanf_step. rewrite H.
  apply Z.eqb_neq in H'. now rewrite H'.
Qed.

Lemma step_c c :
  deref (fmt c) = 37 -> deref (advance (fmt c)) = 99 ->
  yscanf_step c = convert_char c (advance (fmt c)).
Proof. intros H H'. unfold yscanf_step. now rewrite H, H'. Qed.

Ltac tag_case b k t H :=
  let E := fresh "E" in
  destruct (Z.eqb_spec (uchar b) k) as [E|E];
  [ assert (b = t) by (apply uchar_inj; exact E); subst b;
    try (cbn in H; discriminate)
  | ].

Lemma step_unrecognized_v2 c :
  deref (fmt c) = 37 -> recognized tags (advance (fmt c)) = false ->
  yscanf_step c = Ok (Return (-1) (slots c) (io c)).
Proof.
  intros Hp H. unfold yscanf_step. rewrite Hp.
  change (isspace 37) with false. change (negb (37 =? 37)) with false. cbv iota.
  destruct (advance (fmt c)) as [|b1 f1]; [reflexivity|]. cbn [deref advance tl].
  tag_case b1 100 x64 H. tag_case b1 117 x75 H. tag_case b1 115 x73 H.
  tag_case b1 99 x63 H. tag_case b1 108 x6c H.
  - destruct f1 as [|b2 f2]; [reflexivity|]. cbn [deref advance tl].
    tag_case b2 108 x6c H.
    + destruct f2 as [|b3 f3]; [reflexivity|]. cbn [deref advance tl].
      tag_case b3 100 x64 H. tag_case b3 117 x75 H. reflexivity.
    + tag_case b2 102 x66 H. reflexivity.
  - tag_case b1 103 x67 H. tag_case b1 101 x65 H. tag_case b1 102 x66 H.
    reflexivity.
Qed.

Lemma convert_next_v2 {A} (reader : state -> result (A * state)) inj c f c1 :
  convert reader inj c f = Ok (Next c1) -> fmt c1 = advance f.
Proof.
  unfold convert. destruct (skip_if (skip_space c) (io c)); [|discriminate].
  cbn [bind]. destruct (nth_error (slots c) (ap c)) as [old|]; [|discriminate].
  destruct (reader a) as [[v st]|]; [|discriminate]. cbn [bind].
  destruct (poke (ap c) (inj v) (slots c)); [|discriminate].
  intros H. now injection H as <-.
Qed.

Lemma convert_char_next c f c1 :
  convert_char c f = Ok (Next c1) -> fmt c1 = advance f.
Proof.
  unfold convert_char. destruct (nth_error (slots c) (ap c)); [|discriminate].
  destruct (skip_if (skip_space c) (io c)); [|discriminate]. cbn [bind].
  destruct (ynext_char a) as [ch st]. destruct (ch =? EOF); [discriminate|].
  destruct (poke (ap c) (Vchar ch) (slots c)); [|discriminate].
  intros H. now injection H as <-.
Qed.

Lemma step_shrinks_v2 c c1 :
  deref (fmt c) <> 0 -> yscanf_step c = Ok (Next c1) ->
  (length (fmt c1) < length (fmt c))%nat.
Proof.
  intros Hd. assert (Hlt : (length (advance (fmt c)) < length (fmt c))%nat).
  { destruct (fmt c); [now elim Hd | cbn; lia]. }
  pose proof (advance_length (advance (fmt c))) as H1.
  pose proof (advance_length (advance (advance (fmt c)))) as H2.
  pose proof (advance_length (advance (advance (advance (fmt c))))) as H3.
  unfold yscanf_step.
  repeat match goal with
         | |- context [if ?b then _ else _] => destruct b
         end;
    try discriminate;
    try (intros H; apply convert_next_v2 in H; rewrite H; lia);
    try (intros H; apply convert_char_next in H; rewrite H; lia);
    intros H; injection H as <-; exact Hlt.
Qed.

Lemma loop_reaches_v2 c c' :
  reaches c c' -> forall fuel, (length (fmt c) <= fuel)%nat ->
  exists fuel', (length (fmt c') <= fuel')%nat /\
                yscanf_loop fuel c = yscanf_loop fuel' c'.
Proof.
  induction 1 as [c | c c1 c' Hd Hs _ IH]; intros fuel Hlen.
  - now exists fuel.
  - pose proof (step_shrinks_v2 c c1 Hd Hs) as Hlt.
    destruct fuel as [|fuel]; [lia|].
    rewrite (yscanf_loop_next_v2 fuel c c1 Hd Hs). apply IH. lia.
Qed.

(** The same in yscanf2.h. *)
Lemma unrecognized_tag_ends_call_v2 f sl st c :
  reaches (mkConfig f 0 0 false sl st) c ->
  deref (fmt c) = 37 -> recognized tags (advance (fmt c)) = false ->
  yscanf f sl st = Ok (-1, slots c, io c).
Proof.
  intros Hr Hp Hu. unfold yscanf.
  destruct (loop_reaches_v2 _ _ Hr (length f)) as [fuel' [Hlen Heq]];
    [cbn [fmt]; lia|].
  rewrite Heq. destruct fuel' as [|fuel'].
  - destruct (fmt c); [discriminate Hp | cbn in Hlen; lia].
  - apply yscanf_loop_return_v2; [rewrite Hp; discriminate|].
    now apply step_unrecognized_v2.
Qed.

(** ** The [skip_space] flag *)

(** A format without a ['%'] leaves the count, the slots and the buffer as
    they were: no byte of the input is read. *)
Lemma loop_without_conversion f : forall c fuel,
  fmt c = f -> ~ In x25 f -> (length f <= fuel)%nat ->
  yscanf_loop fuel c = Ok (cnt c, slots c, io c).
Proof.
  induction f as [|b f IH]; intros c fuel Hf Hno Hlen.
  - apply yscanf_loop_end_v2. now rewrite Hf.
  - destruct (Z.eq_dec (deref (fmt c)) 0) as [E|E];
      [now apply yscanf_loop_end_v2|].
    destruct fuel as [|fuel]; [cbn in Hlen; lia|].
    assert (Hadv : advance (fmt c) = f) by now rewrite Hf.
    assert (Hp : deref (fmt c) <> 37).
    { rewrite Hf. cbn [deref]. intros E'. apply Hno. left.
      symmetry. now apply uchar_inj. }
    destruct (isspace (deref (fmt c))) eqn:Esp.
    + rewrite (yscanf_loop_next_v2 fuel c _ E (step_whitespace_v2 c Esp)).
      rewrite (IH (mkConfig (advance (fmt c)) (ap c) (cnt c) true (slots c) (io c)));
        cbn [fmt cnt slots io]; auto.
      * intros Hin. apply Hno. now right.
      * cbn in Hlen. lia.
    + rewrite (yscanf_loop_next_v2 fuel c _ E (step_literal_v2 c Esp Hp)).
      rewrite (IH (mkConfig (advance (fmt c)) (ap c) (cnt c) false (slots c) (io c)));
        cbn [fmt cnt slots io]; auto.
      * intros Hin. apply Hno. now right.
      * cbn in Hlen. lia.
Qed.

(** [case 'c'] with the flag set: the whitespace is skipped, then the byte
    is read; with the flag clear the first byte is read as it is. *)
Lemma convert_char_spec c f x l b rest :
  nth_error (slots c) (ap c) = Some x ->
  input (io c) = l ->
  (if skip_space c then drop_while space_byte l else l) = b :: rest ->
  exists st sl,
    poke (ap c) (Vchar (uchar b)) (slots c) = Some sl /\
    convert_char c f =
    Ok (Next (mkConfig (advance f) (S (ap c)) (int32 (cnt c + 1)) false sl st)) /\
    input st = rest.
Proof.
  intros Hn Hin Hl. unfold convert_char. rewrite Hn.
  assert (Hskip : exists st1, skip_if (skip_space c) (io c) = Ok st1 /\
                              input st1 = b :: rest).
  { unfold skip_if. destruct (skip_space c).
    - destruct (yskip_space_input_spec (io c)) as [st1 [Hs Hi]].
      rewrite Hin, Hl in Hi. exists st1. split; [exact Hs|].
      apply Hi. discriminate.
    - exists (io c). split; [reflexivity|]. now rewrite Hin, Hl. }
  destruct Hskip as [st1 [Hs Hi1]]. rewrite Hs. cbn [bind].
  next st1 ch st2 Hc Hi2. rewrite Hi1 in Hc, Hi2. cbn [front tl] in Hc, Hi2.
  specialize (Hi2 ltac:(discriminate)). subst ch.
  rewrite uchar_not_EOF.
  assert (Hpk : exists sl, poke (ap c) (Vchar (uchar b)) (slots c) = Some sl).
  { clear - Hn. revert Hn. generalize (ap c). induction (slots c) as [|y t IH];
      intros [|i] Hn; cbn in *; try discriminate; eauto.
    destruct (IH i Hn) as [sl ->]. cbn. eauto. }
  destruct Hpk as [sl Hpk]. rewrite Hpk. exists st2, sl. auto.
Qed.

End V2_dispatch.

(* ------------------------------------------------------------------ *)
(** * The [skip_space] flag of yscanf2.h *)

Module V2_flag.
Import V2 V2_buffer V2_dispatch.

(** A peek that has found a byte leaves a state in which the next peek
    finds the same byte and changes nothing. *)
Lemma ypeek_char_again st :
  fst (ypeek_char st) <> EOF -> ypeek_char (snd (ypeek_char st)) = ypeek_char st.
Proof.
  unfold ypeek_char. destruct (yend st <=? yptr st)%nat eqn:E.
  - cbv zeta. destruct (yend (yrefill st) <=? yptr (yrefill st))%nat eqn:E';
      cbn [fst snd]; [intros H; now elim H|].
    intros _. now rewrite E'.
  - cbn [fst snd]. intros _. now rewrite E.
Qed.

Lemma drop_while_front p l b t : drop_while p l = b :: t -> p b = false.
Proof.
  induction l as [|a l IH]; cbn [drop_while]; [discriminate|].
  destruct (p a) eqn:E; [exact IH|]. intros H. injection H as <- _. exact E.
Qed.

(** Where a byte other than whitespace is left, [yskip_space_input] ends on
    a peek that has found it. *)
Lemma yskip_space_loop_settles fuel : forall st st',
  yskip_space_loop fuel st = Ok st' ->
  drop_while space_byte (input st) <> [] ->
  ypeek_char st' = (front (drop_while space_byte (input st)), st').
Proof.
  induction fuel as [|fuel IH]; intros st st' Hr Hne; [discriminate|].
  cbn [yskip_space_loop] in Hr.
  destruct (ypeek_char_spec st) as [Hc Hi].
  pose proof (ypeek_char_again st) as Hag.
  destruct (ypeek_char st) as [c st1]. cbn [fst snd] in Hc, Hi, Hag.
  destruct (input st) as [|b t] eqn:Ein; [now elim Hne|].
  cbn [front] in Hc. subst c. specialize (Hi ltac:(discriminate)).
  rewrite uchar_not_EOF in Hr. cbn [negb andb drop_while] in Hr, Hne |- *.
  unfold space_byte at 1 2 in Hne. unfold space_byte at 1 2.
  destruct (isspace (uchar b)) eqn:Esp.
  - destruct (ynext_char_spec st1) as [_ Hi2]. rewrite Hi in Hi2.
    specialize (Hi2 ltac:(discriminate)). cbn [tl] in Hi2.
    specialize (IH _ _ Hr). rewrite Hi2 in IH. now apply IH.
  - injection Hr as <-. cbn [front]. apply Hag.
    pose proof (uchar_not_EOF b) as Hn. apply Z.eqb_neq in Hn. exact Hn.
Qed.

(** A second [yskip_space_input] then does nothing. *)
Lemma yskip_space_input_twice st st1 :
  yskip_space_input st = Ok st1 -> drop_while space_byte (input st) <> [] ->
  yskip_space_input st1 = Ok st1.
Proof.
  intros Hs Hne. pose proof (yskip_space_loop_settles _ _ _ Hs Hne) as Hp.
  destruct (drop_while space_byte (input st)) as [|b t] eqn:El; [now elim Hne|].
  pose proof (drop_while_front _ _ _ _ El) as Hb.
  unfold yskip_space_input. cbn [yskip_space_loop]. rewrite Hp. cbn [front].
  unfold space_byte in Hb. now rewrite Hb, andb_false_r.
Qed.

Lemma yparse_int_skips : skips_first yparse_int.
Proof. intros st st1 Hs Hs1. unfold yparse_int. now rewrite Hs, Hs1. Qed.

Lemma yparse_uint_skips : skips_first yparse_uint.
Proof. intros st st1 Hs Hs1. unfold yparse_uint. now rewrite Hs, Hs1. Qed.

Lemma yread_int_skips : skips_first yread_int.
Proof.
  intros st st1 Hs Hs1. unfold yread_int. now rewrite (yparse_int_skips st st1).
Qed.

Lemma yread_ll_skips : skips_first yread_ll.
Proof.
  intros st st1 Hs Hs1. unfold yread_ll. now rewrite (yparse_int_skips st st1).
Qed.

Lemma yread_uint_skips : skips_first yread_uint.
Proof.
  intros st st1 Hs Hs1. unfold yread_uint. now rewrite (yparse_uint_skips st st1).
Qed.

Lemma yread_ull_skips : skips_first yread_ull.
Proof.
  intros st st1 Hs Hs1. unfold yread_ull. now rewrite (yparse_uint_skips st st1).
Qed.

Lemma yread_double_skips : skips_first yread_double.
Proof.
  intros st st1 Hs Hs1. unfold yread_double, yread_mantissa. now rewrite Hs, Hs1.
Qed.

Lemma yread_double_exp_skips : skips_first yread_double_exp.
Proof.
  intros st st1 Hs Hs1. unfold yread_double_exp.
  now rewrite (yread_double_skips st st1).
Qed.

Lemma yread_string_skips : skips_first yread_string.
Proof. intros st st1 Hs Hs1. unfold yread_string. now rewrite Hs, Hs1. Qed.

(** For such a reader the flag makes no difference. *)
Lemma convert_flag {A} (reader : state -> result (A * state)) inj f0 f i n sl st :
  skips_first reader -> drop_while space_byte (input st) <> [] ->
  convert reader inj (mkConfig f0 i n true sl st) f =
  convert reader inj (mkConfig f0 i n false sl st) f.
Proof.
  intros Hr Hne. unfold convert, skip_if. cbn [skip_space io slots ap cnt bind].
  destruct (yskip_space_input_spec st) as [st1 [Hs _]]. rewrite Hs. cbn [bind].
  rewrite (Hr st st1 Hs (yskip_space_input_twice st st1 Hs Hne)). reflexivity.
Qed.

Lemma step_flag tag X i n sl st :
  In tag sure_tags -> drop_while space_byte (input st) <> [] ->
  yscanf_step (mkConfig (x25 :: tag ++ X) i n true sl st) =
  yscanf_step (mkConfig (x25 :: tag ++ X) i n false sl st).
Proof.
  intros Hin Hne. cbn in Hin.
  repeat (destruct Hin as [<- | Hin]); try contradiction;
    unfold yscanf_step; cbn [fmt app deref advance tl];
    repeat match goal with
           | |- context [isspace (uchar ?b)] => change (isspace (uchar b)) with false
           | |- context [uchar ?b =? ?k] =>
               let v := eval vm_compute in (uchar b =? k) in
               change (uchar b =? k) with v
           end;
    cbn [negb orb]; cbv iota;
    apply convert_flag;
    auto using yread_int_skips, yread_uint_skips, yread_string_skips,
      yread_ll_skips, yread_ull_skips, yread_double_skips, yread_double_exp_skips.
Qed.

(** A whitespace directive before such a conversion changes nothing of the
    call. *)
Lemma space_before_conversion w tag X sl st :
  space_byte w = true ->
  In tag sure_tags -> drop_while space_byte (input st) <> [] ->
  yscanf (w :: x25 :: tag ++ X) sl st = yscanf (x25 :: tag ++ X) sl st.
Proof.
  intros Hw Hin Hne. unfold yscanf. cbn [length].
  assert (Hw0 : uchar w <> 0).
  { intros E. unfold space_byte in Hw. rewrite E in Hw. discriminate. }
  rewrite (yscanf_loop_next_v2 _ (mkConfig (w :: x25 :: tag ++ X) 0 0 false sl st)
             (mkConfig (x25 :: tag ++ X) 0 0 true sl st) Hw0)
    by (now apply step_whitespace_v2).
  rewrite !yscanf_loop_unfold_v2. cbn [fmt cnt slots io].
  now rewrite (step_flag tag X 0 0 sl st Hin Hne).
Qed.

(** A literal after a whitespace directive undoes it: the two leave the
    call where it was. *)
Lemma literal_undoes_whitespace w b f sl st :
  space_byte w = true -> literal_byte b ->
  yscanf (w :: b :: f) sl st = yscanf f sl st.
Proof.
  intros Hw [[Hb0 Hb25] Hbs]. unfold yscanf. cbn [length].
  assert (Hw0 : uchar w <> 0).
  { intros E. unfold space_byte in Hw. rewrite E in Hw. discriminate. }
  assert (Hu0 : uchar b <> 0) by (intros E; apply Hb0; now apply uchar_inj).
  assert (Hu25 : uchar b <> 37) by (intros E; apply Hb25; now apply uchar_inj).
  rewrite (yscanf_loop_next_v2 _ (mkConfig (w :: b :: f) 0 0 false sl st)
             (mkConfig (b :: f) 0 0 true sl st) Hw0)
    by (now apply step_whitespace_v2).
  rewrite (yscanf_loop_next_v2 _ (mkConfig (b :: f) 0 0 true sl st)
             (mkConfig f 0 0 false sl st) Hu0)
    by (now apply step_literal_v2).
  reflexivity.
Qed.

(** Every conversion that goes on leaves the flag clear. *)
Lemma convert_clears {A} (reader : state -> result (A * state)) inj c f c1 :
  convert reader inj c f = Ok (Next c1) -> skip_space c1 = false.
Proof.
  unfold convert. destruct (skip_if (skip_space c) (io c)); [|discriminate].
  cbn [bind]. destruct (nth_error (slots c) (ap c)) as [old|]; [|discriminate].
  destruct (reader a) as [[v st]|]; [|discriminate]. cbn [bind].
  destruct (poke (ap c) (inj v) (slots c)); [|discriminate].
  intros H. now injection H as <-.
Qed.

Lemma convert_char_clears c f c1 :
  convert_char c f = Ok (Next c1) -> skip_space c1 = false.
Proof.
  unfold convert_char. destruct (nth_error (slots c) (ap c)); [|discriminate].
  destruct (skip_if (skip_space c) (io c)); [|discriminate]. cbn [bind].
  destruct (ynext_char a) as [ch st]. destruct (ch =? EOF); [discriminate|].
  destruct (poke (ap c) (Vchar ch) (slots c)); [|discriminate].
  intros H. now injection H as <-.
Qed.

Lemma conversion_clears_flag c c1 :
  deref (fmt c) = 37 -> yscanf_step c = Ok (Next c1) -> skip_space c1 = false.
Proof.
  intros Hp. unfold yscanf_step. rewrite Hp.
  change (isspace 37) with false. change (negb (37 =? 37)) with false. cbv iota.
  repeat match goal with
         | |- context [if ?b then _ else _] => destruct b
         end;
    try discriminate;
    try (now apply convert_clears);
    now apply convert_char_clears.
Qed.

(** ["%c"] at any point of a call. *)
Lemma step_percent_c_v2 c X x b rest :
  fmt c = x25 :: x63 :: X -> nth_error (slots c) (ap c) = Some x ->
  (if skip_space c then drop_while space_byte (input (io c)) else input (io c))
  = b :: rest ->
  exists sl st,
    poke (ap c) (Vchar (uchar b)) (slots c) = Some sl /\
    yscanf_step c =
    Ok (Next (mkConfig X (S (ap c)) (int32 (cnt c + 1)) false sl st)) /\
    input st = rest.
Proof.
  intros Hf Hn Hl.
  destruct (convert_char_spec c (x63 :: X) x (input (io c)) b rest Hn eq_refl Hl)
    as (st & sl & Hpk & Hcv & Hi).
  exists sl, st. split; [exact Hpk|]. split; [|exact Hi].
  rewrite step_c by now rewrite Hf. rewrite Hf. exact Hcv.
Qed.

End V2_flag.

(* ------------------------------------------------------------------ *)
(** * Both dispatchers *)

(** C3. In both headers, when the dispatcher comes to a ['%'] whose tag is
    not one it converts, the call returns -1 at once, whatever the count of
    conversions done by then, and the slots and the input stay as they were
    at that point. *)
Theorem unrecognized_tag_is_fatal :
  (forall f sl st c,
     V3.reaches (V3.mkConfig f 0 0 sl st) c ->
     deref (V3.fmt c) = 37 ->
     recognized V3.tags (advance (V3.fmt c)) = false ->
     V3.yscanf f sl st = Ok (-1, V3.slots c, V3.io c)) /\
  (forall f sl st c,
     V2.reaches (V2.mkConfig f 0 0 false sl st) c ->
     deref (V2.fmt c) = 37 ->
     recognized V2.tags (advance (V2.fmt c)) = false ->
     V2.yscanf f sl st = Ok (-1, V2.slots c, V2.io c)).
Proof.
  split.
  - exact V3_dispatch.unrecognized_tag_ends_call.
  - exact V2_dispatch.unrecognized_tag_ends_call_v2.
Qed.

(** ["%d%zzz"] on the input ["5"]: one conversion is done, then -1. *)
Lemma unrecognized_tag_is_fatal_witness :
  V3.yscanf (bytes "%d%zzz") [Vint 0] (V3.start (file_of (bytes "5")))
  = Ok (-1, [Vint 5], V3.mkState (bytes "5") 1 1 true (mkFILE [] 2)) /\
  V2.yscanf (bytes "%d%zzz") [Vint 0] (V2.start (file_of (bytes "5")))
  = Ok (-1, [Vint 5], V2.mkState (bytes "5") 0 0 (mkFILE [] 2)).
Proof.
  split.
  - apply (proj1 unrecognized_tag_is_fatal (bytes "%d%zzz") [Vint 0]
             (V3.start (file_of (bytes "5")))
             (V3.mkConfig (bytes "%zzz") 1 1 [Vint 5]
                (V3.mkState (bytes "5") 1 1 true (mkFILE [] 2)))).
    + eapply V3.reaches_next;
        [discriminate | vm_compute; reflexivity | apply V3.reaches_here].
    + reflexivity.
    + reflexivity.
  - apply (proj2 unrecognized_tag_is_fatal (bytes "%d%zzz") [Vint 0]
             (V2.start (file_of (bytes "5")))
             (V2.mkConfig (bytes "%zzz") 1 1 false [Vint 5]
                (V2.mkState (bytes "5") 0 0 (mkFILE [] 2)))).
    + eapply V2.reaches_next;
        [discriminate | vm_compute; reflexivity | apply V2.reaches_here].
    + reflexivity.
    + reflexivity.
Defined.

(** A call with one conversion, in terms of its reader. *)
Lemma v2_single_conversion {A} (reader : V2.state -> result (A * V2.state))
    (inj : A -> val) (tag : byte) x st v st' :
  V2.yscanf_step (V2.mkConfig [x25; tag] 0 0 false [x] st)
  = V2.convert reader inj (V2.mkConfig [x25; tag] 0 0 false [x] st) [tag] ->
  uchar tag <> 0 ->
  reader st = Ok (v, st') ->
  V2.yscanf [x25; tag] [x] st = Ok (1, [inj v], st').
Proof.
  intros Hstep Htag Hr. unfold V2.yscanf. cbn [length].
  erewrite V2_dispatch.yscanf_loop_next_v2;
    [ | discriminate
      | rewrite Hstep; unfold V2.convert, V2.skip_if;
        cbn [V2.skip_space V2.io V2.ap V2.slots V2.cnt bind poke nth_error];
        rewrite Hr; reflexivity ].
  rewrite V2_dispatch.yscanf_loop_end_v2 by reflexivity. reflexivity.
Qed.

(** ["%d"] on a numeral in the range of [int], after any whitespace. *)
Lemma v2_percent_d x st sgn ds rest :
  numeral_at (drop_while space_byte (V2.input st)) sgn ds rest ->
  INT32_MIN <= sign_value sgn * decimal ds <= INT32_MAX ->
  exists st',
    V2.yscanf (bytes "%d") [x] st
    = Ok (1, [Vint (sign_value sgn * decimal ds)], st') /\
    (rest <> [] -> V2.input st' = tl rest).
Proof.
  intros Hn Hr.
  destruct (V2_readers.yread_int_in_range st sgn ds rest Hn Hr) as [st' [Hy Hi]].
  exists st'. split; [|exact Hi].
  apply (v2_single_conversion V2.yread_int Vint x64 x st _ st');
    [reflexivity | discriminate | exact Hy].
Qed.

(** ** Whitespace in the format *)

Lemma v2_space_percent_c x st ws b rest :
  V2.input st = ws ++ b :: rest ->
  Forall (fun w => space_byte w = true) ws -> space_byte b = false ->
  exists st', V2.yscanf (bytes " %c") [x] st = Ok (1, [Vchar (uchar b)], st') /\
              V2.input st' = rest.
Proof.
  intros Hin Hws Hb. unfold V2.yscanf. change (length (bytes " %c")) with 3%nat.
  erewrite V2_dispatch.yscanf_loop_next_v2;
    [ | discriminate | apply V2_dispatch.step_whitespace_v2; reflexivity ].
  cbn [V2.fmt V2.ap V2.cnt V2.slots V2.io].
  set (c1 := V2.mkConfig _ _ _ _ _ _).
  destruct (V2_dispatch.convert_char_spec c1 (advance (V2.fmt c1)) x
              (ws ++ b :: rest) b rest eq_refl Hin) as (st' & sl & Hpk & Hcv & Hi).
  { cbn [V2.skip_space c1]. rewrite (drop_while_spaces ws _ Hws).
    cbn [drop_while]. now rewrite Hb. }
  cbn in Hpk. injection Hpk as <-.
  rewrite (V2_dispatch.yscanf_loop_next_v2 1 c1 _ ltac:(discriminate)
             (eq_trans (V2_dispatch.step_c c1 eq_refl eq_refl) Hcv)).
  rewrite V2_dispatch.yscanf_loop_end_v2 by reflexivity.
  exists st'. now split.
Qed.

Lemma v2_percent_c x st b rest :
  V2.input st = b :: rest ->
  exists st', V2.yscanf (bytes "%c") [x] st = Ok (1, [Vchar (uchar b)], st') /\
              V2.input st' = rest.
Proof.
  intros Hin. unfold V2.yscanf. change (length (bytes "%c")) with 2%nat.
  set (c1 := V2.mkConfig _ _ _ _ _ _).
  destruct (V2_dispatch.convert_char_spec c1 (advance (V2.fmt c1)) x
              (b :: rest) b rest eq_refl Hin eq_refl) as (st' & sl & Hpk & Hcv & Hi).
  cbn in Hpk. injection Hpk as <-.
  rewrite (V2_dispatch.yscanf_loop_next_v2 1 c1 _ ltac:(discriminate)
             (eq_trans (V2_dispatch.step_c c1 eq_refl eq_refl) Hcv)).
  rewrite V2_dispatch.yscanf_loop_end_v2 by reflexivity.
  exists st'. now split.
Qed.

Lemma v2_space_literal_percent_c x st b rest :
  V2.input st = b :: rest ->
  exists st', V2.yscanf (bytes " ,%c") [x] st = Ok (1, [Vchar (uchar b)], st') /\
              V2.input st' = rest.
Proof.
  intros Hin. unfold V2.yscanf. change (length (bytes " ,%c")) with 4%nat.
  erewrite V2_dispatch.yscanf_loop_next_v2;
    [ | discriminate | apply V2_dispatch.step_whitespace_v2; reflexivity ].
  cbn [V2.fmt V2.ap V2.cnt V2.slots V2.io].
  erewrite V2_dispatch.yscanf_loop_next_v2;
    [ | discriminate
      | apply V2_dispatch.step_literal_v2; [reflexivity | discriminate] ].
  cbn [V2.fmt V2.ap V2.cnt V2.slots V2.io].
  set (c1 := V2.mkConfig _ _ _ _ _ _).
  destruct (V2_dispatch.convert_char_spec c1 (advance (V2.fmt c1)) x
              (b :: rest) b rest eq_refl Hin eq_refl) as (st' & sl & Hpk & Hcv & Hi).
  cbn in Hpk. injection Hpk as <-.
  rewrite (V2_dispatch.yscanf_loop_next_v2 1 c1 _ ltac:(discriminate)
             (eq_trans (V2_dispatch.step_c c1 eq_refl eq_refl) Hcv)).
  rewrite V2_dispatch.yscanf_loop_end_v2 by reflexivity.
  exists st'. now split.
Qed.

(** C6 as the code has it.  In yscanf2.h a whitespace directive sets
    [skip_space] and reads no input; a literal clears the flag, and so does
    every conversion.  What the flag decides is what ["%c"] stores: with
    the flag set the first byte that is not whitespace (as in [" %c"]),
    with the flag clear the first byte of the input (as in ["%c"] and
    [" ,%c"]).  For the other conversions the flag decides nothing, as
    their readers skip the whitespace themselves (["%d"] stores a numeral
    that follows whitespace): on an input that holds a byte other than
    whitespace their case does the same with the flag set or clear, so that
    a whitespace directive before them, at the start of a format, can be
    left out; and so can a whitespace directive with a literal after it.  A
    format without a ['%'] leaves the input alone.  In yscanf3.h there is
    no flag: a whitespace directive skips the input whitespace itself. *)
Theorem skip_space_flag :
  (forall c, isspace (deref (V2.fmt c)) = true ->
     V2.yscanf_step c =
     Ok (V2.Next (V2.mkConfig (advance (V2.fmt c)) (V2.ap c) (V2.cnt c) true
                    (V2.slots c) (V2.io c)))) /\
  (forall c, isspace (deref (V2.fmt c)) = false -> deref (V2.fmt c) <> 37 ->
     V2.yscanf_step c =
     Ok (V2.Next (V2.mkConfig (advance (V2.fmt c)) (V2.ap c) (V2.cnt c) false
                    (V2.slots c) (V2.io c)))) /\
  (forall c c',
     deref (V2.fmt c) = 37 -> V2.yscanf_step c = Ok (V2.Next c') ->
     V2.skip_space c' = false) /\
  (forall c X x b rest,
     V2.fmt c = x25 :: x63 :: X -> nth_error (V2.slots c) (V2.ap c) = Some x ->
     (if V2.skip_space c then drop_while space_byte (V2.input (V2.io c))
      else V2.input (V2.io c)) = b :: rest ->
     exists sl st,
       poke (V2.ap c) (Vchar (uchar b)) (V2.slots c) = Some sl /\
       V2.yscanf_step c =
       Ok (V2.Next (V2.mkConfig X (S (V2.ap c)) (int32 (V2.cnt c + 1)) false
                      sl st)) /\
       V2.input st = rest) /\
  (forall x st ws b rest,
     V2.input st = ws ++ b :: rest ->
     Forall (fun w => space_byte w = true) ws -> space_byte b = false ->
     exists st', V2.yscanf (bytes " %c") [x] st = Ok (1, [Vchar (uchar b)], st') /\
                 V2.input st' = rest) /\
  (forall x st b rest,
     V2.input st = b :: rest ->
     (exists st', V2.yscanf (bytes "%c") [x] st = Ok (1, [Vchar (uchar b)], st') /\
                  V2.input st' = rest) /\
     (exists st', V2.yscanf (bytes " ,%c") [x] st = Ok (1, [Vchar (uchar b)], st') /\
                  V2.input st' = rest)) /\
  (forall x st sgn ds rest,
     numeral_at (drop_while space_byte (V2.input st)) sgn ds rest ->
     INT32_MIN <= sign_value sgn * decimal ds <= INT32_MAX ->
     exists st',
       V2.yscanf (bytes "%d") [x] st
       = Ok (1, [Vint (sign_value sgn * decimal ds)], st') /\
       (rest <> [] -> V2.input st' = tl rest)) /\
  (forall tag X i n sl st,
     In tag sure_tags -> drop_while space_byte (V2.input st) <> [] ->
     V2.yscanf_step (V2.mkConfig (x25 :: tag ++ X) i n true sl st) =
     V2.yscanf_step (V2.mkConfig (x25 :: tag ++ X) i n false sl st)) /\
  (forall w tag X sl st,
     space_byte w = true ->
     In tag sure_tags -> drop_while space_byte (V2.input st) <> [] ->
     V2.yscanf (w :: x25 :: tag ++ X) sl st = V2.yscanf (x25 :: tag ++ X) sl st) /\
  (forall w b f sl st,
     space_byte w = true -> literal_byte b ->
     V2.yscanf (w :: b :: f) sl st = V2.yscanf f sl st) /\
  (forall f sl st, ~ In x25 f -> V2.yscanf f sl st = Ok (0, sl, st)) /\
  (forall c, isspace (deref (V3.fmt c)) = true ->
     exists st',
       V3.yscanf_step c =
       Ok (V3.Next (V3.mkConfig (advance (V3.fmt c)) (V3.ap c) (V3.cnt c)
                      (V3.slots c) st')) /\
       V3.input st' = drop_while space_byte (V3.input (V3.io c))).
Proof.
  split; [exact V2_dispatch.step_whitespace_v2|].
  split; [exact V2_dispatch.step_literal_v2|].
  split; [exact V2_flag.conversion_clears_flag|].
  split; [exact V2_flag.step_percent_c_v2|].
  split; [exact v2_space_percent_c|].
  split; [intros x st b rest Hin; split;
          [now apply v2_percent_c | now apply v2_space_literal_percent_c]|].
  split; [exact v2_percent_d|].
  split; [exact V2_flag.step_flag|].
  split; [exact V2_flag.space_before_conversion|].
  split; [exact V2_flag.literal_undoes_whitespace|].
  split.
  - intros f sl st Hno. unfold V2.yscanf.
    now rewrite (V2_dispatch.loop_without_conversion f).
  - intros c Hsp. destruct (V3_buffer.yskip_space_spec (V3.io c)) as [st' [Hs Hi]].
    exists st'. split; [|exact Hi].
    rewrite (V3_dispatch.step_whitespace c Hsp), Hs. reflexivity.
Qed.

(** In yscanf2.h: the format [" "] on the input [" x"]; [" %c"] on
    ["  x"]; and on ["  5 "], [" %d"], which does what ["%d"] does, and
    [" ,%d"], which stores the 5. *)
Lemma skip_space_flag_witness :
  V2.yscanf (bytes " ") [] (V2.start (file_of (bytes " x")))
  = Ok (0, [], V2.start (file_of (bytes " x"))) /\
  (exists st', V2.yscanf (bytes " %c") [Vundef] (V2.start (file_of (bytes "  x")))
               = Ok (1, [Vchar 120], st') /\ V2.input st' = []) /\
  V2.yscanf (bytes " %d") [Vundef] (V2.start (file_of (bytes "  5 ")))
  = V2.yscanf (bytes "%d") [Vundef] (V2.start (file_of (bytes "  5 "))) /\
  (exists st', V2.yscanf (bytes " ,%d") [Vundef] (V2.start (file_of (bytes "  5 ")))
               = Ok (1, [Vint 5], st') /\ V2.input st' = []).
Proof.
  destruct skip_space_flag
    as (_ & _ & _ & _ & Hc & _ & Hn & _ & Hd & Hl & Hnone & _).
  split; [|split; [|split]].
  - apply Hnone. cbn. intros [H|[]]. discriminate H.
  - apply (Hc Vundef (V2.start (file_of (bytes "  x"))) (bytes "  ") x78 []).
    + reflexivity.
    + repeat constructor.
    + reflexivity.
  - apply (Hd x20 [x64] [] [Vundef] (V2.start (file_of (bytes "  5 ")))).
    + reflexivity.
    + now left.
    + discriminate.
  - change (bytes " ,%d") with (x20 :: x2c :: bytes "%d").
    rewrite Hl; [|reflexivity|repeat split; discriminate].
    destruct (Hn Vundef (V2.start (file_of (bytes "  5 "))) [] (bytes "5") (bytes " "))
      as [st' [Hr Hi]].
    + repeat split; auto. * discriminate. * repeat constructor.
    + vm_compute. split; discriminate.
    + exists st'. split; [exact Hr|]. apply Hi. discriminate.
Defined.

(** Where C6 fails.  In yscanf3.h the format [" "], a whitespace directive
    that no conversion follows, takes the blank off the input [" x"].  In
    yscanf2.h the format [" ,%c"] stores the blank of the input [" x"]: the
    literal has cleared the flag, and the skip is not done at the
    conversion. *)
Lemma whitespace_skip_not_deferred :
  V3.input (V3.start (file_of (bytes " x"))) = bytes " x" /\
  (exists st',
     V3.yscanf (bytes " ") [] (V3.start (file_of (bytes " x"))) = Ok (0, [], st') /\
     V3.input st' = bytes "x") /\
  (exists st',
     V2.yscanf (bytes " ,%c") [Vundef] (V2.start (file_of (bytes " x")))
     = Ok (1, [Vchar 32], st') /\
     V2.input st' = bytes "x").
Proof.
  split; [reflexivity|].
  split; eexists; split; vm_compute; reflexivity.
Qed.

(** ** Saturation in yscanf2.h *)

(** C5 as the code has it, for the 32-bit readers of yscanf2.h.  On a
    numeral (optional sign, digits, then a byte that is no digit) whose
    value is above [INT32_MAX], [yread_int] yields [INT32_MAX], or
    [INT32_MIN] after a ['-'], and ["%d"] counts the conversion; above
    [UINT32_MAX], [yread_uint] yields [UINT32_MAX] and ["%u"] counts the
    conversion; the digits and the byte after them are consumed.  The
    overflow flag is not what signals this: on every numeral below 2^63
    [yparse_int] returns the value with the flag clear, and so does
    [yparse_uint] on every numeral below 2^64. *)
Theorem saturation st sgn ds rest x :
  numeral_at (drop_while space_byte (V2.input st)) sgn ds rest ->
  let sat := if sign_value sgn =? 1 then INT32_MAX else INT32_MIN in
  (INT32_MAX < decimal ds ->
   (exists st', V2.yread_int st = Ok (sat, st') /\
                (rest <> [] -> V2.input st' = tl rest)) /\
   (exists st', V2.yscanf (bytes "%d") [x] st = Ok (1, [Vint sat], st') /\
                (rest <> [] -> V2.input st' = tl rest))) /\
  (sgn = [] -> UINT32_MAX < decimal ds ->
   (exists st', V2.yread_uint st = Ok (UINT32_MAX, st') /\
                (rest <> [] -> V2.input st' = tl rest)) /\
   (exists st', V2.yscanf (bytes "%u") [x] st = Ok (1, [Vuint UINT32_MAX], st') /\
                (rest <> [] -> V2.input st' = tl rest))) /\
  (decimal ds < 2 ^ 63 ->
   exists st', V2.yparse_int st = Ok (sign_value sgn * decimal ds, 0, st') /\
               (rest <> [] -> V2.input st' = tl rest)) /\
  (sgn = [] -> decimal ds < 2 ^ 64 ->
   exists st', V2.yparse_uint st = Ok (decimal ds, 0, st') /\
               (rest <> [] -> V2.input st' = tl rest)).
Proof.
  intros Hn sat. split; [|split; [|split]].
  - intros Hbig.
    destruct (V2_readers.yread_int_saturates st sgn ds rest Hn Hbig) as [st' [Hr Hi]].
    split; exists st'; (split; [|exact Hi]); [exact Hr|].
    apply (v2_single_conversion V2.yread_int Vint x64 x st sat st');
      [reflexivity | discriminate | exact Hr].
  - intros -> Hbig.
    destruct (V2_readers.yread_uint_saturates st ds rest Hn Hbig) as [st' [Hr Hi]].
    split; exists st'; (split; [|exact Hi]); [exact Hr|].
    apply (v2_single_conversion V2.yread_uint Vuint x75 x st UINT32_MAX st');
      [reflexivity | discriminate | exact Hr].
  - intros Hfit. now apply V2_readers.yparse_int_flag_clear.
  - intros -> Hfit. now apply V2_readers.yparse_uint_exact.
Qed.

(** ["-3000000000"] followed by a blank. *)
Lemma saturation_witness :
  exists st',
    V2.yscanf (bytes "%d") [Vundef] (V2.start (file_of (bytes "-3000000000 ")))
    = Ok (1, [Vint INT32_MIN], st') /\
    V2.input st' = [].
Proof.
  assert (Hn : numeral_at
                 (drop_while space_byte
                    (V2.input (V2.start (file_of (bytes "-3000000000 ")))))
                 [x2d] (bytes "3000000000") (bytes " ")).
  { repeat split; auto. - discriminate. - repeat constructor. }
  destruct (saturation _ _ _ _ Vundef Hn) as ((_ & st' & Hr & Hi) & _);
    [reflexivity|].
  exists st'. split; [exact Hr|]. apply Hi. discriminate.
Defined.

(** Where C5 fails.  The flag of [yparse_int] is clear on ["3000000000"],
    which [yread_int] turns into [INT32_MAX].  And the test [next < x] does
    not see every overflow of the 64-bit accumulator: on
    ["25000000000000000000"], above [ULLONG_MAX], the flag is clear and
    [yread_ull] and [yread_ll] return a wrapped value. *)
Lemma overflow_flag_not_set :
  V2.yparse_int (V2.start (file_of (bytes "3000000000")))
  = Ok (3000000000, 0, V2.mkState (bytes "3000000000") 0 0 (mkFILE [] 2)) /\
  V2.yread_int (V2.start (file_of (bytes "3000000000")))
  = Ok (INT32_MAX, V2.mkState (bytes "3000000000") 0 0 (mkFILE [] 2)) /\
  ULLONG_MAX < decimal (bytes "25000000000000000000") /\
  V2.yparse_uint (V2.start (file_of (bytes "25000000000000000000")))
  = Ok (6553255926290448384, 0,
        V2.mkState (bytes "25000000000000000000") 0 0 (mkFILE [] 2)) /\
  V2.yread_ull (V2.start (file_of (bytes "25000000000000000000")))
  = Ok (6553255926290448384,
        V2.mkState (bytes "25000000000000000000") 0 0 (mkFILE [] 2)) /\
  V2.yread_ll (V2.start (file_of (bytes "25000000000000000000")))
  = Ok (6553255926290448384,
        V2.mkState (bytes "25000000000000000000") 0 0 (mkFILE [] 2)).
Proof. repeat split; vm_compute; reflexivity. Qed.

(** ** The line readers of yscanf3.h *)

(** C7 as the code has it.  [ygetline_ok] reports no token on an empty
    input only; otherwise it stores the bytes before the first terminator,
    leading whitespace included, cut to [maxlen - 1] bytes, and consumes the
    whole line with its terminator (['\n'], or ['\r'] with the ['\n'] that
    may follow), however long the line is.  [yread_line_ok] does the same
    once it has consumed the ['\n'] and ['\r'] bytes at the front of the
    input, so it reports no token also when only such bytes are left. *)
Theorem line_readers s maxlen st :
  (exists st',
     V3.ygetline_ok s maxlen st =
     Ok (match V3.input st with
         | [] => (0, s)
         | _ => (1, truncate maxlen (take_while line_byte (V3.input st)))
         end, st') /\
     V3.input st' = after_terminator (drop_while line_byte (V3.input st))) /\
  (let l := drop_while (fun b => negb (line_byte b)) (V3.input st) in
   exists st',
     V3.yread_line_ok s maxlen st =
     Ok (match l with
         | [] => (0, s)
         | _ => (1, truncate maxlen (take_while line_byte l))
         end, st') /\
     V3.input st' = after_terminator (drop_while line_byte l)) /\
  (forall line, Z.of_nat (length (truncate maxlen line)) <= Z.max 0 (maxlen - 1)).
Proof.
  split; [apply V3_lines.ygetline_ok_spec|].
  split; [apply V3_lines.yread_line_ok_spec|].
  intros line. unfold truncate. rewrite length_map, length_firstn. lia.
Qed.

(** Where C7 fails.  On an input that is just a newline, [yread_line_ok]
    reads the newline and reports no token, where [ygetline_ok] returns an
    empty line; [yread_line_ok] skips the newline and the carriage return
    before ["ab"]; and the terminator is consumed with the line: after
    [ygetline_ok] on the input "a", newline, "b", the input is ["b"]. *)
Lemma yread_line_ok_skips_terminators :
  V3.input (V3.start (file_of [x0a])) = [x0a] /\
  (exists st', V3.yread_line_ok [] 8 (V3.start (file_of [x0a])) = Ok (0, [], st') /\
               V3.input st' = []) /\
  (exists st', V3.ygetline_ok [] 8 (V3.start (file_of [x0a])) = Ok (1, [], st')) /\
  (exists st', V3.yread_line_ok [] 8 (V3.start (file_of (x0a :: x0d :: bytes "ab")))
               = Ok (1, [97; 98], st')) /\
  (exists st', V3.ygetline_ok [] 8 (V3.start (file_of [x61; x0a; x62]))
               = Ok (1, [97], st') /\ V3.input st' = bytes "b").
Proof.
  repeat split; eexists; repeat split; vm_compute; reflexivity.
Qed.

(** ** The end of the stream *)

Lemma v2_empty_buffer_reads st :
  (V2.yend st <= V2.yptr st)%nat ->
  freads (V2.stdin (snd (V2.ynext_char st))) = S (freads (V2.stdin st)) /\
  freads (V2.stdin (snd (V2.ypeek_char st))) = S (freads (V2.stdin st)).
Proof.
  intros H. pose proof (fread_freads YSCANF_BUFFER_SIZE (V2.stdin st)) as Hn.
  unfold V2.ynext_char, V2.ypeek_char.
  destruct (Nat.leb_spec (V2.yend st) (V2.yptr st)); [|lia].
  unfold V2.yrefill. destruct (fread YSCANF_BUFFER_SIZE (V2.stdin st)) as [got f].
  cbn [snd] in Hn. cbn [V2.yend V2.yptr V2.ybuf V2.stdin].
  destruct (length got <=? 0)%nat; cbn [snd V2.stdin]; auto.
Qed.

(** C4 as the code has it.  In yscanf3.h, when a call of [yget] or [ypeek]
    refills and the stream reports zero bytes, the call returns [EOF] with
    [yeof] set, and every call of [yget] or [ypeek] after it returns [EOF],
    leaves [yeof] set and does not call [fread].  yscanf2.h has no such
    flag: [ynext_char] and [ypeek_char] call [yrefill], and with it the
    stream, every time they find the buffer empty. *)
Theorem end_of_stream :
  (forall st o os,
     V3.zero_refill st ->
     let st1 := snd (V3.run_call o st) in
     fst (V3.run_call o st) = EOF /\ V3.yeof st1 = true /\
     Forall (fun c => c = EOF) (fst (V3.run_calls os st1)) /\
     length (fst (V3.run_calls os st1)) = length os /\
     V3.yeof (snd (V3.run_calls os st1)) = true /\
     freads (V3.stdin (snd (V3.run_calls os st1))) = freads (V3.stdin st1)) /\
  (forall st,
     (V2.yend st <= V2.yptr st)%nat ->
     freads (V2.stdin (snd (V2.ynext_char st))) = S (freads (V2.stdin st)) /\
     freads (V2.stdin (snd (V2.ypeek_char st))) = S (freads (V2.stdin st))).
Proof.
  split.
  - exact V3_buffer.zero_refill_latches.
  - exact v2_empty_buffer_reads.
Qed.

(** A stream that reports zero bytes once and would deliver an ['x'] at the
    next read: in yscanf3.h the ['x'] is never asked for. *)
Lemma end_of_stream_witness :
  V3.zero_refill (V3.start (mkFILE [[]; bytes "x"] 0)) /\
  Forall (fun c => c = EOF)
    (fst (V3.run_calls [V3.Get; V3.Peek; V3.Get]
            (snd (V3.run_call V3.Peek (V3.start (mkFILE [[]; bytes "x"] 0)))))) /\
  freads (V3.stdin (snd (V3.run_calls [V3.Get; V3.Peek; V3.Get]
            (snd (V3.run_call V3.Peek (V3.start (mkFILE [[]; bytes "x"] 0)))))))
  = 1%nat /\
  freads (V2.stdin (snd (V2.ynext_char (V2.mkState [] 0 0 (mkFILE [] 1)))))
  = 2%nat.
Proof.
  assert (Hz : V3.zero_refill (V3.start (mkFILE [[]; bytes "x"] 0))).
  { repeat split. cbn. lia. }
  split; [exact Hz|].
  destruct end_of_stream as [H3 H2].
  destruct (H3 (V3.start (mkFILE [[]; bytes "x"] 0)) V3.Peek
              [V3.Get; V3.Peek; V3.Get] Hz) as (_ & _ & Hall & _ & _ & Hn).
  split; [exact Hall|]. split; [rewrite Hn; reflexivity|].
  apply (H2 (V2.mkState [] 0 0 (mkFILE [] 1))). cbn. lia.
Defined.

(** Where C4 fails.  In yscanf2.h, after the stream has reported zero
    bytes, [ynext_char] calls [fread] again: on a stream at its end it
    returns [EOF] once more with one more read counted, and on a stream that
    delivers an ['x'] after the read of zero bytes it returns the ['x']. *)
Lemma v2_reads_again :
  V2.ynext_char (V2.start (file_of []))
  = (EOF, V2.mkState [] 0 0 (mkFILE [] 1)) /\
  V2.ynext_char (V2.mkState [] 0 0 (mkFILE [] 1))
  = (EOF, V2.mkState [] 0 0 (mkFILE [] 2)) /\
  V2.ynext_char (V2.start (mkFILE [[]; bytes "x"] 0))
  = (EOF, V2.mkState [] 0 0 (mkFILE [bytes "x"] 1)) /\
  V2.ynext_char (V2.mkState [] 0 0 (mkFILE [bytes "x"] 1))
  = (120, V2.mkState (bytes "x") 1 1 (mkFILE [] 2)).
Proof. repeat split; vm_compute; reflexivity. Qed.

(** What yscanf3.h was written to correct: the numeric conversions of
    yscanf2.h cannot fail, so its ["%d"] on an empty stream stores
    [INT32_MIN] and returns 1. *)
Lemma v2_counts_at_end :
  V2.yscanf (bytes "%d") [Vint 5] (V2.start (file_of []))
  = Ok (1, [Vint INT32_MIN], V2.mkState [] 0 0 (mkFILE [] 2)).
Proof. vm_compute. reflexivity. Qed.

(* ------------------------------------------------------------------ *)
(** * The fuel is enough

    No call of [yscanf], in either header, ends for want of fuel: the loops
    of the readers are given the number of bytes left, and the loop of the
    dispatcher the length of the format. *)

Module V3_total.
Import V3 V3_buffer V3_readers V3_dispatch.

Lemma ystr_loop_returns fuel : forall s st,
  (length (input st) < fuel)%nat -> exists r, ystr_loop fuel s st = Ok r.
Proof.
  induction fuel as [|fuel IH]; intros s st Hf; [lia|].
  cbn [ystr_loop]. peek st c st1 Hc Hi.
  destruct (input st) as [|b t]; cbn [front] in Hc; subst c; [cbn; eauto|].
  destruct (negb (uchar b =? EOF) && negb (isspace (uchar b))); [|eauto].
  get st1 d st2 Hd Hi2. apply IH. rewrite Hi2, Hi.
  cbn [tl length] in *. lia.
Qed.

Lemma yread_int_ok_returns : returns yread_int_ok.
Proof. intros out st. destruct (yread_int_ok_spec out st) as [st' [H _]]. eauto. Qed.

Lemma yread_ll_ok_returns : returns yread_ll_ok.
Proof. intros out st. destruct (yread_ll_ok_spec out st) as [st' [H _]]. eauto. Qed.

Lemma yread_uint_ok_returns : returns yread_uint_ok.
Proof. intros out st. destruct (yread_uint_ok_spec out st) as [st' [H _]]. eauto. Qed.

Lemma yread_ull_ok_returns : returns yread_ull_ok.
Proof. intros out st. destruct (yread_ull_ok_spec out st) as [st' [H _]]. eauto. Qed.

Lemma yread_str_ok_returns : returns yread_str_ok.
Proof.
  intros out st. unfold yread_str_ok.
  destruct (yskip_space_spec st) as [st1 [Hs _]]. rewrite Hs. cbn [bind].
  destruct (ypeek st1) as [c st2]. destruct (c =? EOF); [eauto|].
  destruct (ystr_loop_returns (S (avail st2)) [] st2) as [[s st3] Hr].
  { pose proof (input_le_avail st2). lia. }
  rewrite Hr. cbn [bind]. eauto.
Qed.

Lemma yread_char_returns : returns yread_char.
Proof.
  intros out st. unfold yread_char. destruct (yget st) as [c st1].
  destruct (c =? EOF); eauto.
Qed.

Lemma yread_double_ok_returns : returns yread_double_ok.
Proof.
  intros out st. unfold yread_double_ok.
  destruct (yskip_space_spec st) as [st1 [Hs _]]. rewrite Hs. cbn [bind].
  destruct (ypeek st1) as [c st2]. destruct (c =? EOF); [eauto|].
  destruct (if (c =? 43) || (c =? 45)
            then ((if c =? 45 then -1 else 1), snd (yget st2))
            else (1, st2)) as [sign st3].
  destruct (ypeek st3) as [c1 st4].
  destruct (((c1 <? 48) || (c1 >? 57)) && negb (c1 =? 46)); [eauto|].
  destruct (ydigits_spec (fun ds d => ds ++ [d]) [] st4) as [st5 [Hx _]].
  rewrite Hx. cbn [bind]. destruct (ypeek st5) as [c2 st6].
  assert (Hfrac : exists r,
             (if c2 =? 46 then ydigits (fun ds d => ds ++ [d]) [] (snd (yget st6))
              else Ok ([], st6)) = Ok r).
  { destruct (c2 =? 46); [|eauto].
    destruct (ydigits_spec (fun ds d => ds ++ [d]) [] (snd (yget st6)))
      as [st7 [Hf _]]. eauto. }
  destruct Hfrac as [[frac st7] Hf]. rewrite Hf. cbn [bind].
  destruct (ypeek st7) as [c3 st8].
  destruct ((c3 =? 101) || (c3 =? 69)); [|cbn [bind]; eauto].
  destruct (ypeek (snd (yget st8))) as [c4 st9].
  destruct (if (c4 =? 43) || (c4 =? 45)
            then ((if c4 =? 45 then -1 else 1), snd (yget st9))
            else (1, st9)) as [es st10].
  destruct (ydigits_spec (fun ep d => int32 (ep * 10 + d)) 0 st10) as [st11 [He _]].
  rewrite He. cbn [bind]. eauto.
Qed.

Lemma convert_fuel reader c f :
  returns reader -> convert reader c f <> Err OutOfFuel.
Proof.
  intros Hr. unfold convert.
  destruct (nth_error (slots c) (ap c)) as [out|]; [|discriminate].
  destruct (Hr out (io c)) as [[[ok out'] st] ->]. cbn [bind].
  destruct (poke (ap c) out' (slots c)); [|discriminate].
  destruct (ok =? 0); discriminate.
Qed.

Lemma yscanf_step_fuel c : yscanf_step c <> Err OutOfFuel.
Proof.
  unfold yscanf_step.
  repeat match goal with
         | |- context [if ?b then _ else _] => destruct b
         end;
    try discriminate;
    try (apply convert_fuel;
         auto using yread_int_ok_returns, yread_uint_ok_returns,
           yread_ll_ok_returns, yread_ull_ok_returns, yread_double_ok_returns,
           yread_str_ok_returns, yread_char_returns).
  destruct (yskip_space_spec (io c)) as [st [-> _]]. discriminate.
Qed.

Lemma yscanf_loop_fuel fuel : forall c,
  (length (fmt c) <= fuel)%nat -> yscanf_loop fuel c <> Err OutOfFuel.
Proof.
  induction fuel as [|fuel IH]; intros c Hlen.
  - destruct (fmt c) eqn:E; [|cbn in Hlen; lia].
    rewrite yscanf_loop_end by now rewrite E. discriminate.
  - rewrite yscanf_loop_unfold. destruct (Z.eqb_spec (deref (fmt c)) 0) as [E|E];
      [discriminate|].
    pose proof (yscanf_step_fuel c) as Hs.
    destruct (yscanf_step c) as [[c'|r sl st]|e] eqn:Es; cbn [bind].
    + apply IH. pose proof (step_shrinks c c' E Es). lia.
    + discriminate.
    + intros H. apply Hs. injection H as ->. reflexivity.
Qed.

(** [yscanf] of yscanf3.h returns, or finds an argument missing. *)
Theorem yscanf_has_fuel f sl st : yscanf f sl st <> Err OutOfFuel.
Proof. apply yscanf_loop_fuel. cbn [fmt]. lia. Qed.

End V3_total.

Module V2_total.
Import V2 V2_buffer V2_readers V2_dispatch.

Lemma yconsume_loop_returns fuel : forall st,
  (length (input st) < fuel)%nat -> exists r, yconsume_loop fuel st = Ok r.
Proof.
  intros st Hf. destruct (yconsume_loop_spec fuel st Hf) as [st' [H _]]. eauto.
Qed.

Lemma yparse_loop_returns wrap fuel : forall x c st,
  (length (input st) + 1 < fuel)%nat ->
  exists r, yparse_loop wrap fuel x c st = Ok r.
Proof.
  induction fuel as [|fuel IH]; intros x c st Hf; [lia|].
  cbn [yparse_loop]. destruct (is_digit c); [|eauto].
  destruct (wrap (x * 10 + (c - 48)) <? x).
  - destruct (yconsume_loop_returns (S (avail st)) st) as [st' Hr].
    { pose proof (input_le_avail_v2 st). lia. }
    rewrite Hr. cbn [bind]. eauto.
  - next st c' st' Hc Hi. destruct (input st) as [|b t] eqn:Ein.
    + cbn [front] in Hc. subst c'. destruct fuel as [|fuel]; [cbn in Hf; lia|].
      cbn. eauto.
    + apply IH. rewrite (Hi ltac:(discriminate)). cbn [tl length] in *. lia.
Qed.

Lemma ydigits_loop_returns {A} (step : A -> Z -> A) fuel : forall acc c st,
  (length (input st) + 1 < fuel)%nat ->
  exists r, ydigits_loop step fuel acc c st = Ok r.
Proof.
  induction fuel as [|fuel IH]; intros acc c st Hf; [lia|].
  cbn [ydigits_loop]. destruct (is_digit c); [|eauto].
  next st c' st' Hc Hi. destruct (input st) as [|b t] eqn:Ein.
  - cbn [front] in Hc. subst c'. destruct fuel as [|fuel]; [cbn in Hf; lia|].
    cbn. eauto.
  - apply IH. rewrite (Hi ltac:(discriminate)). cbn [tl length] in *. lia.
Qed.

Lemma ystring_loop_returns fuel : forall s st,
  (length (input st) < fuel)%nat -> exists r, ystring_loop fuel s st = Ok r.
Proof.
  induction fuel as [|fuel IH]; intros s st Hf; [lia|].
  cbn [ystring_loop]. next st c st' Hc Hi.
  destruct (input st) as [|b t]; cbn [front] in Hc; subst c; [cbn; eauto|].
  destruct (negb (uchar b =? EOF) && negb (isspace (uchar b))); [|eauto].
  apply IH. rewrite (Hi ltac:(discriminate)). cbn [tl length] in *. lia.
Qed.

Lemma enough st : (length (input st) + 1 < S (S (avail st)))%nat.
Proof. pose proof (input_le_avail_v2 st). lia. Qed.

Lemma yparse_int_returns st : exists r, yparse_int st = Ok r.
Proof.
  unfold yparse_int. destruct (yskip_space_input_spec st) as [st1 [-> _]].
  cbn [bind]. destruct (ynext_char st1) as [c st2].
  destruct (if c =? 45 then let (c, st) := ynext_char st2 in (-1, c, st)
            else if c =? 43 then let (c, st) := ynext_char st2 in (1, c, st)
            else (1, c, st2)) as [[sg c'] st3].
  destruct ((c' <? 48) || (c' >? 57)); [eauto|].
  destruct (yparse_loop_returns int64 _ 0 c' st3 (enough st3)) as [[[x o] st4] ->].
  cbn [bind]. eauto.
Qed.

Lemma yparse_uint_returns st : exists r, yparse_uint st = Ok r.
Proof.
  unfold yparse_uint. destruct (yskip_space_input_spec st) as [st1 [-> _]].
  cbn [bind]. destruct (ynext_char st1) as [c st2].
  destruct ((c <? 48) || (c >? 57)); [eauto|].
  destruct (yparse_loop_returns uint64 _ 0 c st2 (enough st2)) as [[[x o] st3] ->].
  cbn [bind]. eauto.
Qed.

Lemma yread_int_returns st : exists r, yread_int st = Ok r.
Proof.
  unfold yread_int. destruct (yparse_int_returns st) as [[[v o] st'] ->].
  cbn [bind]. destruct (negb (o =? 0) || (v >? INT32_MAX) || (v <? INT32_MIN)); eauto.
Qed.

Lemma yread_ll_returns st : exists r, yread_ll st = Ok r.
Proof.
  unfold yread_ll. destruct (yparse_int_returns st) as [[[v o] st'] ->].
  cbn [bind]. destruct (negb (o =? 0)); eauto.
Qed.

Lemma yread_uint_returns st : exists r, yread_uint st = Ok r.
Proof.
  unfold yread_uint. destruct (yparse_uint_returns st) as [[[v o] st'] ->].
  cbn [bind]. destruct (negb (o =? 0) || (v >? UINT32_MAX)); eauto.
Qed.

Lemma yread_ull_returns st : exists r, yread_ull st = Ok r.
Proof.
  unfold yread_ull. destruct (yparse_uint_returns st) as [[[v o] st'] ->].
  cbn [bind]. destruct (negb (o =? 0)); eauto.
Qed.

Lemma yread_double_returns st : exists r, yread_double st = Ok r.
Proof.
  unfold yread_double, yread_mantissa.
  destruct (yskip_space_input_spec st) as [st1 [-> _]].
  cbn [bind]. destruct (ynext_char st1) as [c st2].
  destruct (if c =? 45 then let (c, st) := ynext_char st2 in (-1, c, st)
            else if c =? 43 then let (c, st) := ynext_char st2 in (1, c, st)
            else (1, c, st2)) as [[sg c'] st3].
  destruct (ydigits_loop_returns (fun ds d => ds ++ [d]) _ [] c' st3 (enough st3))
    as [[[x c1] st4] ->].
  cbn [bind]. destruct (c1 =? 46); cbn [bind]; [|eauto].
  destruct (ynext_char st4) as [c2 st5].
  destruct (ydigits_loop_returns (fun ds d => ds ++ [d]) _ [] c2 st5 (enough st5))
    as [[[fr c3] st6] ->].
  cbn [bind]. eauto.
Qed.

Lemma yread_double_exp_returns st : exists r, yread_double_exp st = Ok r.
Proof.
  unfold yread_double_exp. destruct (yread_double_returns st) as [[x st1] ->].
  cbn [bind]. destruct (ypeek_char st1) as [c st2].
  destruct ((c =? 101) || (c =? 69)); [|eauto].
  destruct (ynext_char (snd (ynext_char st2))) as [c1 st3].
  destruct (if c1 =? 45 then let (c, st) := ynext_char st3 in (-1, c, st)
            else if c1 =? 43 then let (c, st) := ynext_char st3 in (1, c, st)
            else (1, c1, st3)) as [[es c2] st4].
  destruct (ydigits_loop_returns (fun e d => int32 (e * 10 + d)) _ 0 c2 st4
              (enough st4)) as [[[e c3] st5] ->].
  cbn [bind]. eauto.
Qed.

Lemma yread_string_returns st : exists r, yread_string st = Ok r.
Proof.
  unfold yread_string. destruct (yskip_space_input_spec st) as [st1 [-> _]].
  cbn [bind]. apply ystring_loop_returns. pose proof (input_le_avail_v2 st1). lia.
Qed.

Lemma skip_if_returns b st : exists st', skip_if b st = Ok st'.
Proof.
  destruct b; cbn [skip_if]; [|eauto].
  destruct (yskip_space_input_spec st) as [st' [-> _]]. eauto.
Qed.

Lemma convert_fuel_v2 {A} (reader : state -> result (A * state)) inj c f :
  (forall st, exists r, reader st = Ok r) ->
  convert reader inj c f <> Err OutOfFuel.
Proof.
  intros Hr. unfold convert.
  destruct (skip_if_returns (skip_space c) (io c)) as [st ->]. cbn [bind].
  destruct (nth_error (slots c) (ap c)) as [old|]; [|discriminate].
  destruct (Hr st) as [[v st'] ->]. cbn [bind].
  destruct (poke (ap c) (inj v) (slots c)); discriminate.
Qed.

Lemma convert_char_fuel c f : convert_char c f <> Err OutOfFuel.
Proof.
  unfold convert_char. destruct (nth_error (slots c) (ap c)); [|discriminate].
  destruct (skip_if_returns (skip_space c) (io c)) as [st ->]. cbn [bind].
  destruct (ynext_char st) as [ch st']. destruct (ch =? EOF); [discriminate|].
  destruct (poke (ap c) (Vchar ch) (slots c)); discriminate.
Qed.

Lemma yscanf_step_fuel_v2 c : yscanf_step c <> Err OutOfFuel.
Proof.
  unfold yscanf_step.
  repeat match goal with
         | |- context [if ?b then _ else _] => destruct b
         end;
    try discriminate;
    try apply convert_char_fuel;
    apply convert_fuel_v2;
    auto using yread_int_returns, yread_uint_returns, yread_ll_returns,
      yread_ull_returns, yread_double_returns, yread_double_exp_returns,
      yread_string_returns.
Qed.

Lemma yscanf_loop_fuel_v2 fuel : forall c,
  (length (fmt c) <= fuel)%nat -> yscanf_loop fuel c <> Err OutOfFuel.
Proof.
  induction fuel as [|fuel IH]; intros c Hlen.
  - destruct (fmt c) eqn:E; [|cbn in Hlen; lia].
    rewrite yscanf_loop_end_v2 by now rewrite E. discriminate.
  - rewrite yscanf_loop_unfold_v2.
    destruct (Z.eqb_spec (deref (fmt c)) 0) as [E|E]; [discriminate|].
    pose proof (yscanf_step_fuel_v2 c) as Hs.
    destruct (yscanf_step c) as [[c'|r sl st]|e] eqn:Es; cbn [bind].
    + apply IH. pose proof (step_shrinks_v2 c c' E Es). lia.
    + discriminate.
    + intros H. apply Hs. injection H as ->. reflexivity.
Qed.

(** [yscanf] of yscanf2.h returns, or finds an argument missing. *)
Theorem yscanf_has_fuel_v2 f sl st : yscanf f sl st <> Err OutOfFuel.
Proof. apply yscanf_loop_fuel_v2. cbn [fmt]. lia. Qed.

End V2_total.

(* ------------------------------------------------------------------ *)
(** * What every function of yscanf3.h keeps *)

Module V3_keeps.
Import V3 V3_buffer.

Lemma split_at_length n : forall l,
  (N.of_nat (length (fst (split_at n l))) <= n)%N.
Proof.
  induction n as [|n IH] using N.peano_ind; intros [|b t]; cbn [split_at];
    try (cbn; lia).
  rewrite (proj2 (N.eqb_neq (N.succ n) 0)) by lia. rewrite N.pred_succ.
  specialize (IH t). destruct (split_at n t) as [a r]. cbn [fst length] in *. lia.
Qed.

Lemma fread_length cap f : (N.of_nat (length (fst (fread cap f))) <= cap)%N.
Proof.
  unfold fread. destruct (chunks f) as [|ch rest]; [cbn; lia|].
  pose proof (split_at_length cap ch). destruct (split_at cap ch). exact H.
Qed.

Lemma reads_trans a b c : reads a b -> reads b c -> reads a c.
Proof.
  induction 1; intros H'; [exact H' | apply reads_get | apply reads_peek]; auto.
Qed.

Lemma reads_get1 st : reads st (snd (yget st)).
Proof. apply reads_get, reads_none. Qed.

Lemma reads_peek1 st : reads st (snd (ypeek st)).
Proof. apply reads_peek, reads_none. Qed.

(** Naming the result of a call together with the fact that it is one. *)
Ltac rpeek st c st1 H :=
  pose proof (reads_peek1 st) as H;
  destruct (ypeek st) as [c st1]; cbn [snd] in H.

Ltac rget st c st1 H :=
  pose proof (reads_get1 st) as H;
  destruct (yget st) as [c st1]; cbn [snd] in H.

Ltac chain :=
  match goal with
  | |- reads ?a ?a => apply reads_none
  | |- reads ?a (snd (yget ?a)) => apply reads_get1
  | |- reads ?a (snd (ypeek ?a)) => apply reads_peek1
  | H : reads ?a ?b |- reads ?a ?b => exact H
  | H : reads ?a ?b |- reads ?a ?c => apply (reads_trans a b c H); chain
  | H : reads (snd (yget ?a)) ?b |- reads ?a ?c => apply reads_get; chain
  | H : reads (snd (ypeek ?a)) ?b |- reads ?a ?c => apply reads_peek; chain
  end.

Lemma yskip_space_loop_reads fuel : forall st st',
  yskip_space_loop fuel st = Ok st' -> reads st st'.
Proof.
  induction fuel as [|fuel IH]; intros st st' H; [discriminate|].
  cbn [yskip_space_loop] in H. rpeek st c st1 H1.
  destruct (negb (c =? EOF) && isspace c).
  - apply IH in H. chain.
  - injection H as <-. chain.
Qed.

Lemma yskip_space_reads st st' : yskip_space st = Ok st' -> reads st st'.
Proof. apply yskip_space_loop_reads. Qed.

Lemma ydigits_loop_reads {A} (step : A -> Z -> A) fuel : forall acc st r st',
  ydigits_loop step fuel acc st = Ok (r, st') -> reads st st'.
Proof.
  induction fuel as [|fuel IH]; intros acc st r st' H; [discriminate|].
  cbn [ydigits_loop] in H. rpeek st c st1 H1.
  destruct (is_digit c).
  - rget st1 d st2 H2. apply IH in H. chain.
  - injection H as _ <-. chain.
Qed.

Lemma ydigits_reads {A} (step : A -> Z -> A) acc st r st' :
  ydigits step acc st = Ok (r, st') -> reads st st'.
Proof. apply ydigits_loop_reads. Qed.

Lemma ystr_loop_reads fuel : forall s st r st',
  ystr_loop fuel s st = Ok (r, st') -> reads st st'.
Proof.
  induction fuel as [|fuel IH]; intros s st r st' H; [discriminate|].
  cbn [ystr_loop] in H. rpeek st c st1 H1.
  destruct (negb (c =? EOF) && negb (isspace c)).
  - rget st1 d st2 H2. apply IH in H. chain.
  - injection H as _ <-. chain.
Qed.

Lemma yline_loop_reads maxlen fuel : forall c s st c' s' st',
  yline_loop fuel maxlen c s st = Ok (c', s', st') -> reads st st'.
Proof.
  induction fuel as [|fuel IH]; intros c s st c' s' st' H; [discriminate|].
  cbn [yline_loop] in H.
  destruct (negb (c =? EOF) && negb (c =? 10) && negb (c =? 13)).
  - rget st d st1 H1. apply IH in H. chain.
  - injection H as _ _ <-. chain.
Qed.

Lemma yline_rest_reads maxlen c st r s st' :
  yline_rest maxlen c st = Ok (r, s, st') -> reads st st'.
Proof.
  unfold yline_rest. intros H.
  destruct (yline_loop (S (S (avail st))) maxlen c [] st) as [[[c1 s1] st1]|] eqn:E;
    [|discriminate].
  apply yline_loop_reads in E. cbn [bind] in H.
  destruct (c1 =? 13).
  - rpeek st1 c2 st2 H2. destruct (c2 =? 10); injection H as _ _ <-; chain.
  - injection H as _ _ <-. chain.
Qed.

Lemma yread_line_loop_reads maxlen fuel : forall s st r s' st',
  yread_line_loop fuel s maxlen st = Ok (r, s', st') -> reads st st'.
Proof.
  induction fuel as [|fuel IH]; intros s st r s' st' H; [discriminate|].
  cbn [yread_line_loop] in H. rget st c st1 H1.
  destruct (c =? EOF); [injection H as _ _ <-; chain|].
  destruct ((c =? 10) || (c =? 13)).
  - apply IH in H. chain.
  - apply yline_rest_reads in H. chain.
Qed.

Lemma yread_line_ok_reads s maxlen st r s' st' :
  yread_line_ok s maxlen st = Ok (r, s', st') -> reads st st'.
Proof. apply yread_line_loop_reads. Qed.

Lemma ygetline_ok_reads s maxlen st r s' st' :
  ygetline_ok s maxlen st = Ok (r, s', st') -> reads st st'.
Proof.
  unfold ygetline_ok. intros H. rget st c st1 H1.
  destruct (c =? EOF); [injection H as _ _ <-; chain|].
  apply yline_rest_reads in H. chain.
Qed.

Ltac done_reader H :=
  injection H as <- <- <-; split; [chain | auto].

Lemma yread_int_ok_keeps : reader_keeps yread_int_ok.
Proof.
  intros out st ok out' st' H. unfold yread_int_ok in H.
  destruct (yskip_space st) as [st1|] eqn:E1; [|discriminate]. cbn [bind] in H.
  apply yskip_space_reads in E1. rpeek st1 c st2 H2.
  destruct (c =? EOF); [done_reader H|].
  destruct ((c =? 43) || (c =? 45)).
  - rpeek (snd (yget st2)) c1 st4 H4.
    destruct ((c1 <? 48) || (c1 >? 57)); [done_reader H|].
    destruct (ydigits _ 0 st4) as [[x st5]|] eqn:E5; [|discriminate].
    apply ydigits_reads in E5. cbn [bind] in H. done_reader H.
  - rpeek st2 c1 st4 H4.
    destruct ((c1 <? 48) || (c1 >? 57)); [done_reader H|].
    destruct (ydigits _ 0 st4) as [[x st5]|] eqn:E5; [|discriminate].
    apply ydigits_reads in E5. cbn [bind] in H. done_reader H.
Qed.

Lemma yread_ll_ok_keeps : reader_keeps yread_ll_ok.
Proof.
  intros out st ok out' st' H. unfold yread_ll_ok in H.
  destruct (yskip_space st) as [st1|] eqn:E1; [|discriminate]. cbn [bind] in H.
  apply yskip_space_reads in E1. rpeek st1 c st2 H2.
  destruct (c =? EOF); [done_reader H|].
  destruct ((c =? 43) || (c =? 45)).
  - rpeek (snd (yget st2)) c1 st4 H4.
    destruct ((c1 <? 48) || (c1 >? 57)); [done_reader H|].
    destruct (ydigits _ 0 st4) as [[x st5]|] eqn:E5; [|discriminate].
    apply ydigits_reads in E5. cbn [bind] in H. done_reader H.
  - rpeek st2 c1 st4 H4.
    destruct ((c1 <? 48) || (c1 >? 57)); [done_reader H|].
    destruct (ydigits _ 0 st4) as [[x st5]|] eqn:E5; [|discriminate].
    apply ydigits_reads in E5. cbn [bind] in H. done_reader H.
Qed.

Lemma yread_uint_ok_keeps : reader_keeps yread_uint_ok.
Proof.
  intros out st ok out' st' H. unfold yread_uint_ok in H.
  destruct (yskip_space st) as [st1|] eqn:E1; [|discriminate]. cbn [bind] in H.
  apply yskip_space_reads in E1. rpeek st1 c st2 H2.
  destruct ((c =? EOF) || (c <? 48) || (c >? 57)); [done_reader H|].
  destruct (ydigits _ 0 st2) as [[x st5]|] eqn:E5; [|discriminate].
  apply ydigits_reads in E5. cbn [bind] in H. done_reader H.
Qed.

Lemma yread_ull_ok_keeps : reader_keeps yread_ull_ok.
Proof.
  intros out st ok out' st' H. unfold yread_ull_ok in H.
  destruct (yskip_space st) as [st1|] eqn:E1; [|discriminate]. cbn [bind] in H.
  apply yskip_space_reads in E1. rpeek st1 c st2 H2.
  destruct ((c =? EOF) || (c <? 48) || (c >? 57)); [done_reader H|].
  destruct (ydigits _ 0 st2) as [[x st5]|] eqn:E5; [|discriminate].
  apply ydigits_reads in E5. cbn [bind] in H. done_reader H.
Qed.

Lemma yread_str_ok_keeps : reader_keeps yread_str_ok.
Proof.
  intros out st ok out' st' H. unfold yread_str_ok in H.
  destruct (yskip_space st) as [st1|] eqn:E1; [|discriminate]. cbn [bind] in H.
  apply yskip_space_reads in E1. rpeek st1 c st2 H2.
  destruct (c =? EOF); [done_reader H|].
  destruct (ystr_loop _ [] st2) as [[s st3]|] eqn:E3; [|discriminate].
  apply ystr_loop_reads in E3. cbn [bind] in H. done_reader H.
Qed.

Lemma yread_char_keeps : reader_keeps yread_char.
Proof.
  intros out st ok out' st' H. unfold yread_char in H. rget st c st1 H1.
  destruct (c =? EOF); done_reader H.
Qed.

Lemma yread_double_ok_keeps : reader_keeps yread_double_ok.
Proof.
  intros out st ok out' st' H. unfold yread_double_ok in H.
  destruct (yskip_space st) as [st1|] eqn:E1; [|discriminate]. cbn [bind] in H.
  apply yskip_space_reads in E1. rpeek st1 c st2 H2.
  destruct (c =? EOF); [done_reader H|].
  assert (Hs : reads st2 (snd (if (c =? 43) || (c =? 45)
                               then ((if c =? 45 then -1 else 1), snd (yget st2))
                               else (1, st2)))).
  { destruct ((c =? 43) || (c =? 45)); cbn [snd]; chain. }
  destruct (if (c =? 43) || (c =? 45)
            then ((if c =? 45 then -1 else 1), snd (yget st2))
            else (1, st2)) as [sign st3]. cbn [snd] in Hs.
  rpeek st3 c1 st4 H4.
  destruct (((c1 <? 48) || (c1 >? 57)) && negb (c1 =? 46)); [done_reader H|].
  destruct (ydigits _ [] st4) as [[x st5]|] eqn:E5; [|discriminate].
  apply ydigits_reads in E5. cbn [bind] in H. rpeek st5 c2 st6 H6.
  assert (Hf : forall r st7,
             (if c2 =? 46 then ydigits (fun ds d => ds ++ [d]) [] (snd (yget st6))
              else Ok ([], st6)) = Ok (r, st7) -> reads st6 st7).
  { intros r st7 E. destruct (c2 =? 46).
    - apply ydigits_reads in E. chain.
    - injection E as _ <-. chain. }
  destruct (if c2 =? 46 then _ else _) as [[frac st7]|]; [|discriminate].
  specialize (Hf _ _ eq_refl). cbn [bind] in H. rpeek st7 c3 st8 H8.
  destruct ((c3 =? 101) || (c3 =? 69)); [|cbn [bind] in H; done_reader H].
  rpeek (snd (yget st8)) c4 st9 H9.
  assert (He : reads st9 (snd (if (c4 =? 43) || (c4 =? 45)
                               then ((if c4 =? 45 then -1 else 1), snd (yget st9))
                               else (1, st9)))).
  { destruct ((c4 =? 43) || (c4 =? 45)); cbn [snd]; chain. }
  destruct (if (c4 =? 43) || (c4 =? 45)
            then ((if c4 =? 45 then -1 else 1), snd (yget st9))
            else (1, st9)) as [es st10]. cbn [snd] in He.
  destruct (ydigits _ 0 st10) as [[ep st11]|] eqn:E11; [|discriminate].
  apply ydigits_reads in E11. cbn [bind] in H. done_reader H.
Qed.

End V3_keeps.

(* ------------------------------------------------------------------ *)
(** * The calls of yscanf3.h: the buffer, and the slots *)

Module V3_calls.
Import V3 V3_buffer V3_dispatch V3_keeps.

(** ** What [yget] and [ypeek] keep *)

Lemma in_bounds_refill st got e f k :
  in_bounds st -> (N.of_nat (length got) <= YSCANF_BUFFER_SIZE)%N ->
  (k <= length got)%nat ->
  in_bounds (mkState (got ++ skipn (length got) (ybuf st)) k (length got) e f).
Proof.
  intros (H1 & H2 & H3) Hg Hk. unfold in_bounds. cbn [yptr yend ybuf].
  rewrite length_app, length_skipn. repeat split; lia.
Qed.

Lemma in_bounds_yget st : in_bounds st -> in_bounds (snd (yget st)).
Proof.
  intros H. unfold yget. destruct (Nat.leb_spec (yend st) (yptr st)) as [Hp|Hp].
  - destruct (yeof st); [exact H|].
    pose proof (fread_length YSCANF_BUFFER_SIZE (stdin st)) as Hl.
    destruct (fread YSCANF_BUFFER_SIZE (stdin st)) as [got f]. cbn [fst] in Hl.
    destruct (Nat.eqb_spec (length got) 0) as [E|E]; cbn [snd].
    + exact H.
    + apply in_bounds_refill; auto. lia.
  - cbn [snd]. destruct H as (H1 & H2 & H3). unfold in_bounds.
    cbn [yptr yend ybuf]. repeat split; auto.
Qed.

Lemma in_bounds_ypeek st : in_bounds st -> in_bounds (snd (ypeek st)).
Proof.
  intros H. unfold ypeek. destruct (Nat.leb_spec (yend st) (yptr st)) as [Hp|Hp].
  - destruct (yeof st); [exact H|].
    pose proof (fread_length YSCANF_BUFFER_SIZE (stdin st)) as Hl.
    destruct (fread YSCANF_BUFFER_SIZE (stdin st)) as [got f]. cbn [fst] in Hl.
    destruct (Nat.eqb_spec (length got) 0) as [E|E]; cbn [snd].
    + exact H.
    + apply in_bounds_refill; auto. lia.
  - exact H.
Qed.

Lemma reads_in_bounds st st' : reads st st' -> in_bounds st -> in_bounds st'.
Proof.
  induction 1; auto using in_bounds_yget, in_bounds_ypeek.
Qed.

Lemma reads_input st st' :
  reads st st' -> exists n, input st' = skipn n (input st).
Proof.
  induction 1 as [st | st st' _ [n IH] | st st' _ [n IH]].
  - now exists 0%nat.
  - destruct (yget_spec st) as [_ Hi]. rewrite Hi in IH.
    exists (S n). rewrite IH. now destruct (input st); [rewrite !skipn_nil|].
  - destruct (ypeek_spec st) as [_ Hi]. rewrite Hi in IH. now exists n.
Qed.

(** The count of reads of the stream only grows, and the flag stays set. *)
Lemma yget_freads st :
  (freads (stdin st) <= freads (stdin (snd (yget st))))%nat /\
  (yeof st = true -> yeof (snd (yget st)) = true).
Proof.
  unfold yget. destruct (yend st <=? yptr st)%nat; [|cbn; auto].
  destruct (yeof st) eqn:E; [cbn; auto|].
  pose proof (fread_freads YSCANF_BUFFER_SIZE (stdin st)) as Hn.
  destruct (fread YSCANF_BUFFER_SIZE (stdin st)) as [got f]. cbn [snd] in Hn.
  destruct (length got =? 0)%nat; cbn [snd stdin yeof]; split; auto; lia.
Qed.

Lemma ypeek_freads st :
  (freads (stdin st) <= freads (stdin (snd (ypeek st))))%nat /\
  (yeof st = true -> yeof (snd (ypeek st)) = true).
Proof.
  unfold ypeek. destruct (yend st <=? yptr st)%nat; [|cbn; auto].
  destruct (yeof st) eqn:E; [cbn; auto|].
  pose proof (fread_freads YSCANF_BUFFER_SIZE (stdin st)) as Hn.
  destruct (fread YSCANF_BUFFER_SIZE (stdin st)) as [got f]. cbn [snd] in Hn.
  destruct (length got =? 0)%nat; cbn [snd stdin yeof]; split; auto; lia.
Qed.

(** ** The dispatcher touches the buffer through its readers *)

Lemma poke_length i v : forall sl sl',
  poke i v sl = Some sl' -> length sl' = length sl /\ (i < length sl)%nat.
Proof.
  induction i as [|i IH]; intros [|x t] sl' H; cbn [poke] in H; try discriminate.
  - injection H as <-. cbn. lia.
  - destruct (poke i v t) as [t'|] eqn:E; [|discriminate].
    injection H as <-. destruct (IH t t' E). cbn. lia.
Qed.

Lemma poke_skipn i v : forall sl sl' k,
  poke i v sl = Some sl' -> (i < k)%nat -> skipn k sl' = skipn k sl.
Proof.
  induction i as [|i IH]; intros [|x t] sl' k H Hk; cbn [poke] in H;
    try discriminate; (destruct k as [|k]; [lia|]).
  - now injection H as <-.
  - destruct (poke i v t) as [t'|] eqn:E; [|discriminate].
    injection H as <-. cbn [skipn]. apply (IH t t' k E). lia.
Qed.

(** What a conversion can do: return early, the slots as they were, or store
    and go on. *)
Lemma convert_cases reader c f s :
  reader_keeps reader -> convert reader c f = Ok s ->
  (exists st, s = Return (if cnt c =? 0 then EOF else cnt c) (slots c) st /\
              reads (io c) st) \/
  (exists out' sl st,
     s = Next (mkConfig (advance f) (S (ap c)) (int32 (cnt c + 1)) sl st) /\
     poke (ap c) out' (slots c) = Some sl /\ reads (io c) st).
Proof.
  intros Hk H. unfold convert in H.
  destruct (nth_error (slots c) (ap c)) as [out|] eqn:En; [|discriminate].
  destruct (reader out (io c)) as [[[ok out'] st]|] eqn:Er; [|discriminate].
  cbn [bind] in H. destruct (Hk _ _ _ _ _ Er) as [Hr [[-> ->] | ->]].
  - rewrite (poke_same _ _ _ En) in H. cbn in H. injection H as <-.
    left. now exists st.
  - destruct (poke (ap c) out' (slots c)) as [sl|] eqn:Ep; [|discriminate].
    cbn in H. injection H as <-. right. now exists out', sl, st.
Qed.

(** The outcomes of one iteration of the loop of [yscanf]. *)
Lemma yscanf_step_cases c s :
  yscanf_step c = Ok s ->
  (exists st, s = Next (mkConfig (advance (fmt c)) (ap c) (cnt c) (slots c) st) /\
              reads (io c) st) \/
  s = Return (-1) (slots c) (io c) \/
  (exists st, s = Return (if cnt c =? 0 then EOF else cnt c) (slots c) st /\
              reads (io c) st) \/
  (exists f out' sl st,
     s = Next (mkConfig f (S (ap c)) (int32 (cnt c + 1)) sl st) /\
     poke (ap c) out' (slots c) = Some sl /\ reads (io c) st).
Proof.
  unfold yscanf_step. intros H.
  assert (Hconv : forall reader f,
            reader_keeps reader -> convert reader c f = Ok s ->
            (exists st, s = Return (if cnt c =? 0 then EOF else cnt c) (slots c) st /\
                        reads (io c) st) \/
            (exists f out' sl st,
               s = Next (mkConfig f (S (ap c)) (int32 (cnt c + 1)) sl st) /\
               poke (ap c) out' (slots c) = Some sl /\ reads (io c) st)).
  { intros reader f Hk Hc.
    destruct (convert_cases reader c f s Hk Hc) as [Hr | (out' & sl & st & E & Hp & Hr)];
      [now left | right; now exists (advance f), out', sl, st]. }
  repeat match type of H with
         | (if ?b then _ else _) = _ => destruct b
         end;
    try (injection H as <-; right; left; reflexivity);
    try (right; right;
         eapply Hconv in H;
         [ exact H
         | auto using yread_int_ok_keeps, yread_uint_ok_keeps, yread_ll_ok_keeps,
             yread_ull_ok_keeps, yread_double_ok_keeps, yread_str_ok_keeps,
             yread_char_keeps ]).
  - destruct (yskip_space (io c)) as [st|] eqn:E; [|discriminate].
    apply yskip_space_reads in E. injection H as <-. left. now exists st.
  - injection H as <-. left. exists (io c). split; [reflexivity | apply reads_none].
Qed.

Lemma yscanf_step_reads c s :
  yscanf_step c = Ok s ->
  match s with
  | Next c' => reads (io c) (io c')
  | Return _ _ st => reads (io c) st
  end.
Proof.
  intros H. destruct (yscanf_step_cases c s H)
    as [(st & -> & Hr) | [-> | [(st & -> & Hr) | (f & o & sl & st & -> & _ & Hr)]]];
    cbn [io]; auto using reads_none.
Qed.

Lemma yscanf_loop_reads fuel : forall c r sl st,
  yscanf_loop fuel c = Ok (r, sl, st) -> reads (io c) st.
Proof.
  induction fuel as [|fuel IH]; intros c r sl st H.
  - cbn [yscanf_loop] in H. destruct (deref (fmt c) =? 0); [|discriminate].
    injection H as _ _ <-. apply reads_none.
  - rewrite yscanf_loop_unfold in H. destruct (deref (fmt c) =? 0).
    + injection H as _ _ <-. apply reads_none.
    + destruct (yscanf_step c) as [s|] eqn:Es; [|discriminate]. cbn [bind] in H.
      apply yscanf_step_reads in Es. destruct s as [c'|r' sl' st'].
      * apply IH in H. eapply reads_trans; eauto.
      * injection H as _ _ <-. exact Es.
Qed.

Lemma yscanf_reads f sl st r sl' st' :
  yscanf f sl st = Ok (r, sl', st') -> reads st st'.
Proof. intros H. apply yscanf_loop_reads in H. exact H. Qed.

(** ** The slots *)

Lemma yscanf_loop_slots fuel : forall c r sl' st',
  yscanf_loop fuel c = Ok (r, sl', st') ->
  cnt c = Z.of_nat (ap c) -> (ap c <= length (slots c))%nat ->
  Z.of_nat (ap c) + Z.of_nat (length (fmt c)) < 2 ^ 31 ->
  (r = -1 \/ 0 <= r) /\ length sl' = length (slots c) /\
  (0 <= r ->
   (ap c <= Z.to_nat r <= length sl')%nat /\
   skipn (Z.to_nat r) sl' = skipn (Z.to_nat r) (slots c)).
Proof.
  induction fuel as [|fuel IH]; intros c r sl' st' H Hc Ha Hb.
  - cbn [yscanf_loop] in H. destruct (deref (fmt c) =? 0); [|discriminate].
    injection H as <- <- _. rewrite Hc, Nat2Z.id. repeat split; auto; lia.
  - rewrite yscanf_loop_unfold in H.
    destruct (Z.eqb_spec (deref (fmt c)) 0) as [E0|E0].
    { injection H as <- <- _. rewrite Hc, Nat2Z.id. repeat split; auto; lia. }
    destruct (yscanf_step c) as [s|] eqn:Es; [|discriminate]. cbn [bind] in H.
    pose proof (step_shrinks c) as Hsh.
    destruct (yscanf_step_cases c s Es)
      as [(st & -> & _) | [-> | [(st & -> & _) | (f & o & sl & st & -> & Hp & _)]]].
    + specialize (Hsh _ E0 Es). cbn [fmt] in Hsh.
      apply IH in H; cbn [cnt ap slots fmt] in *; auto; lia.
    + injection H as <- <- _. repeat split; auto; lia.
    + injection H as <- <- _. rewrite Hc.
      destruct (Z.eqb_spec (Z.of_nat (ap c)) 0) as [E|E].
      * unfold EOF. repeat split; auto; lia.
      * rewrite Nat2Z.id. repeat split; auto; lia.
    + specialize (Hsh _ E0 Es). cbn [fmt] in Hsh.
      destruct (poke_length _ _ _ _ Hp) as [Hl Hi].
      assert (Hw : int32 (cnt c + 1) = Z.of_nat (S (ap c))).
      { rewrite Hc, int32_small; lia. }
      apply IH in H; cbn [cnt ap slots fmt] in *; auto; try lia.
      destruct H as (Hr & Hlen & Hk). rewrite Hl in Hlen.
      repeat split; auto; try (apply Hk in H; lia).
      destruct (Hk H) as [Hk1 Hk2]. rewrite Hk2.
      apply (poke_skipn _ _ _ _ _ Hp). lia.
Qed.

End V3_calls.

(* ------------------------------------------------------------------ *)
(** * The buffer of yscanf3.h as its callers see it *)

Module V3_more.
Import V3 V3_buffer V3_readers V3_dispatch V3_keeps V3_calls.

(** ** The buffer *)

Lemma input_start f : input (start f) = upcoming (chunks f).
Proof. reflexivity. Qed.

Lemma gets_spec : forall l st k,
  input st = l ->
  fst (run_calls (repeat Get (length l + k)) st) = map uchar l ++ repeat EOF k /\
  input (snd (run_calls (repeat Get (length l + k)) st)) = [].
Proof.
  induction l as [|b t IH]; intros st k Hin.
  - cbn [length Nat.add map app]. revert st Hin.
    induction k as [|k IHk]; intros st Hin; cbn [repeat run_calls run_call];
      [now split|].
    get st c st1 Hc Hi. rewrite Hin in Hc, Hi. cbn [front tl] in Hc, Hi. subst c.
    destruct (IHk st1 Hi) as [H1 H2].
    destruct (run_calls (repeat Get k) st1) as [cs st2]. cbn [fst snd] in *.
    now rewrite H1.
  - cbn [length Nat.add repeat run_calls run_call map app].
    get st c st1 Hc Hi. rewrite Hin in Hc, Hi. cbn [front tl] in Hc, Hi. subst c.
    destruct (IH st1 k Hi) as [H1 H2].
    destruct (run_calls (repeat Get (length t + k)) st1) as [cs st2].
    cbn [fst snd] in *. now rewrite H1.
Qed.

(** X1. [yget] hands over the bytes of the input in their order, each
    once, and [EOF] from then on; at program start the input is what the
    stream delivers before it first reports zero bytes, however the stream
    cuts it into reads. *)
Theorem yget_delivers_the_stream_in_order :
  (forall st k,
     fst (run_calls (repeat Get (length (input st) + k)) st)
     = map uchar (input st) ++ repeat EOF k) /\
  (forall f, input (start f) = upcoming (chunks f)).
Proof.
  split.
  - intros st k. apply (gets_spec (input st) st k eq_refl).
  - exact input_start.
Qed.

(** A byte returned is a byte of the array, at the index just passed. *)
Lemma yget_reads_the_array st :
  in_bounds st -> fst (yget st) <> EOF ->
  exists b,
    nth_error (ybuf (snd (yget st))) (yptr (snd (yget st)) - 1) = Some b /\
    fst (yget st) = uchar b.
Proof.
  intros (H1 & H2 & H3) Hne. unfold yget in *.
  destruct (Nat.leb_spec (yend st) (yptr st)) as [Hp|Hp].
  - destruct (yeof st); [now elim Hne|].
    destruct (fread YSCANF_BUFFER_SIZE (stdin st)) as [got f].
    destruct got as [|b t]; [now elim Hne|].
    cbn [length Nat.eqb fst snd ybuf yptr app nth Nat.sub nth_error]. now exists b.
  - cbn [fst snd ybuf yptr]. replace (S (yptr st) - 1)%nat with (yptr st) by lia.
    destruct (nth_error (ybuf st) (yptr st)) as [b|] eqn:E.
    + exists b. split; [reflexivity|]. now rewrite (nth_error_nth _ _ _ E).
    + apply nth_error_None in E. lia.
Qed.

(** X2. The indices of the buffer stay in bounds: they are at program
    start, [yget], [ypeek], [yscanf] and the line readers keep them so, and
    a byte that [yget] returns has been read from the array at an index
    below [yend]. *)
Theorem buffer_stays_in_bounds :
  (forall f, in_bounds (start f)) /\
  (forall st, in_bounds st ->
     in_bounds (snd (yget st)) /\ in_bounds (snd (ypeek st)) /\
     (fst (yget st) <> EOF ->
      exists b,
        nth_error (ybuf (snd (yget st))) (yptr (snd (yget st)) - 1) = Some b /\
        fst (yget st) = uchar b)) /\
  (forall f sl st r sl' st',
     in_bounds st -> yscanf f sl st = Ok (r, sl', st') -> in_bounds st') /\
  (forall s maxlen st r s' st',
     in_bounds st ->
     (ygetline_ok s maxlen st = Ok (r, s', st') -> in_bounds st') /\
     (yread_line_ok s maxlen st = Ok (r, s', st') -> in_bounds st')).
Proof.
  split; [|split; [|split]].
  - intros f. unfold in_bounds, start. cbn. repeat split; lia.
  - intros st H. split; [now apply in_bounds_yget|].
    split; [now apply in_bounds_ypeek | now apply yget_reads_the_array].
  - intros f sl st r sl' st' H E. apply yscanf_reads in E.
    now apply (reads_in_bounds st st').
  - intros s maxlen st r s' st' H. split; intros E.
    + apply ygetline_ok_reads in E. now apply (reads_in_bounds st st').
    + apply yread_line_ok_reads in E. now apply (reads_in_bounds st st').
Qed.

Lemma buffer_stays_in_bounds_witness :
  in_bounds (snd (yget (start (file_of (bytes "ab"))))) /\
  in_bounds (mkState (bytes "12") 2 2 true (mkFILE [] 2)).
Proof.
  destruct buffer_stays_in_bounds as (Hs & Hg & Hy & _).
  split.
  - apply (Hg (start (file_of (bytes "ab")))), Hs.
  - apply (Hy (bytes "%d") [Vundef] (start (file_of (bytes "12"))) 1 [Vint 12]
              (mkState (bytes "12") 2 2 true (mkFILE [] 2))).
    + apply Hs.
    + vm_compute. reflexivity.
Defined.

(** X3. What a call leaves of the input is a tail of what it found: the
    bytes are consumed from the front, none is put back, changed or
    invented. *)
Theorem input_is_consumed_from_the_front :
  (forall f sl st r sl' st',
     yscanf f sl st = Ok (r, sl', st') ->
     exists n, input st' = skipn n (input st)) /\
  (forall s maxlen st r s' st',
     ygetline_ok s maxlen st = Ok (r, s', st') ->
     exists n, input st' = skipn n (input st)) /\
  (forall s maxlen st r s' st',
     yread_line_ok s maxlen st = Ok (r, s', st') ->
     exists n, input st' = skipn n (input st)).
Proof.
  split; [|split].
  - intros f sl st r sl' st' E. apply yscanf_reads in E. now apply reads_input.
  - intros s maxlen st r s' st' E. apply ygetline_ok_reads in E.
    now apply reads_input.
  - intros s maxlen st r s' st' E. apply yread_line_ok_reads in E.
    now apply reads_input.
Qed.

Lemma input_is_consumed_from_the_front_witness :
  exists n,
    input (mkState (bytes "12 b") 2 4 false (mkFILE [] 1))
    = skipn n (input (start (file_of (bytes "12 b")))).
Proof.
  destruct input_is_consumed_from_the_front as (Hy & _).
  apply (Hy (bytes "%d") [Vundef] (start (file_of (bytes "12 b"))) 1 [Vint 12]
            (mkState (bytes "12 b") 2 4 false (mkFILE [] 1))).
  vm_compute. reflexivity.
Defined.


Lemma reads_latched st st' :
  reads st st' -> yeof st = true -> (yend st <= yptr st)%nat -> st' = st.
Proof.
  induction 1 as [st | st st' _ IH | st st' _ IH]; intros He Hp; [reflexivity| |].
  - pose proof (latched_call Get st He Hp) as E. cbn [run_call] in E.
    rewrite E in IH. now apply IH.
  - pose proof (latched_call Peek st He Hp) as E. cbn [run_call] in E.
    rewrite E in IH. now apply IH.
Qed.

(** X4. Once [yeof] is set and the buffer is used up, no call changes the
    state any more: [yscanf] and the line readers return without a read of
    the stream, whatever the stream would deliver. *)
Theorem no_read_after_the_end st :
  yeof st = true -> (yend st <= yptr st)%nat ->
  (forall f sl r sl' st', yscanf f sl st = Ok (r, sl', st') -> st' = st) /\
  (forall s maxlen r s' st',
     ygetline_ok s maxlen st = Ok (r, s', st') -> r = 0 /\ s' = s /\ st' = st) /\
  (forall s maxlen r s' st',
     yread_line_ok s maxlen st = Ok (r, s', st') -> r = 0 /\ s' = s /\ st' = st).
Proof.
  intros He Hp.
  pose proof (latched_call Get st He Hp) as Eg. cbn [run_call] in Eg.
  split; [|split].
  - intros f sl r sl' st' E. apply yscanf_reads in E.
    now apply (reads_latched st st').
  - intros s maxlen r s' st'. unfold ygetline_ok. rewrite Eg. cbn.
    intros E. now injection E as <- <- <-.
  - intros s maxlen r s' st'. unfold yread_line_ok.
    change (S (avail st)) with (S (avail st)). cbn [yread_line_loop].
    rewrite Eg. cbn. intros E. now injection E as <- <- <-.
Qed.

(** A stream that has reported zero bytes and would deliver a ['7'] now. *)
Lemma no_read_after_the_end_witness :
  exists st',
    yscanf (bytes "%d") [Vint 1] (mkState [] 0 0 true (mkFILE [bytes "7"] 1))
    = Ok (EOF, [Vint 1], st') /\
    st' = mkState [] 0 0 true (mkFILE [bytes "7"] 1).
Proof.
  exists (mkState [] 0 0 true (mkFILE [bytes "7"] 1)).
  split; [vm_compute; reflexivity|].
  apply (proj1 (no_read_after_the_end (mkState [] 0 0 true (mkFILE [bytes "7"] 1))
                  eq_refl (Nat.le_refl 0))
           (bytes "%d") [Vint 1] EOF [Vint 1]).
  vm_compute. reflexivity.
Defined.

(** ** The slots *)

(** X5. The value returned by [yscanf] is -1 or a count, and a call that
    returns a count [r] has left alone every slot from the [r]-th on: it
    stores through the first [r] pointers only.  (The format is shorter
    than 2^31 bytes, so that [cnt] does not overflow.) *)
Theorem slots_beyond_the_count_are_untouched f sl st r sl' st' :
  yscanf f sl st = Ok (r, sl', st') -> Z.of_nat (length f) < 2 ^ 31 ->
  (r = -1 \/ 0 <= r) /\ length sl' = length sl /\
  (0 <= r ->
   (Z.to_nat r <= length sl)%nat /\
   skipn (Z.to_nat r) sl' = skipn (Z.to_nat r) sl).
Proof.
  intros E Hlen. unfold yscanf in E.
  apply yscanf_loop_slots in E; cbn [cnt ap slots fmt]; try lia.
  destruct E as (Hr & Hl & Hk). cbn [slots ap] in Hl, Hk.
  split; [exact Hr|]. split; [exact Hl|].
  intros H. destruct (Hk H) as [Hk1 Hk2]. split; [lia | exact Hk2].
Qed.

Lemma slots_beyond_the_count_are_untouched_witness :
  skipn (Z.to_nat 1) [Vint 42; Vint 6] = skipn (Z.to_nat 1) [Vint 5; Vint 6].
Proof.
  apply (slots_beyond_the_count_are_untouched (bytes "%d %d") [Vint 5; Vint 6]
           (start (file_of (bytes "42"))) 1 [Vint 42; Vint 6]
           (mkState (bytes "42") 2 2 true (mkFILE [] 2))).
  - vm_compute. reflexivity.
  - vm_compute. reflexivity.
  - lia.
Defined.

End V3_more.

(* ------------------------------------------------------------------ *)
(** * What the readers of yscanf3.h store *)

Module V3_values.
Import V3 V3_buffer V3_readers V3_dispatch.

(** ** The integer readers on a numeral *)

Lemma accumulate_uint64_from ds : forall acc,
  fold_left (fun x d => uint64 (x * 10 + d)) (map (fun b => uchar b - 48) ds)
            (acc mod 2 ^ 64)
  = fold_left (fun x b => x * 10 + (uchar b - 48)) ds acc mod 2 ^ 64.
Proof.
  induction ds as [|d ds IH]; intros acc; cbn [fold_left map]; [reflexivity|].
  rewrite <- IH. f_equal. unfold uint64, wrap_unsigned.
  rewrite <- Zplus_mod_idemp_l, Zmult_mod_idemp_l, Zplus_mod_idemp_l. reflexivity.
Qed.

Lemma accumulate_uint64 ds : accumulate uint64 ds = decimal ds mod 2 ^ 64.
Proof. apply (accumulate_uint64_from ds 0). Qed.

Lemma uint32_uint64 x : uint32 (x mod 2 ^ 64) = x mod 2 ^ 32.
Proof.
  unfold uint32, wrap_unsigned. apply Z.mod_mod_divide.
  exists (2 ^ 32). reflexivity.
Qed.

Lemma lex_signed_numeral l sgn ds rest :
  numeral_at l sgn ds rest ->
  lex_signed l = (Some (sign_value sgn, ds), rest).
Proof.
  intros Hn. destruct (V2_readers.numeral_sign _ _ _ _ Hn) as (Hs & Hd & Hne).
  destruct Hn as (_ & _ & _ & Hall & Hr).
  destruct (V2_readers.span_digits ds rest Hall Hr) as [Ht Hdr].
  unfold lex_signed. destruct l; [contradiction|].
  rewrite Hs, Hd, Ht, Hdr. reflexivity.
Qed.

Lemma lex_unsigned_numeral l ds rest :
  numeral_at l [] ds rest -> lex_unsigned l = (Some ds, rest).
Proof.
  intros Hn. destruct (V2_readers.numeral_sign _ _ _ _ Hn) as (_ & Hd & _).
  destruct Hn as (-> & _ & _ & Hall & Hr). cbn [app] in *.
  destruct (V2_readers.span_digits ds rest Hall Hr) as [Ht Hdr].
  unfold lex_unsigned. rewrite Hd, Ht, Hdr. reflexivity.
Qed.

Lemma signed_value_fits sgn ds :
  Forall (fun b => digit_byte b = true) ds -> decimal ds < 2 ^ 63 ->
  int64 (accumulate int64 ds * sign_value sgn) = sign_value sgn * decimal ds.
Proof.
  intros Hall Hfit. pose proof (decimal_nonneg ds Hall) as H0.
  rewrite accumulate_int64 by auto. rewrite Z.mul_comm. apply int64_small.
  destruct (V2_readers.sign_value_cases sgn) as [-> | ->]; lia.
Qed.

Lemma yread_int_ok_numeral out st sgn ds rest :
  numeral_at (drop_while space_byte (input st)) sgn ds rest ->
  decimal ds < 2 ^ 63 ->
  exists st',
    yread_int_ok out st = Ok (1, Vint (int32 (sign_value sgn * decimal ds)), st') /\
    input st' = rest.
Proof.
  intros Hn Hfit. pose proof (lex_signed_numeral _ _ _ _ Hn) as Hlex.
  destruct Hn as (_ & _ & _ & Hall & _).
  destruct (yread_int_ok_spec out st) as [s1 [Hi1 Hi2]].
  rewrite Hlex in *. cbn [fst snd] in *.
  rewrite (signed_value_fits sgn ds Hall Hfit) in Hi1. now exists s1.
Qed.

Lemma yread_ll_ok_numeral out st sgn ds rest :
  numeral_at (drop_while space_byte (input st)) sgn ds rest ->
  decimal ds < 2 ^ 63 ->
  exists st',
    yread_ll_ok out st = Ok (1, Vll (sign_value sgn * decimal ds), st') /\
    input st' = rest.
Proof.
  intros Hn Hfit. pose proof (lex_signed_numeral _ _ _ _ Hn) as Hlex.
  destruct Hn as (_ & _ & _ & Hall & _).
  destruct (yread_ll_ok_spec out st) as [s1 [Hi1 Hi2]].
  rewrite Hlex in *. cbn [fst snd] in *.
  rewrite (signed_value_fits sgn ds Hall Hfit) in Hi1. now exists s1.
Qed.

Lemma int32_range x : - 2 ^ 31 <= int32 x < 2 ^ 31.
Proof.
  unfold int32, wrap_signed. change (2 ^ (32 - 1)) with (2 ^ 31).
  pose proof (Z.mod_pos_bound (x + 2 ^ 31) (2 ^ 32) ltac:(lia)). lia.
Qed.

(** X6. On a numeral (after any whitespace: an optional sign, digits, then
    a byte that is no digit, or the end) whose digits fit [long long],
    [yread_int_ok] and [yread_ll_ok] return 1 and leave the input right
    after the last digit.  [yread_ll_ok] stores the value; [yread_int_ok]
    stores it converted to [int], which is the value itself when it is in
    the range of [int] and another number otherwise, the value wrapped
    modulo 2^32: there is no saturation and no failure report. *)
Theorem signed_readers_read_numerals out st sgn ds rest :
  numeral_at (drop_while space_byte (input st)) sgn ds rest ->
  decimal ds < 2 ^ 63 ->
  let v := sign_value sgn * decimal ds in
  (exists st', yread_int_ok out st = Ok (1, Vint (int32 v), st') /\ input st' = rest) /\
  (exists st', yread_ll_ok out st = Ok (1, Vll v, st') /\ input st' = rest) /\
  (INT32_MIN <= v <= INT32_MAX -> int32 v = v) /\
  (v < INT32_MIN \/ INT32_MAX < v -> int32 v <> v).
Proof.
  intros Hn Hfit v.
  split; [now apply yread_int_ok_numeral|].
  split; [now apply yread_ll_ok_numeral|].
  unfold INT32_MIN, INT32_MAX. split.
  - intros Hr. apply int32_small. lia.
  - intros Hr E. pose proof (int32_range v). lia.
Qed.

(** ["-12"] before a blank, and ["3000000000"], which is beyond [int]. *)
Lemma signed_readers_read_numerals_witness :
  (exists st', yread_int_ok Vundef (start (file_of (bytes " -12 "))) =
               Ok (1, Vint (int32 (-12)), st') /\ input st' = bytes " ") /\
  (exists st', yread_int_ok Vundef (start (file_of (bytes "3000000000"))) =
               Ok (1, Vint (int32 3000000000), st') /\ input st' = []) /\
  int32 (-12) = -12 /\ int32 3000000000 = -1294967296.
Proof.
  assert (H1 : numeral_at
                 (drop_while space_byte (input (start (file_of (bytes " -12 ")))))
                 [x2d] (bytes "12") (bytes " ")).
  { repeat split; auto. - discriminate. - repeat constructor. }
  assert (H2 : numeral_at
                 (drop_while space_byte (input (start (file_of (bytes "3000000000")))))
                 [] (bytes "3000000000") []).
  { repeat split; auto. - discriminate. - repeat constructor. }
  destruct (signed_readers_read_numerals Vundef _ _ _ _ H1 ltac:(vm_compute; reflexivity))
    as (Ha & _).
  destruct (signed_readers_read_numerals Vundef _ _ _ _ H2 ltac:(vm_compute; reflexivity))
    as (Hb & _).
  repeat split; [exact Ha | exact Hb].
Defined.

(** X7. On digits (after any whitespace, followed by a byte that is no
    digit, or by the end), however many, [yread_uint_ok] and [yread_ull_ok]
    return 1 and leave the input right after the last digit;
    [yread_ull_ok] stores the value modulo 2^64 and [yread_uint_ok] the
    value modulo 2^32: a numeral too large is not reported. *)
Theorem unsigned_readers_wrap out st ds rest :
  numeral_at (drop_while space_byte (input st)) [] ds rest ->
  (exists st', yread_uint_ok out st = Ok (1, Vuint (decimal ds mod 2 ^ 32), st') /\
               input st' = rest) /\
  (exists st', yread_ull_ok out st = Ok (1, Vull (decimal ds mod 2 ^ 64), st') /\
               input st' = rest).
Proof.
  intros Hn. pose proof (lex_unsigned_numeral _ _ _ Hn) as Hlex.
  destruct (yread_uint_ok_spec out st) as [s1 [Hi1 Hi2]].
  destruct (yread_ull_ok_spec out st) as [s2 [Hj1 Hj2]].
  rewrite Hlex in *. cbn [fst snd] in *.
  rewrite accumulate_uint64 in *. rewrite uint32_uint64 in Hi1.
  split; [now exists s1 | now exists s2].
Qed.

(** ["4294967301"], which is 2^32 + 5, before a comma. *)
Lemma unsigned_readers_wrap_witness :
  exists st', yread_uint_ok Vundef (start (file_of (bytes "4294967301,"))) =
              Ok (1, Vuint 5, st') /\ input st' = bytes ",".
Proof.
  assert (H : numeral_at
                (drop_while space_byte (input (start (file_of (bytes "4294967301,")))))
                [] (bytes "4294967301") (bytes ",")).
  { repeat split; auto. - discriminate. - repeat constructor. }
  destruct (unsigned_readers_wrap Vundef _ _ _ H) as (Ha & _). exact Ha.
Defined.

(** ** Strings *)

Lemma ystr_loop_spec fuel : forall s st,
  (length (input st) < fuel)%nat ->
  exists st',
    ystr_loop fuel s st =
    Ok (s ++ map uchar (take_while token_byte (input st)), st') /\
    input st' = drop_while token_byte (input st).
Proof.
  induction fuel as [|fuel IH]; intros s st Hf; [lia|].
  cbn [ystr_loop]. peek st c st1 Hc Hi.
  destruct (input st) as [|b t] eqn:Ein; cbn [front] in Hc; subst c.
  - cbn. rewrite app_nil_r. exists st1. now split.
  - rewrite uchar_not_EOF. cbn [negb andb take_while drop_while].
    change (negb (isspace (uchar b))) with (token_byte b).
    destruct (token_byte b).
    + get st1 d st2 Hd Hi2. rewrite Hi in Hd, Hi2. cbn [front tl] in Hd, Hi2. subst d.
      destruct (IH (s ++ [uchar b]) st2) as [st' [Hr Hin]].
      { rewrite Hi2. cbn [length] in Hf. lia. }
      rewrite Hi2 in Hr, Hin. exists st'. split; [|exact Hin].
      rewrite Hr. cbn [map]. now rewrite <- app_assoc.
    + cbn [map]. rewrite app_nil_r. exists st1. now split.
Qed.

(** X8. [yread_str_ok] skips the whitespace; at the end of the input it
    returns 0 and leaves [*s] alone; otherwise it returns 1 and stores the
    bytes up to the next whitespace or the end, all of them (there is no
    bound), at least one, and leaves that whitespace in the input. *)
Theorem yread_str_ok_reads_a_token out st :
  let l := drop_while space_byte (input st) in
  exists st',
    yread_str_ok out st =
    Ok (match l with
        | [] => (0, out)
        | _ => (1, Vstr (map uchar (take_while token_byte l)))
        end, st') /\
    input st' = drop_while token_byte l /\
    (l <> [] -> take_while token_byte l <> []) /\
    l = take_while token_byte l ++ input st'.
Proof.
  intros l. unfold yread_str_ok.
  destruct (yskip_space_spec st) as [st1 [Hs Hi1]]. rewrite Hs. cbn [bind].
  fold l in Hi1. peek st1 c st2 Hc Hi2. rewrite Hi1 in Hc, Hi2. subst c.
  rewrite front_EOF.
  assert (Hsplit : forall l, l = take_while token_byte l ++ drop_while token_byte l).
  { clear. induction l as [|b t IH]; cbn; [reflexivity|].
    destruct (token_byte b); cbn; [now rewrite <- IH | reflexivity]. }
  assert (Hfirst : l <> [] -> take_while token_byte l <> []).
  { unfold l. clear. induction (input st) as [|b t IH]; cbn [drop_while];
      [contradiction|].
    destruct (space_byte b) eqn:E; [exact IH|]. intros _.
    cbn [take_while]. unfold token_byte. rewrite E. discriminate. }
  destruct l as [|b t] eqn:El.
  - exists st2. repeat split; auto.
  - rewrite <- El in *.
    destruct (ystr_loop_spec (S (avail st2)) [] st2) as [st3 [Hr Hi3]].
    { pose proof (input_le_avail st2). lia. }
    rewrite Hr. cbn [bind app]. rewrite Hi2 in *. exists st3.
    replace (match l with [] => (0, out) | _ :: _ =>
               (1, Vstr (map uchar (take_while token_byte l))) end)
      with (1, Vstr (map uchar (take_while token_byte l)))
      by (rewrite El; reflexivity).
    repeat split; auto. rewrite Hi3. apply Hsplit.
Qed.

End V3_values.

(* ------------------------------------------------------------------ *)
(** * Formats in yscanf3.h *)

Module V3_formats.
Import V3 V3_buffer V3_readers V3_dispatch V3_keeps V3_calls V3_total.

(** ** Fuel beyond the length of the format changes nothing *)

Lemma yscanf_loop_enough fuel1 : forall fuel2 c,
  (length (fmt c) <= fuel1)%nat -> (length (fmt c) <= fuel2)%nat ->
  yscanf_loop fuel1 c = yscanf_loop fuel2 c.
Proof.
  induction fuel1 as [|fuel1 IH]; intros fuel2 c H1 H2.
  - destruct (fmt c) eqn:E; [|cbn in H1; lia].
    rewrite !yscanf_loop_end by (now rewrite E). reflexivity.
  - destruct fuel2 as [|fuel2].
    + destruct (fmt c) eqn:E; [|cbn in H2; lia].
      rewrite !yscanf_loop_end by (now rewrite E). reflexivity.
    + rewrite !yscanf_loop_unfold.
      destruct (Z.eqb_spec (deref (fmt c)) 0) as [E|E]; [reflexivity|].
      destruct (yscanf_step c) as [[c'|r sl st]|e] eqn:Es; cbn [bind]; try reflexivity.
      pose proof (step_shrinks c c' E Es). apply IH; lia.
Qed.

(** ** The tags *)

(** The case of each tag: its reader, and the format left once the
    conversion is done. *)
Lemma step_tag tag :
  In tag tags ->
  exists reader,
    reader_keeps reader /\ returns reader /\
    forall c X, fmt c = x25 :: tag ++ X ->
      exists f, advance f = X /\ yscanf_step c = convert reader c f.
Proof.
  intros Hin. cbn in Hin.
  repeat (destruct Hin as [<- | Hin]); try contradiction.
  - exists yread_int_ok. split; [apply yread_int_ok_keeps|].
    split; [apply yread_int_ok_returns|]. intros c X E.
    exists (x64 :: X). split; [reflexivity|]. unfold yscanf_step. now rewrite E.
  - exists yread_uint_ok. split; [apply yread_uint_ok_keeps|].
    split; [apply yread_uint_ok_returns|]. intros c X E.
    exists (x75 :: X). split; [reflexivity|]. unfold yscanf_step. now rewrite E.
  - exists yread_ll_ok. split; [apply yread_ll_ok_keeps|].
    split; [apply yread_ll_ok_returns|]. intros c X E.
    exists (x64 :: X). split; [reflexivity|]. unfold yscanf_step. now rewrite E.
  - exists yread_ull_ok. split; [apply yread_ull_ok_keeps|].
    split; [apply yread_ull_ok_returns|]. intros c X E.
    exists (x75 :: X). split; [reflexivity|]. unfold yscanf_step. now rewrite E.
  - exists yread_double_ok. split; [apply yread_double_ok_keeps|].
    split; [apply yread_double_ok_returns|]. intros c X E.
    exists (x66 :: X). split; [reflexivity|]. unfold yscanf_step. now rewrite E.
  - exists yread_double_ok. split; [apply yread_double_ok_keeps|].
    split; [apply yread_double_ok_returns|]. intros c X E.
    exists (x65 :: X). split; [reflexivity|]. unfold yscanf_step. now rewrite E.
  - exists yread_double_ok. split; [apply yread_double_ok_keeps|].
    split; [apply yread_double_ok_returns|]. intros c X E.
    exists (x67 :: X). split; [reflexivity|]. unfold yscanf_step. now rewrite E.
  - exists yread_str_ok. split; [apply yread_str_ok_keeps|].
    split; [apply yread_str_ok_returns|]. intros c X E.
    exists (x73 :: X). split; [reflexivity|]. unfold yscanf_step. now rewrite E.
  - exists yread_char. split; [apply yread_char_keeps|].
    split; [apply yread_char_returns|]. intros c X E.
    exists (x63 :: X). split; [reflexivity|]. unfold yscanf_step. now rewrite E.
Qed.

Lemma plain_deref b f :
  plain_byte b -> deref (b :: f) <> 0 /\ deref (b :: f) <> 37.
Proof.
  intros [H0 H25]. cbn [deref]. split; intros E.
  - apply H0. now apply uchar_inj.
  - apply H25. now apply uchar_inj.
Qed.

(** A step on a byte that is no ['%'] looks at the format only to drop that
    byte. *)
Lemma step_plain b ap cnt sl st :
  plain_byte b ->
  exists st',
    (forall Y, yscanf_step (mkConfig (b :: Y) ap cnt sl st)
               = Ok (Next (mkConfig Y ap cnt sl st'))) /\
    reads st st' /\ (space_byte b = false -> st' = st).
Proof.
  intros Hp. destruct (plain_deref b [] Hp) as [_ H25]. cbn [deref] in H25.
  destruct (space_byte b) eqn:Es.
  - destruct (yskip_space_spec st) as [st' [Hs _]]. exists st'.
    split; [|split; [now apply yskip_space_reads | discriminate]].
    intros Y. rewrite step_whitespace by exact Es. cbn [io]. now rewrite Hs.
  - exists st. split; [|split; [apply reads_none | reflexivity]].
    intros Y. now rewrite step_literal.
Qed.

Lemma literals_skipped lit : forall f fuel1 fuel2 ap cnt sl st,
  Forall literal_byte lit ->
  (length (lit ++ f) <= fuel1)%nat -> (length f <= fuel2)%nat ->
  yscanf_loop fuel1 (mkConfig (lit ++ f) ap cnt sl st)
  = yscanf_loop fuel2 (mkConfig f ap cnt sl st).
Proof.
  induction lit as [|b lit IH]; intros f fuel1 fuel2 ap cnt sl st Hall H1 H2.
  - now apply yscanf_loop_enough.
  - inversion Hall as [|? ? [Hp Hs] Hall']; subst. cbn [app] in *.
    destruct fuel1 as [|fuel1]; [cbn in H1; lia|].
    destruct (step_plain b ap cnt sl st Hp) as (st' & Hstep & _ & Hst).
    rewrite (Hst Hs) in Hstep.
    rewrite (yscanf_loop_next fuel1 (mkConfig (b :: lit ++ f) ap cnt sl st) _
               (proj1 (plain_deref b _ Hp)) (Hstep _)).
    apply IH; auto. cbn in H1. lia.
Qed.

Lemma literals_between pre : forall lit f fuel1 fuel2 ap cnt sl st,
  directives tags pre -> Forall literal_byte lit ->
  (length (pre ++ lit ++ f) <= fuel1)%nat -> (length (pre ++ f) <= fuel2)%nat ->
  yscanf_loop fuel1 (mkConfig (pre ++ lit ++ f) ap cnt sl st)
  = yscanf_loop fuel2 (mkConfig (pre ++ f) ap cnt sl st).
Proof.
  intros lit f fuel1 fuel2 ap cnt sl st Hd. revert fuel1 fuel2 ap cnt sl st.
  induction Hd as [|b pre Hp _ IH|tag pre Hin _ IH];
    intros fuel1 fuel2 ap cnt sl st Hall H1 H2.
  - cbn [app] in *. now apply literals_skipped.
  - cbn [app] in *.
    destruct fuel1 as [|fuel1]; [cbn in H1; lia|].
    destruct fuel2 as [|fuel2]; [cbn in H2; lia|].
    destruct (step_plain b ap cnt sl st Hp) as (st' & Hstep & _).
    rewrite (yscanf_loop_next fuel1 (mkConfig (b :: pre ++ lit ++ f) ap cnt sl st) _
               (proj1 (plain_deref b _ Hp)) (Hstep _)).
    rewrite (yscanf_loop_next fuel2 (mkConfig (b :: pre ++ f) ap cnt sl st) _
               (proj1 (plain_deref b _ Hp)) (Hstep _)).
    apply IH; auto; cbn in H1, H2; lia.
  - destruct (step_tag tag Hin) as (reader & _ & _ & Hstep).
    cbn [app] in *. rewrite <- !app_assoc in *.
    destruct fuel1 as [|fuel1]; [cbn in H1; lia|].
    destruct fuel2 as [|fuel2]; [cbn in H2; lia|].
    rewrite !yscanf_loop_unfold. cbn [fmt deref]. change (uchar x25 =? 0) with false.
    cbv iota.
    destruct (Hstep (mkConfig (x25 :: tag ++ pre ++ lit ++ f) ap cnt sl st)
                (pre ++ lit ++ f) eq_refl) as (f1 & Hf1 & ->).
    destruct (Hstep (mkConfig (x25 :: tag ++ pre ++ f) ap cnt sl st)
                (pre ++ f) eq_refl) as (f2 & Hf2 & ->).
    unfold convert. cbn [slots V3.ap io V3.cnt].
    destruct (nth_error sl ap) as [out|]; [|reflexivity].
    destruct (reader out st) as [[[ok out'] st1]|]; [|reflexivity]. cbn [bind].
    destruct (poke ap out' sl) as [sl1|]; [|reflexivity].
    destruct (ok =? 0); cbn [bind]; [reflexivity|].
    rewrite Hf1, Hf2.
    assert (Ht : (1 <= length tag)%nat).
    { cbn in Hin. repeat (destruct Hin as [<- | Hin]); try contradiction; cbn; lia. }
    apply IH; auto; cbn [length] in H1, H2; rewrite length_app in H1, H2; lia.
Qed.

(** X9. [yscanf] of yscanf3.h does not match the literals of a format
    against the input: literal bytes put between the directives of a format
    (bytes other than whitespace and ['%']) change nothing of what a call
    returns, stores and consumes. *)
Theorem literals_are_not_matched pre lit f sl st :
  directives tags pre -> Forall literal_byte lit ->
  yscanf (pre ++ lit ++ f) sl st = yscanf (pre ++ f) sl st.
Proof.
  intros Hd Hall. unfold yscanf. now apply literals_between.
Qed.

(** ["%d,%d"] reads as ["%d%d"] does: on ["1,2"] the second conversion
    finds the comma. *)
Lemma literals_are_not_matched_witness :
  yscanf (bytes "%d,%d") [Vundef; Vundef] (start (file_of (bytes "1,2")))
  = yscanf (bytes "%d%d") [Vundef; Vundef] (start (file_of (bytes "1,2"))) /\
  exists st',
    yscanf (bytes "%d%d") [Vundef; Vundef] (start (file_of (bytes "1,2")))
    = Ok (1, [Vint 1; Vundef], st') /\ input st' = bytes ",2".
Proof.
  split.
  - apply (literals_are_not_matched (bytes "%d") (bytes ",") (bytes "%d")).
    + apply (directives_conv tags [x64] []); [now left | constructor].
    + repeat constructor; discriminate.
  - eexists. split; vm_compute; reflexivity.
Defined.

(** ** ["%lf"] *)

(** X10. yscanf3.h has no ["%lf"]: a call returns -1 at a ["%lf"], with
    nothing stored or consumed there; so the call
    [yscanf("%d %lf %s", ...)] of the README and of benchmark.c returns -1
    on every input, never 3. *)
Theorem lf_is_not_converted :
  (forall f sl st, yscanf (bytes "%lf" ++ f) sl st = Ok (-1, sl, st)) /\
  (forall x sl st,
     exists sl' st', yscanf (bytes "%d %lf %s") (x :: sl) st = Ok (-1, sl', st')).
Proof.
  split.
  - intros f sl st.
    apply (unrecognized_tag_ends_call _ sl st (mkConfig (bytes "%lf" ++ f) 0 0 sl st));
      [apply reaches_here | reflexivity | reflexivity].
  - intros x sl st. unfold yscanf. change (length (bytes "%d %lf %s")) with 9%nat.
    destruct (yread_int_ok_returns x st) as [[[ok out'] st1] Hr].
    destruct (yread_int_ok_keeps _ _ _ _ _ Hr) as [_ [[-> ->] | ->]].
    + exists (x :: sl), st1.
      apply yscanf_loop_return; [discriminate|].
      rewrite step_d by reflexivity.
      eapply eq_trans;
        [ eapply convert_done; [reflexivity | exact Hr | reflexivity]
        | reflexivity ].
    + destruct (yskip_space_spec st1) as [st2 [Hs _]].
      exists (out' :: sl), st2.
      erewrite yscanf_loop_next;
        [ | discriminate
          | rewrite step_d by reflexivity;
            eapply eq_trans;
            [ eapply convert_done; [reflexivity | exact Hr | reflexivity]
            | reflexivity ] ].
      erewrite yscanf_loop_next;
        [ | discriminate
          | rewrite step_whitespace by reflexivity; cbn [io]; rewrite Hs; reflexivity ].
      apply yscanf_loop_return; [discriminate|].
      now apply step_unrecognized.
Qed.

(** ** ["%c"] *)

Lemma step_percent_c c :
  deref (fmt c) = 37 -> deref (advance (fmt c)) = 99 ->
  yscanf_step c = convert yread_char c (advance (fmt c)).
Proof. intros H H'. unfold yscanf_step. now rewrite H, H'. Qed.

Lemma yread_char_spec out st b rest :
  input st = b :: rest ->
  exists st', yread_char out st = Ok (1, Vchar (uchar b), st') /\ input st' = rest.
Proof.
  intros Hin. unfold yread_char. get st c st1 Hc Hi.
  rewrite Hin in Hc, Hi. cbn [front tl] in Hc, Hi. subst c.
  rewrite uchar_not_EOF. now exists st1.
Qed.

(** X11. ["%c"] of yscanf3.h stores the next byte of the input whatever it
    is, a whitespace byte too; after a whitespace directive, as in
    [" %c"], it stores the first byte that is not whitespace. *)
Theorem percent_c_takes_the_next_byte x st :
  (forall b rest,
     input st = b :: rest ->
     exists st', yscanf (bytes "%c") [x] st = Ok (1, [Vchar (uchar b)], st') /\
                 input st' = rest) /\
  (forall ws b rest,
     input st = ws ++ b :: rest ->
     Forall (fun w => space_byte w = true) ws -> space_byte b = false ->
     exists st', yscanf (bytes " %c") [x] st = Ok (1, [Vchar (uchar b)], st') /\
                 input st' = rest).
Proof.
  split.
  - intros b rest Hin. unfold yscanf. change (length (bytes "%c")) with 2%nat.
    destruct (yread_char_spec x st b rest Hin) as [st' [Hr Hi]].
    exists st'. split; [|exact Hi].
    erewrite yscanf_loop_next;
      [ | discriminate
        | rewrite step_percent_c by reflexivity;
          eapply eq_trans;
          [ eapply convert_done; [reflexivity | exact Hr | reflexivity]
          | reflexivity ] ].
    reflexivity.
  - intros ws b rest Hin Hws Hb. unfold yscanf.
    change (length (bytes " %c")) with 3%nat.
    destruct (yskip_space_spec st) as [st1 [Hs Hi1]].
    rewrite Hin, (drop_while_spaces ws _ Hws) in Hi1. cbn [drop_while] in Hi1.
    rewrite Hb in Hi1.
    destruct (yread_char_spec x st1 b rest Hi1) as [st' [Hr Hi]].
    exists st'. split; [|exact Hi].
    erewrite yscanf_loop_next;
      [ | discriminate
        | rewrite step_whitespace by reflexivity; cbn [io]; rewrite Hs; reflexivity ].
    erewrite yscanf_loop_next;
      [ | discriminate
        | rewrite step_percent_c by reflexivity;
          eapply eq_trans;
          [ eapply convert_done; [reflexivity | exact Hr | reflexivity]
          | reflexivity ] ].
    reflexivity.
Qed.

Lemma percent_c_takes_the_next_byte_witness :
  (exists st', yscanf (bytes "%c") [Vundef] (start (file_of (bytes " x")))
               = Ok (1, [Vchar 32], st') /\ input st' = bytes "x") /\
  (exists st', yscanf (bytes " %c") [Vundef] (start (file_of (bytes " x")))
               = Ok (1, [Vchar 120], st') /\ input st' = []).
Proof.
  destruct (percent_c_takes_the_next_byte Vundef (start (file_of (bytes " x"))))
    as [H1 H2].
  split.
  - apply (H1 x20 (bytes "x")). reflexivity.
  - apply (H2 [x20] x78 []); [reflexivity | repeat constructor | reflexivity].
Defined.

End V3_formats.

(* ------------------------------------------------------------------ *)
(** * The reading loops over yscanf3.h *)

Module V3_loops.
Import V3 V3_buffer V3_readers V3_dispatch V3_values Callers.

(** [yscanf("%d", &x)] in terms of [yread_int_ok]. *)
Lemma yscanf_d x st ok out' st' :
  yread_int_ok x st = Ok (ok, out', st') -> ok = 0 /\ out' = x \/ ok = 1 ->
  yscanf (bytes "%d") [x] st = Ok ((if ok =? 0 then EOF else 1), [out'], st').
Proof.
  intros Hr Hok. unfold yscanf. change (length (bytes "%d")) with 2%nat.
  destruct Hok as [[-> ->] | ->].
  - apply yscanf_loop_return; [discriminate|].
    rewrite step_d by reflexivity.
    eapply eq_trans;
      [ eapply convert_done; [reflexivity | exact Hr | reflexivity]
      | reflexivity ].
  - erewrite yscanf_loop_next;
      [ | discriminate
        | rewrite step_d by reflexivity;
          eapply eq_trans;
          [ eapply convert_done; [reflexivity | exact Hr | reflexivity]
          | reflexivity ] ].
    reflexivity.
Qed.

Lemma spaces_then_end ws :
  Forall (fun b => space_byte b = true) ws -> drop_while space_byte ws = [].
Proof.
  intros H. rewrite <- (app_nil_r ws). now rewrite drop_while_spaces.
Qed.

Lemma token_numeral ws sgn ds ws1 rest :
  int_token (sgn, ds, ws1) -> Forall (fun b => space_byte b = true) ws ->
  numeral_at (drop_while space_byte (ws ++ (sgn ++ ds ++ ws1) ++ rest))
             sgn ds (ws1 ++ rest).
Proof.
  intros (Hs & Hne & Hall & Hw & Hsp & _) Hws.
  rewrite (drop_while_spaces ws _ Hws), <- !app_assoc.
  assert (Hfirst : exists b t, sgn ++ ds ++ ws1 ++ rest = b :: t /\ space_byte b = false).
  { destruct ds as [|d ds]; [contradiction|]. inversion Hall as [|? ? Hd _]; subst.
    destruct Hs as [-> | [-> | ->]]; cbn [app]; eexists; eexists; (split; [reflexivity|]);
      try reflexivity.
    pose proof (digit_byte_range d Hd). unfold space_byte, isspace.
    destruct (Z.eqb_spec (uchar d) 32); [lia|].
    destruct (Z.leb_spec (uchar d) 13); [lia|]. now rewrite andb_false_r. }
  destruct Hfirst as (b & t & E & Hb). rewrite E. cbn [drop_while]. rewrite Hb, <- E.
  repeat split; auto.
  destruct ws1 as [|w ws1]; [contradiction|]. inversion Hsp as [|? ? Hw1 _]; subst.
  cbn [app front]. unfold space_byte, isspace in Hw1. unfold is_digit.
  destruct (Z.eqb_spec (uchar w) 32) as [->|]; [reflexivity|].
  cbn [orb] in Hw1. apply andb_prop in Hw1 as [_ Hw1]. apply Z.leb_le in Hw1.
  destruct (Z.leb_spec 48 (uchar w)); [lia | reflexivity].
Qed.

(** One iteration on a text of integers. *)
Lemma yscanf_d_token x st ws t toks :
  int_token t -> Forall (fun b => space_byte b = true) ws ->
  input st = ws ++ ints_text (t :: toks) ->
  exists st' ws',
    yscanf (bytes "%d") [x] st = Ok (1, [Vint (token_value t)], st') /\
    Forall (fun b => space_byte b = true) ws' /\
    input st' = ws' ++ ints_text toks.
Proof.
  destruct t as [[sgn ds] ws1]. intros Ht Hws Hin.
  pose proof (token_numeral ws sgn ds ws1 (ints_text toks) Ht Hws) as Hn.
  unfold ints_text in Hin. cbn [map concat] in Hin. fold (ints_text toks) in Hin.
  rewrite <- Hin in Hn.
  destruct Ht as (_ & _ & Hall & _ & Hsp & Hr).
  assert (Hfit : decimal ds < 2 ^ 63).
  { pose proof (decimal_nonneg ds Hall). unfold INT32_MIN, INT32_MAX in Hr.
    destruct (V2_readers.sign_value_cases sgn) as [E | E]; rewrite E in Hr; lia. }
  destruct (yread_int_ok_numeral x st sgn ds _ Hn Hfit) as (st' & Hi & Hi').
  rewrite int32_small in Hi by (unfold INT32_MIN, INT32_MAX in Hr; lia).
  exists st', ws1. split; [|now split].
  apply (yscanf_d x st 1 _ st' Hi). now right.
Qed.

(** At the end of the text. *)
Lemma yscanf_d_end x st ws :
  Forall (fun b => space_byte b = true) ws -> input st = ws ->
  exists st', yscanf (bytes "%d") [x] st = Ok (EOF, [x], st') /\ input st' = [].
Proof.
  intros Hws Hin. destruct (yread_int_ok_spec x st) as [st' [Hr Hi]].
  rewrite Hin, (spaces_then_end ws Hws) in Hr, Hi. cbn in Hr, Hi.
  exists st'. split; [|exact Hi].
  apply (yscanf_d x st 0 x st' Hr). now left.
Qed.

Lemma sum_loop_spec toks : forall fuel sum x st ws,
  Forall int_token toks -> Forall (fun b => space_byte b = true) ws ->
  input st = ws ++ ints_text toks -> (length toks < fuel)%nat ->
  exists v st',
    sum_loop state yscanf fuel sum x st =
    Ok (fold_left (fun s t => int32 (s + token_value t)) toks sum, v, st') /\
    input st' = [].
Proof.
  induction toks as [|t toks IH]; intros fuel sum x st ws Hall Hws Hin Hf;
    (destruct fuel as [|fuel]; [cbn in Hf; lia|]); cbn [sum_loop fold_left].
  - cbn [ints_text map concat] in Hin. rewrite app_nil_r in Hin.
    destruct (yscanf_d_end x st ws Hws Hin) as [st' [Hr Hi]].
    rewrite Hr. cbn. now exists x, st'.
  - inversion Hall as [|? ? Ht Hall']; subst.
    destruct (yscanf_d_token x st ws t toks Ht Hws Hin) as (st' & ws' & Hr & Hws' & Hi).
    rewrite Hr. cbn [bind nth Z.eqb Pos.eqb int_of].
    apply (IH fuel _ _ st' ws'); auto. cbn in Hf. lia.
Qed.

Lemma count_loop_spec toks : forall fuel count x st ws,
  Forall int_token toks -> Forall (fun b => space_byte b = true) ws ->
  input st = ws ++ ints_text toks -> (length toks < fuel)%nat ->
  exists v st',
    count_loop state yscanf fuel count x st =
    Ok (fold_left (fun n _ => int32 (n + 1)) toks count, v, st') /\
    input st' = [].
Proof.
  induction toks as [|t toks IH]; intros fuel count x st ws Hall Hws Hin Hf;
    (destruct fuel as [|fuel]; [cbn in Hf; lia|]); cbn [count_loop fold_left].
  - cbn [ints_text map concat] in Hin. rewrite app_nil_r in Hin.
    destruct (yscanf_d_end x st ws Hws Hin) as [st' [Hr Hi]].
    rewrite Hr. cbn. now exists x, st'.
  - inversion Hall as [|? ? Ht Hall']; subst.
    destruct (yscanf_d_token x st ws t toks Ht Hws Hin) as (st' & ws' & Hr & Hws' & Hi).
    rewrite Hr. cbn [bind nth Z.eqb Pos.eqb].
    apply (IH fuel _ _ st' ws'); auto. cbn in Hf. lia.
Qed.

Lemma count_up (A : Type) (l : list A) : forall n,
  0 <= n -> n + Z.of_nat (length l) < 2 ^ 31 ->
  fold_left (fun n _ => int32 (n + 1)) l n = n + Z.of_nat (length l).
Proof.
  induction l as [|a l IH]; intros n H0 Hb; cbn [fold_left length] in *; [lia|].
  rewrite int32_small by lia. rewrite IH by lia. lia.
Qed.

Lemma sum_is_int toks : forall s,
  - 2 ^ 31 <= s < 2 ^ 31 ->
  fold_left (fun s t => int32 (s + token_value t)) toks s <> 4999950000.
Proof.
  induction toks as [|t toks IH]; intros s Hs; cbn [fold_left]; [lia|].
  apply IH, int32_range.
Qed.

(** X12. With yscanf3.h, the loops of test_performance and of
    benchmark_operations, [while (yscanf("%d", &val) == 1) ...], run on a
    text of integers of the range of [int], each followed by whitespace,
    read every one of them and stop at the end of the input: [sum] is the
    sum of the values as [int] addition gives it, [count] their number.
    Being an [int], [sum] is never the 4999950000 that test_performance
    compares it with. *)
Theorem reading_loops_read_every_integer toks x st fuel :
  Forall int_token toks -> input st = ints_text toks ->
  (length toks < fuel)%nat -> Z.of_nat (length toks) < 2 ^ 31 ->
  (exists v st',
     sum_loop state yscanf fuel 0 x st =
     Ok (fold_left (fun s t => int32 (s + token_value t)) toks 0, v, st') /\
     input st' = [] /\
     fold_left (fun s t => int32 (s + token_value t)) toks 0 <> 4999950000) /\
  (exists v st',
     count_loop state yscanf fuel 0 x st = Ok (Z.of_nat (length toks), v, st') /\
     input st' = []).
Proof.
  intros Hall Hin Hf Hb. split.
  - destruct (sum_loop_spec toks fuel 0 x st [] Hall (Forall_nil _) Hin Hf)
      as (v & st' & Hr & Hi).
    exists v, st'. split; [exact Hr|]. split; [exact Hi|].
    apply sum_is_int. lia.
  - destruct (count_loop_spec toks fuel 0 x st [] Hall (Forall_nil _) Hin Hf)
      as (v & st' & Hr & Hi).
    rewrite count_up in Hr by lia. now exists v, st'.
Qed.

(** The text ["1 -2 30 "]. *)
Lemma reading_loops_read_every_integer_witness :
  (exists v st',
     sum_loop state yscanf 4 0 Vundef (start (file_of (bytes "1 -2 30 ")))
     = Ok (29, v, st') /\ input st' = [] /\ 29 <> 4999950000) /\
  (exists v st',
     count_loop state yscanf 4 0 Vundef (start (file_of (bytes "1 -2 30 ")))
     = Ok (3, v, st') /\ input st' = []).
Proof.
  apply (reading_loops_read_every_integer
           [([], bytes "1", bytes " "); ([x2d], bytes "2", bytes " ");
            ([], bytes "30", bytes " ")] Vundef
           (start (file_of (bytes "1 -2 30 "))) 4).
  - repeat (apply Forall_cons;
            [ unfold int_token; repeat split; auto;
              try discriminate; repeat constructor | ]).
    apply Forall_nil.
  - reflexivity.
  - cbn. lia.
  - cbn. lia.
Defined.

End V3_loops.

(* ------------------------------------------------------------------ *)
(** * Whitespace before a numeral, in yscanf3.h *)

Module V3_whitespace.
Import V3 V3_buffer V3_readers V3_dispatch V3_values V3_loops.

(** [yscanf("%d", &x)] is a function of the input left after the
    whitespace. *)
Lemma yscanf_d_spec x st :
  let l := drop_while space_byte (input st) in
  exists st',
    yscanf (bytes "%d") [x] st =
    Ok (match fst (lex_signed l) with
        | None => (EOF, [x])
        | Some (sg, ds) => (1, [Vint (int32 (int64 (accumulate int64 ds * sg)))])
        end, st') /\
    input st' = snd (lex_signed l).
Proof.
  intros l. destruct (yread_int_ok_spec x st) as [st' [Hr Hi]]. fold l in Hr, Hi.
  exists st'. split; [|exact Hi].
  destruct (fst (lex_signed l)) as [[sg ds]|].
  - apply (yscanf_d x st 1 _ st' Hr). now right.
  - apply (yscanf_d x st 0 x st' Hr). now left.
Qed.

(** C8. Leading whitespace of the input changes nothing of
    [yscanf("%d", &x)]: on an input and on the same input after any run of
    whitespace, the call returns the same count, stores the same and leaves
    the same input.  On a numeral whose digits fit [long long] (after any
    whitespace: an optional sign, digits, then a byte that is no digit, or
    the end), both calls return 1 and store its value converted to [int]:
    ["   7"] and ["7"] both give count 1 and 7. *)
Theorem leading_whitespace_changes_nothing x ws st st0 :
  Forall (fun b => space_byte b = true) ws ->
  input st = ws ++ input st0 ->
  (exists r sl st' st0',
     yscanf (bytes "%d") [x] st = Ok (r, sl, st') /\
     yscanf (bytes "%d") [x] st0 = Ok (r, sl, st0') /\
     input st' = input st0') /\
  (forall sgn ds rest,
     numeral_at (drop_while space_byte (input st0)) sgn ds rest ->
     decimal ds < 2 ^ 63 ->
     exists st' st0',
       yscanf (bytes "%d") [x] st
       = Ok (1, [Vint (int32 (sign_value sgn * decimal ds))], st') /\
       yscanf (bytes "%d") [x] st0
       = Ok (1, [Vint (int32 (sign_value sgn * decimal ds))], st0') /\
       input st' = rest /\ input st0' = rest).
Proof.
  intros Hws Hin.
  destruct (yscanf_d_spec x st) as [st' [Hr Hi]].
  destruct (yscanf_d_spec x st0) as [st0' [Hr0 Hi0]].
  rewrite Hin, (drop_while_spaces ws _ Hws) in Hr, Hi. split.
  - rewrite <- Hi0 in Hi.
    destruct (fst (lex_signed (drop_while space_byte (input st0)))) as [[sg ds]|];
      eexists _, _, st', st0'; (split; [exact Hr | split; [exact Hr0 | exact Hi]]).
  - intros sgn ds rest Hn Hfit. rewrite (lex_signed_numeral _ _ _ _ Hn) in *.
    cbn [fst snd] in *. destruct Hn as (_ & _ & _ & Hall & _).
    rewrite (signed_value_fits sgn ds Hall Hfit) in Hr, Hr0.
    now exists st', st0'.
Qed.

(** ["   7"] and ["7"]; and, with a sign, ["   -7"] and ["-7"]. *)
Lemma leading_whitespace_changes_nothing_witness :
  (exists st' st0',
     yscanf (bytes "%d") [Vundef] (start (file_of (bytes "   7")))
     = Ok (1, [Vint 7], st') /\
     yscanf (bytes "%d") [Vundef] (start (file_of (bytes "7")))
     = Ok (1, [Vint 7], st0') /\
     input st' = [] /\ input st0' = []) /\
  (exists st' st0',
     yscanf (bytes "%d") [Vundef] (start (file_of (bytes "   -7")))
     = Ok (1, [Vint (-7)], st') /\
     yscanf (bytes "%d") [Vundef] (start (file_of (bytes "-7")))
     = Ok (1, [Vint (-7)], st0') /\
     input st' = [] /\ input st0' = []).
Proof.
  split.
  - destruct (leading_whitespace_changes_nothing Vundef (bytes "   ")
                (start (file_of (bytes "   7"))) (start (file_of (bytes "7"))))
      as [_ H].
    + repeat constructor.
    + reflexivity.
    + apply (H [] (bytes "7") []).
      * repeat split; auto. -- discriminate. -- repeat constructor.
      * vm_compute. reflexivity.
  - destruct (leading_whitespace_changes_nothing Vundef (bytes "   ")
                (start (file_of (bytes "   -7"))) (start (file_of (bytes "-7"))))
      as [_ H].
    + repeat constructor.
    + reflexivity.
    + apply (H [x2d] (bytes "7") []).
      * repeat split; auto. -- discriminate. -- repeat constructor.
      * vm_compute. reflexivity.
Defined.

End V3_whitespace.

(* ------------------------------------------------------------------ *)
(** * The buffer and the integer readers of yscanf2.h *)

Module V2_more.
Import V2 V2_buffer V2_readers V2_dispatch V2_total Callers.

(** ** The buffer *)

Lemma nexts_spec : forall l st,
  input st = l -> fst (nexts (S (length l)) st) = map uchar l ++ [EOF].
Proof.
  induction l as [|b t IH]; intros st Hin; cbn [length nexts map app].
  - next st c st1 Hc Hi. rewrite Hin in Hc. cbn [front] in Hc. now subst c.
  - next st c st1 Hc Hi. rewrite Hin in Hc, Hi. cbn [front tl] in Hc, Hi. subst c.
    specialize (Hi ltac:(discriminate)). specialize (IH st1 Hi).
    cbn [nexts] in IH. destruct (ynext_char st1) as [c1 st2].
    destruct (nexts (length t) st2) as [cs st3]. cbn [fst] in *. now rewrite IH.
Qed.

(** X13. [ynext_char] of yscanf2.h hands over the bytes of the input in
    their order, each once, and then [EOF]; at program start the input is
    what the stream delivers before it first reports zero bytes. *)
Theorem ynext_char_delivers_the_stream_in_order :
  (forall st,
     fst (nexts (S (length (input st))) st) = map uchar (input st) ++ [EOF]) /\
  (forall f, input (start f) = upcoming (chunks f)).
Proof.
  split.
  - intros st. now apply nexts_spec.
  - reflexivity.
Qed.

(** ** The integer readers on a numeral in range *)

(** The digits of 2^63, the one value of [long long] whose digits do not
    fit it: the step that reaches 2^63 wraps to [LLONG_MIN], which is below
    the accumulator, and the flag is set. *)
Lemma parse_acc_llong_min ds : forall x,
  Forall (fun b => digit_byte b = true) ds -> 0 <= x < 2 ^ 63 ->
  fold_left (fun x b => x * 10 + (uchar b - 48)) ds x = 2 ^ 63 ->
  exists y, parse_acc int64 x ds = (y, 1) /\ 0 < y < 2 ^ 63.
Proof.
  induction ds as [|d ds IH]; intros x Hall Hx Hv; cbn [fold_left] in Hv; [lia|].
  inversion Hall as [|? ? Hd Hds]; subst.
  pose proof (digit_byte_range d Hd) as Hr.
  pose proof (decimal_from_ge ds (x * 10 + (uchar d - 48)) Hds ltac:(lia)) as Hge.
  rewrite Hv in Hge. cbn [parse_acc].
  destruct (Z.eq_dec (x * 10 + (uchar d - 48)) (2 ^ 63)) as [E|E].
  - rewrite E. change (int64 (2 ^ 63)) with (- 2 ^ 63).
    destruct (Z.ltb_spec (- 2 ^ 63) x); [|lia]. exists x. split; [reflexivity|lia].
  - rewrite int64_small by lia.
    destruct (Z.ltb_spec (x * 10 + (uchar d - 48)) x); [lia|].
    apply IH; auto. lia.
Qed.

Lemma yread_ll_llong_min st ds rest :
  numeral_at (drop_while space_byte (input st)) [x2d] ds rest ->
  decimal ds = 2 ^ 63 ->
  exists st', yread_ll st = Ok (LLONG_MIN, st') /\ (rest <> [] -> input st' = tl rest).
Proof.
  intros Hn Hv. destruct (yparse_int_numeral st [x2d] ds rest Hn) as [st' [Hp Hi]].
  destruct Hn as (_ & _ & _ & Hall & _).
  destruct (parse_acc_llong_min ds 0 Hall ltac:(lia) Hv) as (y & Hy & Hr).
  rewrite Hy in Hp. cbn [fst snd] in Hp.
  exists st'. split; [|exact Hi]. unfold yread_ll. rewrite Hp. cbn [bind].
  change (sign_value [x2d]) with (-1). rewrite int64_small by lia.
  cbn [Z.eqb negb]. destruct (Z.gtb_spec (-1 * y) 0); [lia|reflexivity].
Qed.

(** X14. On a numeral (after any whitespace: an optional sign, digits, then
    a byte that is no digit) whose value is in the range of the type, the
    integer readers of yscanf2.h return the value; and they consume the
    byte after the numeral with it.  [LLONG_MIN] is among these values:
    its digits do not fit [long long], and [yread_ll] returns it from the
    branch that saturates. *)
Theorem readers_return_the_value_in_range st sgn ds rest :
  numeral_at (drop_while space_byte (input st)) sgn ds rest ->
  let v := sign_value sgn * decimal ds in
  (INT32_MIN <= v <= INT32_MAX ->
   exists st', yread_int st = Ok (v, st') /\ (rest <> [] -> input st' = tl rest)) /\
  (LLONG_MIN <= v <= LLONG_MAX ->
   exists st', yread_ll st = Ok (v, st') /\ (rest <> [] -> input st' = tl rest)) /\
  (sgn = [] -> decimal ds <= UINT32_MAX ->
   exists st', yread_uint st = Ok (decimal ds, st') /\
               (rest <> [] -> input st' = tl rest)) /\
  (sgn = [] -> decimal ds <= ULLONG_MAX ->
   exists st', yread_ull st = Ok (decimal ds, st') /\
               (rest <> [] -> input st' = tl rest)).
Proof.
  intros Hn v. pose proof Hn as (_ & Hsgn & _ & Hall & _).
  pose proof (decimal_nonneg ds Hall) as H0.
  unfold INT32_MIN, INT32_MAX, UINT32_MAX, LLONG_MIN, LLONG_MAX, ULLONG_MAX.
  split; [|split; [|split]].
  - intros Hr. now apply yread_int_in_range.
  - intros Hr. destruct (Z.lt_ge_cases (decimal ds) (2 ^ 63)) as [Hfit|Hbig].
    + destruct (yparse_int_flag_clear st sgn ds rest Hn Hfit) as [st' [Hp Hi]].
      exists st'. split; [|exact Hi]. unfold yread_ll. now rewrite Hp.
    + assert (Hs : sgn = [x2d] /\ decimal ds = 2 ^ 63).
      { unfold v in Hr. destruct Hsgn as [-> | [-> | ->]];
          cbn [sign_value] in Hr;
          try change (uchar x2b =? 45) with false in Hr;
          try change (uchar x2d =? 45) with true in Hr; cbv iota in Hr;
          split; try reflexivity; lia. }
      destruct Hs as [-> Hv]. unfold v. rewrite Hv.
      change (sign_value [x2d] * 2 ^ 63) with LLONG_MIN.
      exact (yread_ll_llong_min st ds rest Hn Hv).
  - intros -> Hr.
    destruct (yparse_uint_exact st ds rest Hn ltac:(lia)) as [st' [Hp Hi]].
    exists st'. split; [|exact Hi]. unfold yread_uint. rewrite Hp. cbn [bind].
    unfold UINT32_MAX. cbn [Z.eqb negb orb].
    destruct (Z.gtb_spec (decimal ds) 4294967295); [lia|].
    unfold uint32, wrap_unsigned. now rewrite Z.mod_small by lia.
  - intros -> Hfit.
    destruct (yparse_uint_exact st ds rest Hn ltac:(lia)) as [st' [Hp Hi]].
    exists st'. split; [|exact Hi]. unfold yread_ull. now rewrite Hp.
Qed.

(** ["-12,5"]: the comma goes with the numeral; and [LLONG_MIN]. *)
Lemma readers_return_the_value_in_range_witness :
  (exists st', yread_int (start (file_of (bytes "-12,5"))) = Ok (-12, st') /\
               input st' = bytes "5") /\
  (exists st', yread_ll (start (file_of (bytes "-9223372036854775808 ")))
               = Ok (LLONG_MIN, st') /\ input st' = []).
Proof.
  assert (Hn : numeral_at
                 (drop_while space_byte (input (start (file_of (bytes "-12,5")))))
                 [x2d] (bytes "12") (bytes ",5")).
  { repeat split; auto. - discriminate. - repeat constructor. }
  assert (Hm : numeral_at
                 (drop_while space_byte
                    (input (start (file_of (bytes "-9223372036854775808 ")))))
                 [x2d] (bytes "9223372036854775808") (bytes " ")).
  { repeat split; auto. - discriminate. - repeat constructor. }
  split.
  - destruct (readers_return_the_value_in_range _ _ _ _ Hn) as (Hi & _).
    destruct Hi as [st' [Hr Hin]]; [vm_compute; split; discriminate|].
    exists st'. split; [exact Hr|]. apply Hin. discriminate.
  - destruct (readers_return_the_value_in_range _ _ _ _ Hm) as (_ & Hl & _).
    destruct Hl as [st' [Hr Hin]]; [vm_compute; split; discriminate|].
    exists st'. split; [exact Hr|]. apply Hin. discriminate.
Defined.

End V2_more.

(* ------------------------------------------------------------------ *)
(** * Inputs without a digit, and strings, in yscanf2.h *)

Module V2_edges.
Import V2 V2_buffer V2_readers V2_dispatch V2_total Callers.

(** ** The integer readers where there is no digit *)






(** ** Strings *)

Lemma ystring_loop_spec fuel : forall s st,
  (length (input st) < fuel)%nat ->
  exists st',
    ystring_loop fuel s st =
    Ok (s ++ map uchar (take_while token_byte (input st)), st') /\
    (drop_while token_byte (input st) <> [] ->
     input st' = tl (drop_while token_byte (input st))).
Proof.
  induction fuel as [|fuel IH]; intros s st Hf; [lia|].
  cbn [ystring_loop]. next st c st1 Hc Hi.
  destruct (input st) as [|b t] eqn:Ein; cbn [front tl] in Hc, Hi; subst c.
  - cbn. rewrite app_nil_r. exists st1. split; [reflexivity|]. now intros [].
  - specialize (Hi ltac:(discriminate)).
    rewrite uchar_not_EOF. cbn [negb andb take_while drop_while].
    change (negb (isspace (uchar b))) with (token_byte b).
    destruct (token_byte b).
    + destruct (IH (s ++ [uchar b]) st1) as [st' [Hr Hin]].
      { rewrite Hi. cbn [length] in Hf. lia. }
      rewrite Hi in Hr, Hin. exists st'. split; [|exact Hin].
      rewrite Hr. cbn [map]. now rewrite <- app_assoc.
    + cbn [map]. rewrite app_nil_r. exists st1. now split.
Qed.

(** X16. [yread_string] of yscanf2.h, on an input with a byte that is not
    whitespace: it skips the whitespace, stores the bytes up to the next
    whitespace or the end, all of them (there is no bound), and consumes the
    whitespace byte that ends them. *)
Theorem yread_string_reads_a_token st tok rest :
  drop_while space_byte (input st) = tok ++ rest ->
  tok <> [] -> Forall (fun b => token_byte b = true) tok ->
  (forall b t, rest = b :: t -> space_byte b = true) ->
  exists st',
    yread_string st = Ok (map uchar tok, st') /\ (rest <> [] -> input st' = tl rest).
Proof.
  intros Hl Hne Hall Hrest. unfold yread_string.
  destruct (yskip_space_input_spec st) as [st1 [Hs Hi1]].
  rewrite Hl in Hi1. rewrite Hs. cbn [bind].
  specialize (Hi1 ltac:(destruct tok; [contradiction | discriminate])).
  destruct (ystring_loop_spec (S (avail st1)) [] st1) as [st' [Hr Hi]].
  { pose proof (input_le_avail_v2 st1). lia. }
  rewrite Hi1 in Hr, Hi.
  assert (Hspan : take_while token_byte (tok ++ rest) = tok /\
                  drop_while token_byte (tok ++ rest) = rest).
  { clear - Hall Hrest. induction Hall as [|b tok Hb _ [IH1 IH2]]; cbn [app].
    - destruct rest as [|r rest]; [now split|].
      cbn [take_while drop_while]. unfold token_byte.
      rewrite (Hrest r rest eq_refl). now split.
    - cbn [take_while drop_while]. rewrite Hb, IH1, IH2. now split. }
  destruct Hspan as [Ht Hd]. rewrite Ht, Hd in *. cbn [app] in Hr.
  now exists st'.
Qed.

(** ["  ab cd"]: the blank after ["ab"] is consumed. *)
Lemma yread_string_reads_a_token_witness :
  exists st', yread_string (start (file_of (bytes "  ab cd")))
              = Ok ([97; 98], st') /\ input st' = bytes "cd".
Proof.
  destruct (yread_string_reads_a_token (start (file_of (bytes "  ab cd")))
              (bytes "ab") (bytes " cd") eq_refl) as [st' [Hr Hi]].
  - discriminate.
  - repeat constructor.
  - intros b t E. injection E as <- _. reflexivity.
  - exists st'. split; [exact Hr|]. apply Hi. discriminate.
Defined.

End V2_edges.

(* ------------------------------------------------------------------ *)
(** * The floating-point readers of yscanf2.h *)

Module V2_doubles.
Import V2 V2_buffer V2_readers V2_dispatch V2_total.

Lemma fold_snoc (l : list Z) : forall acc,
  fold_left (fun ds d => ds ++ [d]) l acc = acc ++ l.
Proof.
  induction l as [|a l IH]; intros acc; cbn [fold_left]; [now rewrite app_nil_r|].
  rewrite IH, <- app_assoc. reflexivity.
Qed.

Lemma ydigits_loop_spec_v2 {A} (step : A -> Z -> A) fuel : forall l acc c st,
  presents c st l -> (length l < fuel)%nat ->
  exists st',
    ydigits_loop step fuel acc c st =
    Ok (fold_left step (map (fun b => uchar b - 48) (take_while digit_byte l)) acc,
        front (drop_while digit_byte l), st') /\
    presents (front (drop_while digit_byte l)) st' (drop_while digit_byte l).
Proof.
  induction fuel as [|fuel IH]; intros l acc c st [Hc Hin] Hf; [lia|].
  cbn [ydigits_loop]. destruct l as [|b t]; cbn [front tl] in Hc, Hin; subst c.
  - cbn. exists st. split; [reflexivity|]. split; [reflexivity | now intros []].
  - specialize (Hin ltac:(discriminate)). cbn [take_while drop_while].
    change (is_digit (uchar b)) with (digit_byte b). destruct (digit_byte b).
    + pose proof (next_presents st) as Hp. rewrite Hin in Hp.
      destruct (ynext_char st) as [c' st0]. cbn [fst snd] in Hp.
      destruct (IH t (step acc (uchar b - 48)) c' st0 Hp) as [st' [Hr Hp']].
      { cbn [length] in Hf. lia. }
      exists st'. now split.
    + exists st. split; [reflexivity|]. split; [reflexivity | now intros _].
Qed.

(** The mantissa on an input with something after the whitespace: the sign,
    the digits, and the digits after a ['.']; the byte after them has been
    read too. *)
Lemma yread_mantissa_spec st :
  let l := drop_while space_byte (input st) in
  let l2 := drop_while digit_byte (snd (sign_of l)) in
  let ints := map (fun b => uchar b - 48) (take_while digit_byte (snd (sign_of l))) in
  let fracs :=
    if front l2 =? 46
    then map (fun b => uchar b - 48) (take_while digit_byte (tl l2)) else [] in
  let l3 := if front l2 =? 46 then drop_while digit_byte (tl l2) else l2 in
  l <> [] ->
  exists st',
    yread_mantissa st =
    Ok (mkNumeral (fst (sign_of l)) ints fracs None, front l3, st') /\
    presents (front l3) st' l3.
Proof.
  intros l l2 ints fracs l3 Hne. unfold yread_mantissa.
  destruct (yskip_space_input_spec st) as [st1 [Hs Hi1]]. fold l in Hi1.
  specialize (Hi1 Hne). rewrite Hs. cbn [bind].
  pose proof (next_presents st1) as Hp. rewrite Hi1 in Hp.
  destruct (ynext_char st1) as [c st2]. cbn [fst snd] in Hp.
  pose proof (sign_presents c st2 l Hp Hne) as Hsg. cbv zeta in Hsg.
  destruct (if c =? 45 then let (c, st) := ynext_char st2 in (-1, c, st)
            else if c =? 43 then let (c, st) := ynext_char st2 in (1, c, st)
            else (1, c, st2)) as [[sg c'] st3].
  cbn [fst snd] in Hsg. destruct Hsg as [Hsg Hp3].
  destruct (ydigits_loop_spec_v2 (fun ds d => ds ++ [d]) (S (S (avail st3)))
              (snd (sign_of l)) [] c' st3 Hp3) as [st4 [Hr Hp4]].
  { now apply (presents_fuel c' st3). }
  rewrite Hr. cbn [bind]. rewrite fold_snoc. cbn [app]. fold l2 in Hp4 |- *.
  unfold fracs, l3. destruct (front l2 =? 46) eqn:Edot.
  - destruct l2 as [|d t2]; [discriminate Edot|]. cbn [front tl] in *.
    destruct Hp4 as [_ Hi4]. specialize (Hi4 ltac:(discriminate)). cbn [tl] in Hi4.
    pose proof (next_presents st4) as Hp5. rewrite Hi4 in Hp5.
    destruct (ynext_char st4) as [c5 st5]. cbn [fst snd] in Hp5.
    destruct (ydigits_loop_spec_v2 (fun ds d => ds ++ [d]) (S (S (avail st5)))
                t2 [] c5 st5 Hp5) as [st6 [Hr6 Hp6]].
    { now apply (presents_fuel c5 st5). }
    rewrite Hr6. cbn [bind]. rewrite fold_snoc. cbn [app]. rewrite Hsg.
    now exists st6.
  - cbn [bind]. rewrite Hsg. now exists st4.
Qed.

(** X17. [yread_double_exp] of yscanf2.h takes the exponent only if an
    ['e'] is the second byte after the mantissa.  On a mantissa (digits,
    with or without a ['.'] and digits after it) followed by a byte [b] and
    then by a byte that is no ['e'] or ['E'], it returns the mantissa with
    no exponent and leaves the input after [b], whatever [b] is: [b] is
    consumed by [yread_double] before the test, so that an exponent written
    right after the mantissa, as in ["1e5"], is not read. *)
Theorem exponent_after_the_mantissa_is_not_read st sgn ints (dot : bool) fracs b rest :
  numeral_at (drop_while space_byte (input st)) sgn ints
             ((if dot then x2e :: fracs else []) ++ b :: rest) ->
  Forall (fun d => digit_byte d = true) fracs -> digit_byte b = false ->
  (dot = false -> fracs = [] /\ uchar b <> 46) ->
  rest <> [] -> front rest <> 101 -> front rest <> 69 ->
  let x := mkNumeral (sign_value sgn) (digit_values ints) (digit_values fracs)
             None in
  (exists st', yread_double st = Ok (x, st') /\ input st' = rest) /\
  (exists st', yread_double_exp st = Ok (x, st') /\ input st' = rest).
Proof.
  intros Hn Hfr Hb Hdot Hrest He HE x. unfold digit_values in x.
  destruct (numeral_sign _ _ _ _ Hn) as (Hsg & _ & Hne).
  pose proof Hn as (_ & _ & _ & Hall & Hnd).
  destruct (span_digits ints _ Hall Hnd) as [Ht Hd].
  destruct (yread_mantissa_spec st Hne) as [st1 [Hm Hp]].
  rewrite Hsg in Hm, Hp. cbn [fst snd] in Hm, Hp. rewrite Ht, Hd in Hm. rewrite Hd in Hp.
  assert (Hb' : is_digit (front (b :: rest)) = false) by exact Hb.
  assert (E : yread_mantissa st = Ok (x, uchar b, st1) /\ input st1 = rest).
  { destruct dot.
    - cbn [app front tl] in Hm, Hp. change (uchar x2e =? 46) with true in Hm, Hp.
      cbv iota in Hm, Hp.
      destruct (span_digits fracs (b :: rest) Hfr Hb') as [Ht2 Hd2].
      rewrite Ht2, Hd2 in Hm. rewrite Hd2 in Hp. cbn [front] in Hm, Hp.
      split; [exact Hm|]. apply (proj2 Hp). discriminate.
    - destruct (Hdot eq_refl) as [-> H46]. cbn [app front] in Hm, Hp.
      apply Z.eqb_neq in H46. rewrite H46 in Hm, Hp. cbn [map] in x.
      split; [exact Hm|]. apply (proj2 Hp). discriminate. }
  destruct E as [Em Ei].
  assert (Ed : yread_double st = Ok (x, st1)).
  { unfold yread_double. now rewrite Em. }
  split; [now exists st1|].
  unfold yread_double_exp. rewrite Ed. cbn [bind].
  peek st1 c st2 Hc Hi. rewrite Ei in Hc, Hi. subst c.
  apply Z.eqb_neq in He, HE. rewrite He, HE. cbn [orb].
  exists st2. split; [reflexivity | now apply Hi].
Qed.

(** ["1e5 "]: the value is 1 and the ['5'] is left. *)
Lemma exponent_after_the_mantissa_is_not_read_witness :
  exists st',
    yread_double_exp (start (file_of (bytes "1e5 ")))
    = Ok (mkNumeral 1 [1] [] None, st') /\ input st' = bytes "5 ".
Proof.
  assert (Hn : numeral_at
                 (drop_while space_byte (input (start (file_of (bytes "1e5 ")))))
                 [] (bytes "1") ((if false then x2e :: [] else []) ++ x65 :: bytes "5 ")).
  { repeat split; auto. - discriminate. - repeat constructor. }
  destruct (exponent_after_the_mantissa_is_not_read _ _ _ false [] x65 (bytes "5 ") Hn)
    as (_ & H); auto; try discriminate.
  split; [reflexivity | discriminate].
Defined.

End V2_doubles.

(* ------------------------------------------------------------------ *)
(** * Formats in yscanf2.h *)

Module V2_formats.
Import V2 V2_buffer V2_readers V2_dispatch V2_total Callers.

Lemma poke_defined v : forall sl i,
  (i < length sl)%nat -> exists sl', poke i v sl = Some sl' /\ length sl' = length sl.
Proof.
  induction sl as [|x t IH]; intros [|i] H; cbn [length] in H; try lia; cbn [poke].
  - now exists (v :: t).
  - destruct (IH i ltac:(lia)) as (t' & -> & Hl). exists (x :: t'). cbn. now rewrite Hl.
Qed.

(** A case that has no way to return early stores and goes on. *)
Lemma convert_sure {A} (reader : state -> result (A * state)) inj c f :
  (forall st, exists r, reader st = Ok r) -> (ap c < length (slots c))%nat ->
  exists sl st,
    convert reader inj c f =
    Ok (Next (mkConfig (advance f) (S (ap c)) (int32 (cnt c + 1)) false sl st)) /\
    length sl = length (slots c).
Proof.
  intros Hr Hap. unfold convert.
  destruct (skip_if_returns (skip_space c) (io c)) as [st1 ->]. cbn [bind].
  destruct (nth_error (slots c) (ap c)) as [old|] eqn:En.
  - destruct (Hr st1) as [[v st2] ->]. cbn [bind].
    destruct (poke_defined (inj v) (slots c) (ap c) Hap) as (sl & -> & Hl).
    now exists sl, st2.
  - apply nth_error_None in En. lia.
Qed.

Lemma step_sure tag :
  In tag sure_tags ->
  forall c X, fmt c = x25 :: tag ++ X -> (ap c < length (slots c))%nat ->
  exists sl st,
    yscanf_step c =
    Ok (Next (mkConfig X (S (ap c)) (int32 (cnt c + 1)) false sl st)) /\
    length sl = length (slots c).
Proof.
  intros Hin c X E Hap. cbn in Hin.
  repeat (destruct Hin as [<- | Hin]); try contradiction;
    unfold yscanf_step; rewrite E; cbn [app deref advance tl];
    repeat match goal with
           | |- context [isspace (uchar ?b)] => change (isspace (uchar b)) with false
           | |- context [uchar ?b =? ?k] =>
               let v := eval vm_compute in (uchar b =? k) in
               change (uchar b =? k) with v
           end;
    cbn [negb orb]; cbv iota.
  - apply (convert_sure yread_int Vint c (x64 :: X) yread_int_returns Hap).
  - apply (convert_sure yread_uint Vuint c (x75 :: X) yread_uint_returns Hap).
  - apply (convert_sure yread_string Vstr c (x73 :: X) yread_string_returns Hap).
  - apply (convert_sure yread_ll Vll c (x64 :: X) yread_ll_returns Hap).
  - apply (convert_sure yread_ull Vull c (x75 :: X) yread_ull_returns Hap).
  - apply (convert_sure yread_double Vdouble c (x66 :: X) yread_double_returns Hap).
  - apply (convert_sure yread_double_exp Vdouble c (x67 :: X)
             yread_double_exp_returns Hap).
  - apply (convert_sure yread_double_exp Vdouble c (x65 :: X)
             yread_double_exp_returns Hap).
  - apply (convert_sure yread_double_exp Vdouble c (x66 :: X)
             yread_double_exp_returns Hap).
Qed.

Lemma step_plain_v2 b X c :
  plain_byte b -> fmt c = b :: X ->
  exists flag,
    yscanf_step c = Ok (Next (mkConfig X (ap c) (cnt c) flag (slots c) (io c))).
Proof.
  intros [H0 H25] E.
  assert (Hd : deref (fmt c) <> 37).
  { rewrite E. cbn [deref]. intros E'. apply H25. now apply uchar_inj. }
  destruct (isspace (deref (fmt c))) eqn:Es.
  - exists true. rewrite (step_whitespace_v2 c Es), E. reflexivity.
  - exists false. rewrite (step_literal_v2 c Es Hd), E. reflexivity.
Qed.

Lemma sure_loop f n :
  sure_format f n ->
  forall fuel c,
    fmt c = f -> (length f <= fuel)%nat -> cnt c = Z.of_nat (ap c) ->
    (ap c + n <= length (slots c))%nat -> Z.of_nat (ap c + n) < 2 ^ 31 ->
    exists sl st,
      yscanf_loop fuel c = Ok (Z.of_nat (ap c + n), sl, st) /\
      length sl = length (slots c).
Proof.
  induction 1 as [|b f n Hp _ IH|tag f n Hin _ IH];
    intros fuel c Hf Hlen Hc Hap Hb.
  - rewrite yscanf_loop_end_v2 by now rewrite Hf.
    exists (slots c), (io c). rewrite Hc, Nat.add_0_r. now split.
  - destruct fuel as [|fuel]; [cbn in Hlen; lia|].
    destruct (step_plain_v2 b f c Hp Hf) as [flag Hs].
    assert (Hd : deref (fmt c) <> 0).
    { rewrite Hf. cbn [deref]. intros E. apply (proj1 Hp). now apply uchar_inj. }
    rewrite (yscanf_loop_next_v2 fuel c _ Hd Hs).
    apply (IH fuel (mkConfig f (ap c) (cnt c) flag (slots c) (io c)));
      cbn [fmt cnt ap slots]; auto. cbn in Hlen. lia.
  - destruct fuel as [|fuel]; [cbn in Hlen; lia|].
    destruct (step_sure tag Hin c f Hf ltac:(lia)) as (sl & st & Hs & Hl).
    assert (Hd : deref (fmt c) <> 0) by (rewrite Hf; discriminate).
    rewrite (yscanf_loop_next_v2 fuel c _ Hd Hs).
    assert (Hw : int32 (cnt c + 1) = Z.of_nat (S (ap c))).
    { rewrite Hc, int32_small; lia. }
    destruct (IH fuel (mkConfig f (S (ap c)) (int32 (cnt c + 1)) false sl st))
      as (sl' & st' & Hr & Hl'); cbn [fmt cnt ap slots]; auto; try lia.
    + cbn [length] in Hlen. rewrite length_app in Hlen.
      assert ((1 <= length tag)%nat).
      { cbn in Hin. repeat (destruct Hin as [<- | Hin]); try contradiction; cbn; lia. }
      lia.
    + exists sl', st'. cbn [ap slots] in Hr, Hl'.
      replace (ap c + S n)%nat with (S (ap c) + n)%nat by lia.
      split; [exact Hr | lia].
Qed.

(** X18. In yscanf2.h every conversion but ["%c"] counts, whatever the
    input holds: a call with a format of [n] such conversions, with
    whitespace and literals around them, returns [n], on an empty input and
    on one that holds no number too.  A caller cannot tell a failed
    conversion from a done one. *)
Theorem conversions_always_count f n sl st :
  sure_format f n -> (n <= length sl)%nat -> Z.of_nat n < 2 ^ 31 ->
  exists sl' st',
    yscanf f sl st = Ok (Z.of_nat n, sl', st') /\ length sl' = length sl.
Proof.
  intros Hf Hn Hb. unfold yscanf.
  destruct (sure_loop f n Hf (length f) (mkConfig f 0 0 false sl st))
    as (sl' & st' & Hr & Hl); cbn [fmt cnt ap slots]; auto.
  now exists sl', st'.
Qed.

(** ["%d %s"] on an empty input returns 2. *)
Lemma conversions_always_count_witness :
  exists sl' st',
    yscanf (bytes "%d %s") [Vundef; Vundef] (start (file_of []))
    = Ok (2, sl', st') /\ length sl' = 2%nat.
Proof.
  apply (conversions_always_count (bytes "%d %s") 2 [Vundef; Vundef]).
  - apply (sure_conv [x64]); [now left|].
    apply sure_plain; [split; discriminate|].
    apply (sure_conv [x73] []); [cbn; auto | constructor].
  - cbn. lia.
  - cbn. lia.
Defined.

(** ** The reading loops *)

Lemma percent_d_returns_1 x st :
  exists v st', yscanf (bytes "%d") [x] st = Ok (1, [Vint v], st').
Proof.
  destruct (yread_int_returns st) as [[v st'] Hr]. exists v, st'.
  apply (v2_single_conversion yread_int Vint x64 x st v st');
    [reflexivity | discriminate | exact Hr].
Qed.

(** X19. With yscanf2.h the loops of test_performance and of
    benchmark_operations, [while (yscanf("%d", &val) == 1) ...], do not end:
    [yscanf("%d", &val)] returns 1 in every state, at the end of the input
    too, so that whatever number of iterations is allowed, the loop has not
    returned. *)
Theorem reading_loops_do_not_end fuel :
  forall acc x st,
    sum_loop state yscanf fuel acc x st = Err OutOfFuel /\
    count_loop state yscanf fuel acc x st = Err OutOfFuel.
Proof.
  induction fuel as [|fuel IH]; intros acc x st; [now split|].
  cbn [sum_loop count_loop].
  destruct (percent_d_returns_1 x st) as (v & st' & ->).
  cbn [bind nth Z.eqb Pos.eqb]. split; apply IH.
Qed.

End V2_formats.

(* ------------------------------------------------------------------ *)
(** * The floating-point reader of yscanf3.h *)

Module V3_doubles.
Import V3 V3_buffer V3_readers.

Lemma sign_of_text sgn t :
  sgn = [] \/ sgn = [x2b] \/ sgn = [x2d] ->
  (sgn = [] -> front t <> 43 /\ front t <> 45) ->
  sign_of (sgn ++ t) = (sign_value sgn, t).
Proof.
  intros [-> | [-> | ->]] Hf; [|reflexivity|reflexivity].
  cbn [app sign_value]. destruct t as [|b t]; [reflexivity|].
  destruct (Hf eq_refl) as [H1 H2]. cbn [front] in H1, H2. cbn [sign_of].
  apply Z.eqb_neq in H1, H2. now rewrite H1, H2.
Qed.

Lemma digit_front_not_sign l :
  is_digit (front l) = true -> front l <> 43 /\ front l <> 45.
Proof.
  unfold is_digit. intros H. apply andb_prop in H as [H _]. apply Z.leb_le in H. lia.
Qed.

Lemma accumulate_int32_from ds : forall acc,
  Forall (fun b => digit_byte b = true) ds -> 0 <= acc ->
  fold_left (fun x b => x * 10 + (uchar b - 48)) ds acc < 2 ^ 31 ->
  fold_left (fun x d => int32 (x * 10 + d)) (map (fun b => uchar b - 48) ds) acc
  = fold_left (fun x b => x * 10 + (uchar b - 48)) ds acc.
Proof.
  induction ds as [|d ds IH]; intros acc Hall Hacc Hlt; cbn [fold_left map];
    [reflexivity|].
  inversion Hall as [|? ? Hd Hds]; subst.
  pose proof (digit_byte_range d Hd).
  pose proof (decimal_from_ge ds (acc * 10 + (uchar d - 48)) Hds ltac:(lia)).
  cbn [fold_left] in Hlt.
  rewrite int32_small by lia. apply IH; auto; lia.
Qed.

Lemma snoc_digits l :
  fold_left (fun ds d => ds ++ [d]) (map (fun b => uchar b - 48) l) []
  = digit_values l.
Proof. rewrite V2_doubles.fold_snoc. reflexivity. Qed.

(** The digits at the front of the input, up to a byte that is no digit. *)
Lemma ydigits_run {A} (step : A -> Z -> A) acc st ds t :
  input st = ds ++ t -> Forall (fun b => digit_byte b = true) ds ->
  is_digit (front t) = false ->
  exists st',
    ydigits step acc st =
    Ok (fold_left step (map (fun b => uchar b - 48) ds) acc, st') /\
    input st' = t.
Proof.
  intros Hin Hall Ht. destruct (V2_readers.span_digits ds t Hall Ht) as [H1 H2].
  destruct (ydigits_spec step acc st) as [st' [Hr Hi]].
  rewrite Hin, H1 in Hr. rewrite Hin, H2 in Hi. now exists st'.
Qed.

(** The exponent part. *)
Lemma exponent_spec st ex rest :
  input st = exp_text ex ++ rest -> exp_ok ex rest ->
  is_digit (front rest) = false ->
  exists st',
    (let (c, st) := ypeek st in
     if (c =? 101) || (c =? 69) then
       let st := snd (yget st) in
       let (c, st) := ypeek st in
       let (es, st) :=
         if (c =? 43) || (c =? 45)
         then ((if c =? 45 then -1 else 1), snd (yget st))
         else (1, st) in
       let* (ep, st) := ydigits (fun ep d => int32 (ep * 10 + d)) 0 st in
       Ok (Some (es, ep), st)
     else Ok (None, st)) = Ok (exp_value ex, st') /\
    input st' = rest.
Proof.
  intros Hin Hok Hr. peek st c st1 Hc Hi. rewrite Hin in Hc, Hi. subst c.
  destruct ex as [[[e esgn] eds]|]; cbn [exp_text exp_ok exp_value app front] in *.
  - rewrite <- ?app_assoc in *.
    destruct Hok as (He & Hs & Hall & Hfit & Hnos).
    assert (Et : (uchar e =? 101) || (uchar e =? 69) = true).
    { destruct He as [-> | ->]; reflexivity. }
    rewrite Et. destruct (yget_spec st1) as [_ Hi2]. rewrite Hi in Hi2.
    cbn [tl] in Hi2. set (st2 := snd (yget st1)) in *.
    peek st2 c st3 Hc Hi3. rewrite Hi2 in Hc, Hi3. subst c.
    assert (Hsg : sign_of (esgn ++ eds ++ rest) = (sign_value esgn, eds ++ rest)).
    { apply sign_of_text; [exact Hs|]. intros E.
      destruct eds as [|d eds]; [now apply Hnos|].
      inversion Hall; subst. now apply digit_front_not_sign. }
    assert (Hstep : exists st4,
               (if (front (esgn ++ eds ++ rest) =? 43) || (front (esgn ++ eds ++ rest) =? 45)
                then ((if front (esgn ++ eds ++ rest) =? 45 then -1 else 1),
                      snd (yget st3))
                else (1, st3)) = (sign_value esgn, st4) /\
               input st4 = eds ++ rest).
    { destruct (esgn ++ eds ++ rest) as [|b t] eqn:El.
      - cbn [sign_of] in Hsg. injection Hsg as <- <-.
        cbn. exists st3. now split.
      - destruct (sign_step st3 (b :: t) Hi3 ltac:(discriminate)) as [H1 H2].
        rewrite Hsg in H1, H2. cbn [fst snd] in H1, H2.
        destruct (if (front (b :: t) =? 43) || (front (b :: t) =? 45)
                  then ((if front (b :: t) =? 45 then -1 else 1), snd (yget st3))
                  else (1, st3)) as [es st4].
        cbn [fst snd] in H1, H2. subst es. now exists st4. }
    destruct Hstep as (st4 & -> & Hi4).
    destruct (ydigits_run (fun ep d => int32 (ep * 10 + d)) 0 st4 eds rest Hi4 Hall Hr)
      as (st5 & Hd & Hi5).
    rewrite Hd. cbn [bind].
    rewrite accumulate_int32_from
      by (auto; try lia; fold (decimal eds); unfold INT32_MAX in Hfit; lia).
    now exists st5.
  - destruct Hok as [H1 H2]. apply Z.eqb_neq in H1, H2. rewrite H1, H2.
    cbn [orb]. now exists st1.
Qed.

(** X20. [yread_double_ok] on a floating-point numeral (after any
    whitespace: an optional sign, digits, an optional ['.'] with digits,
    with a digit or the ['.'] present, and an optional exponent part)
    returns 1, stores the sign, the digits and the exponent it has read,
    and leaves the input right after the numeral.  The exponent part is an
    ['e'] or ['E'], an optional sign and digits that may be missing: an
    ['e'] that no digit follows is consumed as an exponent of 0. *)
Theorem yread_double_ok_reads_a_numeral out st sgn ints (dot : bool) fracs ex rest :
  drop_while space_byte (input st)
  = sgn ++ ints ++ (if dot then x2e :: fracs else []) ++ exp_text ex ++ rest ->
  (sgn = [] \/ sgn = [x2b] \/ sgn = [x2d]) ->
  Forall (fun b => digit_byte b = true) ints ->
  Forall (fun b => digit_byte b = true) fracs ->
  (ints <> [] \/ dot = true) -> (dot = false -> fracs = []) ->
  exp_ok ex rest -> is_digit (front rest) = false ->
  (dot = false -> ex = None -> front rest <> 46) ->
  exists st',
    yread_double_ok out st =
    Ok (1, Vdouble (mkNumeral (sign_value sgn) (digit_values ints)
                      (digit_values fracs) (exp_value ex)), st') /\
    input st' = rest.
Proof.
  intros Hl Hs Hints Hfracs Hsome Hnodot Hex Hrest Hnd.
  set (tail := exp_text ex ++ rest) in *.
  set (mid := (if dot then x2e :: fracs else []) ++ tail) in *.
  assert (Htail : is_digit (front tail) = false).
  { unfold tail. destruct ex as [[[e esgn] eds]|]; cbn [exp_text app front]; auto.
    destruct Hex as ([-> | ->] & _); reflexivity. }
  assert (Hmid : is_digit (front mid) = false).
  { unfold mid. destruct dot; cbn [app front]; auto. }
  assert (Hfirst : is_digit (front (ints ++ mid)) = true \/ front (ints ++ mid) = 46).
  { destruct ints as [|d ints'].
    - right. destruct Hsome as [H | ->]; [contradiction|]. reflexivity.
    - left. inversion Hints; subst. assumption. }
  assert (Hnosign : front (ints ++ mid) <> 43 /\ front (ints ++ mid) <> 45).
  { destruct Hfirst as [H|H]; [now apply digit_front_not_sign | rewrite H; lia]. }
  assert (Hsg : sign_of (sgn ++ ints ++ mid) = (sign_value sgn, ints ++ mid)).
  { apply sign_of_text; auto. }
  assert (Hne : sgn ++ ints ++ mid <> []).
  { intros E. rewrite E in Hsg. cbn [sign_of] in Hsg. injection Hsg as _ E'.
    rewrite <- E' in Hfirst. cbn in Hfirst. destruct Hfirst; discriminate. }
  unfold yread_double_ok.
  destruct (yskip_space_spec st) as [st1 [Hsk Hi1]]. rewrite Hsk. cbn [bind].
  rewrite Hl in Hi1. peek st1 c st2 Hc Hi2. rewrite Hi1 in Hc, Hi2. subst c.
  rewrite front_EOF.
  destruct (sgn ++ ints ++ mid) as [|b0 t0] eqn:El; [contradiction|].
  destruct (sign_step st2 (b0 :: t0) Hi2 Hne) as [Hi3 Hv]. rewrite Hsg in Hi3, Hv.
  cbn [fst snd] in Hi3, Hv.
  destruct (if (front (b0 :: t0) =? 43) || (front (b0 :: t0) =? 45)
            then ((if front (b0 :: t0) =? 45 then -1 else 1), snd (yget st2))
            else (1, st2)) as [sg st3]. cbn [fst snd] in Hi3, Hv. subst sg.
  peek st3 c st4 Hc Hi4. rewrite Hi3 in Hc, Hi4. subst c.
  assert (Etest : ((front (ints ++ mid) <? 48) || (front (ints ++ mid) >? 57))
                  && negb (front (ints ++ mid) =? 46) = false).
  { destruct Hfirst as [H|H].
    - rewrite not_digit_test, H. reflexivity.
    - rewrite H. reflexivity. }
  rewrite Etest.
  destruct (ydigits_run (fun ds d => ds ++ [d]) [] st4 ints mid Hi4 Hints Hmid)
    as (st5 & Hd5 & Hi5).
  rewrite Hd5, snoc_digits. cbn [bind].
  peek st5 c st6 Hc Hi6. rewrite Hi5 in Hc, Hi6. subst c.
  assert (Hfrac : exists st7,
             (if front mid =? 46
              then ydigits (fun ds d => ds ++ [d]) [] (snd (yget st6))
              else Ok ([], st6)) = Ok (digit_values fracs, st7) /\
             input st7 = tail).
  { unfold mid in *. destruct dot; cbn [app front] in *.
    - change (uchar x2e =? 46) with true. cbv iota.
      destruct (yget_spec st6) as [_ Hi7]. rewrite Hi6 in Hi7. cbn [tl] in Hi7.
      destruct (ydigits_run (fun ds d => ds ++ [d]) [] (snd (yget st6)) fracs tail
                  Hi7 Hfracs Htail) as (st7 & Hd7 & Hi8).
      rewrite Hd7, snoc_digits. now exists st7.
    - rewrite (Hnodot eq_refl). cbn [digit_values map].
      assert (E46 : (front tail =? 46) = false).
      { apply Z.eqb_neq. unfold tail.
        destruct ex as [[[e esgn] eds]|]; cbn [exp_text app front].
        - destruct Hex as ([-> | ->] & _); lia.
        - now apply Hnd. }
      rewrite E46. now exists st6. }
  destruct Hfrac as (st7 & -> & Hi7). cbn [bind].
  destruct (exponent_spec st7 ex rest Hi7 Hex Hrest) as (st8 & He & Hi8).
  destruct (ypeek st7) as [c7 st7']. cbv zeta in He |- *.
  rewrite He. cbn [bind]. now exists st8.
Qed.

(** ["-1.5e-3,"], and ["2ex"] where the ['e'] goes with the number. *)
Lemma yread_double_ok_reads_a_numeral_witness :
  (exists st',
     yread_double_ok Vundef (start (file_of (bytes " -1.5e-3,")))
     = Ok (1, Vdouble (mkNumeral (-1) [1] [5] (Some (-1, 3))), st') /\
     input st' = bytes ",") /\
  (exists st',
     yread_double_ok Vundef (start (file_of (bytes "2ex")))
     = Ok (1, Vdouble (mkNumeral 1 [2] [] (Some (1, 0))), st') /\
     input st' = bytes "x").
Proof.
  split.
  - apply (yread_double_ok_reads_a_numeral Vundef (start (file_of (bytes " -1.5e-3,")))
             [x2d] (bytes "1") true (bytes "5")
             (Some (x65, [x2d], bytes "3")) (bytes ",")).
    + reflexivity.
    + right; right; reflexivity.
    + repeat constructor.
    + repeat constructor.
    + now right.
    + discriminate.
    + split; [left; reflexivity|]. split; [right; right; reflexivity|].
      split; [repeat constructor|]. split; [vm_compute; discriminate|].
      intros H; discriminate H.
    + reflexivity.
    + discriminate.
  - apply (yread_double_ok_reads_a_numeral Vundef (start (file_of (bytes "2ex")))
             [] (bytes "2") false [] (Some (x65, [], [])) (bytes "x")).
    + reflexivity.
    + now left.
    + repeat constructor.
    + constructor.
    + left; discriminate.
    + reflexivity.
    + split; [left; reflexivity|]. split; [left; reflexivity|].
      split; [constructor|]. split; [vm_compute; discriminate|].
      intros _ _. split; vm_compute; discriminate.
    + reflexivity.
    + discriminate.
Defined.

End V3_doubles.

(* ------------------------------------------------------------------ *)
(** * What every function of yscanf2.h keeps *)

Module V2_keeps.
Import V2 V2_buffer V2_dispatch.

Lemma reads_trans_v2 a b c : reads_v2 a b -> reads_v2 b c -> reads_v2 a c.
Proof.
  induction 1; intros H'; [exact H' | apply reads_next_v2 | apply reads_peek_v2]; auto.
Qed.

Lemma reads_next1 st : reads_v2 st (snd (ynext_char st)).
Proof. apply reads_next_v2, reads_none_v2. Qed.

Lemma reads_peek1_v2 st : reads_v2 st (snd (ypeek_char st)).
Proof. apply reads_peek_v2, reads_none_v2. Qed.

Ltac rpeek st c st1 H :=
  pose proof (reads_peek1_v2 st) as H;
  destruct (ypeek_char st) as [c st1]; cbn [snd] in H.

Ltac rnext st c st1 H :=
  pose proof (reads_next1 st) as H;
  destruct (ynext_char st) as [c st1]; cbn [snd] in H.

Ltac chain :=
  match goal with
  | |- reads_v2 ?a ?a => apply reads_none_v2
  | |- reads_v2 ?a (snd (ynext_char ?a)) => apply reads_next1
  | |- reads_v2 ?a (snd (ypeek_char ?a)) => apply reads_peek1_v2
  | H : reads_v2 ?a ?b |- reads_v2 ?a ?b => exact H
  | H : reads_v2 ?a ?b |- reads_v2 ?a ?c => apply (reads_trans_v2 a b c H); chain
  | H : reads_v2 (snd (ynext_char ?a)) ?b |- reads_v2 ?a ?c =>
      apply reads_next_v2; chain
  | H : reads_v2 (snd (ypeek_char ?a)) ?b |- reads_v2 ?a ?c =>
      apply reads_peek_v2; chain
  end.

Lemma yskip_space_loop_reads_v2 fuel : forall st st',
  yskip_space_loop fuel st = Ok st' -> reads_v2 st st'.
Proof.
  induction fuel as [|fuel IH]; intros st st' H; [discriminate|].
  cbn [yskip_space_loop] in H. rpeek st c st1 H1.
  destruct (negb (c =? EOF) && isspace c).
  - apply IH in H. chain.
  - injection H as <-. chain.
Qed.

Lemma yskip_space_input_reads st st' :
  yskip_space_input st = Ok st' -> reads_v2 st st'.
Proof. apply yskip_space_loop_reads_v2. Qed.

Lemma skip_if_reads b st st' : skip_if b st = Ok st' -> reads_v2 st st'.
Proof.
  destruct b; cbn [skip_if]; intros H.
  - now apply yskip_space_input_reads.
  - injection H as <-. chain.
Qed.

Lemma yconsume_loop_reads fuel : forall st st',
  yconsume_loop fuel st = Ok st' -> reads_v2 st st'.
Proof.
  induction fuel as [|fuel IH]; intros st st' H; [discriminate|].
  cbn [yconsume_loop] in H. rnext st c st1 H1.
  destruct (is_digit c).
  - apply IH in H. chain.
  - injection H as <-. chain.
Qed.

Lemma yparse_loop_reads wrap fuel : forall x c st r st',
  yparse_loop wrap fuel x c st = Ok (r, st') -> reads_v2 st st'.
Proof.
  induction fuel as [|fuel IH]; intros x c st r st' H; [discriminate|].
  cbn [yparse_loop] in H. destruct (is_digit c).
  - destruct (wrap (x * 10 + (c - 48)) <? x).
    + destruct (yconsume_loop (S (avail st)) st) as [st1|] eqn:E; [|discriminate].
      apply yconsume_loop_reads in E. injection H as _ <-. chain.
    + rnext st c1 st1 H1. apply IH in H. chain.
  - injection H as _ <-. chain.
Qed.

(** The optional sign. *)
Lemma sign_reads c st :
  reads_v2 st
    (snd (if c =? 45 then let (c, st) := ynext_char st in (-1, c, st)
          else if c =? 43 then let (c, st) := ynext_char st in (1, c, st)
          else (1, c, st))).
Proof.
  destruct (c =? 45); [|destruct (c =? 43)];
    [ rnext st c1 st1 H1; exact H1
    | rnext st c1 st1 H1; exact H1
    | apply reads_none_v2 ].
Qed.

Lemma yparse_int_reads st r st' : yparse_int st = Ok (r, st') -> reads_v2 st st'.
Proof.
  unfold yparse_int. intros H.
  destruct (yskip_space_input st) as [st1|] eqn:E1; [|discriminate].
  apply yskip_space_input_reads in E1. cbn [bind] in H. rnext st1 c st2 H2.
  pose proof (sign_reads c st2) as Hs.
  destruct (if c =? 45 then let (c, st) := ynext_char st2 in (-1, c, st)
            else if c =? 43 then let (c, st) := ynext_char st2 in (1, c, st)
            else (1, c, st2)) as [[sg c1] st3]. cbn [snd] in Hs.
  destruct ((c1 <? 48) || (c1 >? 57)); [injection H as _ <-; chain|].
  destruct (yparse_loop int64 (S (S (avail st3))) 0 c1 st3) as [[[x o] st4]|] eqn:E4;
    [|discriminate].
  apply yparse_loop_reads in E4. injection H as _ <-. chain.
Qed.

Lemma yparse_uint_reads st r st' : yparse_uint st = Ok (r, st') -> reads_v2 st st'.
Proof.
  unfold yparse_uint. intros H.
  destruct (yskip_space_input st) as [st1|] eqn:E1; [|discriminate].
  apply yskip_space_input_reads in E1. cbn [bind] in H. rnext st1 c st2 H2.
  destruct ((c <? 48) || (c >? 57)); [injection H as _ <-; chain|].
  destruct (yparse_loop uint64 (S (S (avail st2))) 0 c st2) as [[[x o] st4]|] eqn:E4;
    [|discriminate].
  apply yparse_loop_reads in E4. injection H as _ <-. chain.
Qed.

Lemma yread_int_reads st r st' : yread_int st = Ok (r, st') -> reads_v2 st st'.
Proof.
  unfold yread_int. intros H.
  destruct (yparse_int st) as [[[v o] st1]|] eqn:E; [|discriminate].
  apply yparse_int_reads in E. cbn [bind] in H.
  destruct (negb (o =? 0) || (v >? INT32_MAX) || (v <? INT32_MIN));
    injection H as _ <-; exact E.
Qed.

Lemma yread_ll_reads st r st' : yread_ll st = Ok (r, st') -> reads_v2 st st'.
Proof.
  unfold yread_ll. intros H.
  destruct (yparse_int st) as [[[v o] st1]|] eqn:E; [|discriminate].
  apply yparse_int_reads in E. cbn [bind] in H.
  destruct (negb (o =? 0)); injection H as _ <-; exact E.
Qed.

Lemma yread_uint_reads st r st' : yread_uint st = Ok (r, st') -> reads_v2 st st'.
Proof.
  unfold yread_uint. intros H.
  destruct (yparse_uint st) as [[[v o] st1]|] eqn:E; [|discriminate].
  apply yparse_uint_reads in E. cbn [bind] in H.
  destruct (negb (o =? 0) || (v >? UINT32_MAX)); injection H as _ <-; exact E.
Qed.

Lemma yread_ull_reads st r st' : yread_ull st = Ok (r, st') -> reads_v2 st st'.
Proof.
  unfold yread_ull. intros H.
  destruct (yparse_uint st) as [[[v o] st1]|] eqn:E; [|discriminate].
  apply yparse_uint_reads in E. cbn [bind] in H.
  destruct (negb (o =? 0)); injection H as _ <-; exact E.
Qed.

Lemma ydigits_loop_reads_v2 {A} (step : A -> Z -> A) fuel : forall acc c st r c' st',
  ydigits_loop step fuel acc c st = Ok (r, c', st') -> reads_v2 st st'.
Proof.
  induction fuel as [|fuel IH]; intros acc c st r c' st' H; [discriminate|].
  cbn [ydigits_loop] in H. destruct (is_digit c).
  - rnext st c1 st1 H1. apply IH in H. chain.
  - injection H as _ _ <-. chain.
Qed.

Lemma yread_mantissa_reads st r c st' :
  yread_mantissa st = Ok (r, c, st') -> reads_v2 st st'.
Proof.
  unfold yread_mantissa. intros H.
  destruct (yskip_space_input st) as [st1|] eqn:E1; [|discriminate].
  apply yskip_space_input_reads in E1. cbn [bind] in H. rnext st1 c0 st2 H2.
  pose proof (sign_reads c0 st2) as Hs.
  destruct (if c0 =? 45 then let (c, st) := ynext_char st2 in (-1, c, st)
            else if c0 =? 43 then let (c, st) := ynext_char st2 in (1, c, st)
            else (1, c0, st2)) as [[sg c1] st3]. cbn [snd] in Hs.
  destruct (ydigits_loop _ (S (S (avail st3))) [] c1 st3) as [[[x c2] st4]|] eqn:E4;
    [|discriminate].
  apply ydigits_loop_reads_v2 in E4. cbn [bind] in H.
  destruct (c2 =? 46).
  - rnext st4 c3 st5 H5.
    destruct (ydigits_loop _ (S (S (avail st5))) [] c3 st5) as [[[f c4] st6]|] eqn:E6;
      [|discriminate].
    apply ydigits_loop_reads_v2 in E6. cbn [bind] in H. injection H as _ _ <-. chain.
  - cbn [bind] in H. injection H as _ _ <-. chain.
Qed.

Lemma yread_double_reads st r st' : yread_double st = Ok (r, st') -> reads_v2 st st'.
Proof.
  unfold yread_double. intros H.
  destruct (yread_mantissa st) as [[[x c] st1]|] eqn:E; [|discriminate].
  apply yread_mantissa_reads in E. injection H as _ <-. exact E.
Qed.

Lemma yread_double_exp_reads st r st' :
  yread_double_exp st = Ok (r, st') -> reads_v2 st st'.
Proof.
  unfold yread_double_exp. intros H.
  destruct (yread_double st) as [[x st1]|] eqn:E; [|discriminate].
  apply yread_double_reads in E. cbn [bind] in H. rpeek st1 c st2 H2.
  destruct ((c =? 101) || (c =? 69)); [|injection H as _ <-; chain].
  rnext (snd (ynext_char st2)) c1 st4 H4.
  pose proof (sign_reads c1 st4) as Hs.
  destruct (if c1 =? 45 then let (c, st) := ynext_char st4 in (-1, c, st)
            else if c1 =? 43 then let (c, st) := ynext_char st4 in (1, c, st)
            else (1, c1, st4)) as [[es c2] st5]. cbn [snd] in Hs.
  destruct (ydigits_loop _ (S (S (avail st5))) 0 c2 st5) as [[[e c3] st6]|] eqn:E6;
    [|discriminate].
  apply ydigits_loop_reads_v2 in E6. cbn [bind] in H. injection H as _ <-. chain.
Qed.

Lemma ystring_loop_reads fuel : forall s st r st',
  ystring_loop fuel s st = Ok (r, st') -> reads_v2 st st'.
Proof.
  induction fuel as [|fuel IH]; intros s st r st' H; [discriminate|].
  cbn [ystring_loop] in H. rnext st c st1 H1.
  destruct (negb (c =? EOF) && negb (isspace c)).
  - apply IH in H. chain.
  - injection H as _ <-. chain.
Qed.

Lemma yread_string_reads st r st' : yread_string st = Ok (r, st') -> reads_v2 st st'.
Proof.
  unfold yread_string. intros H.
  destruct (yskip_space_input st) as [st1|] eqn:E1; [|discriminate].
  apply yskip_space_input_reads in E1. cbn [bind] in H.
  apply ystring_loop_reads in H. chain.
Qed.

Lemma convert_reads {A} (reader : state -> result (A * state)) inj c f s :
  (forall st r st', reader st = Ok (r, st') -> reads_v2 st st') ->
  convert reader inj c f = Ok s -> step_reads c s.
Proof.
  intros Hr H. unfold convert in H.
  destruct (skip_if (skip_space c) (io c)) as [st1|] eqn:E1; [|discriminate].
  apply skip_if_reads in E1. cbn [bind] in H.
  destruct (nth_error (slots c) (ap c)) as [old|]; [|discriminate].
  destruct (reader st1) as [[w st2]|] eqn:E2; [|discriminate].
  apply Hr in E2. cbn [bind] in H.
  destruct (poke (ap c) (inj w) (slots c)); [|discriminate].
  injection H as <-. cbn [step_reads io]. chain.
Qed.

Lemma convert_char_reads c f s : convert_char c f = Ok s -> step_reads c s.
Proof.
  intros H. unfold convert_char in H.
  destruct (nth_error (slots c) (ap c)); [|discriminate].
  destruct (skip_if (skip_space c) (io c)) as [st1|] eqn:E1; [|discriminate].
  apply skip_if_reads in E1. cbn [bind] in H. rnext st1 ch st2 H2.
  destruct (ch =? EOF); [injection H as <-; cbn [step_reads]; chain|].
  destruct (poke (ap c) (Vchar ch) (slots c)); [|discriminate].
  injection H as <-. cbn [step_reads io]. chain.
Qed.

Lemma yscanf_step_reads_v2 c s : yscanf_step c = Ok s -> step_reads c s.
Proof.
  unfold yscanf_step. intros H.
  repeat match type of H with
         | (if ?b then _ else _) = _ => destruct b
         end;
    try (injection H as <-; cbn [step_reads io]; apply reads_none_v2);
    try (apply convert_char_reads in H; exact H);
    (eapply convert_reads in H; [exact H|]);
    eauto using yread_int_reads, yread_uint_reads, yread_ll_reads, yread_ull_reads,
      yread_double_reads, yread_double_exp_reads, yread_string_reads.
Qed.

Lemma yscanf_loop_reads_v2 fuel : forall c r sl st,
  yscanf_loop fuel c = Ok (r, sl, st) -> reads_v2 (io c) st.
Proof.
  induction fuel as [|fuel IH]; intros c r sl st H.
  - cbn [yscanf_loop] in H. destruct (deref (fmt c) =? 0); [|discriminate].
    injection H as _ _ <-. apply reads_none_v2.
  - rewrite yscanf_loop_unfold_v2 in H. destruct (deref (fmt c) =? 0).
    + injection H as _ _ <-. apply reads_none_v2.
    + destruct (yscanf_step c) as [s|] eqn:Es; [|discriminate]. cbn [bind] in H.
      apply yscanf_step_reads_v2 in Es. destruct s as [c'|r' sl' st']; cbn in Es.
      * apply IH in H. eapply reads_trans_v2; eauto.
      * injection H as _ _ <-. exact Es.
Qed.

(** ** The indices *)

Lemma in_bounds_yrefill st : in_bounds_v2 st -> in_bounds_v2 (yrefill st).
Proof.
  intros (H1 & H2 & H3). unfold yrefill.
  pose proof (V3_keeps.fread_length YSCANF_BUFFER_SIZE (stdin st)) as Hl.
  destruct (fread YSCANF_BUFFER_SIZE (stdin st)) as [got f]. cbn [fst] in Hl.
  unfold in_bounds_v2. cbn [yptr yend ybuf].
  rewrite length_app, length_skipn. repeat split; lia.
Qed.

Lemma in_bounds_advance st :
  in_bounds_v2 st -> (yptr st < yend st)%nat ->
  in_bounds_v2 (mkState (ybuf st) (S (yptr st)) (yend st) (stdin st)).
Proof.
  intros (H1 & H2 & H3) H. unfold in_bounds_v2. cbn [yptr yend ybuf].
  repeat split; auto.
Qed.

Lemma in_bounds_ynext_char st : in_bounds_v2 st -> in_bounds_v2 (snd (ynext_char st)).
Proof.
  intros H. unfold ynext_char.
  destruct (Nat.leb_spec (yend st) (yptr st)) as [Hp|Hp].
  - pose proof (in_bounds_yrefill st H) as H'.
    destruct (Nat.leb_spec (yend (yrefill st)) (yptr (yrefill st))); cbn [snd];
      [exact H' | now apply in_bounds_advance].
  - cbn [snd]. now apply in_bounds_advance.
Qed.

Lemma in_bounds_ypeek_char st : in_bounds_v2 st -> in_bounds_v2 (snd (ypeek_char st)).
Proof.
  intros H. unfold ypeek_char.
  destruct (Nat.leb_spec (yend st) (yptr st)) as [Hp|Hp]; [|exact H].
  pose proof (in_bounds_yrefill st H) as H'.
  destruct (yend (yrefill st) <=? yptr (yrefill st))%nat; exact H'.
Qed.

Lemma reads_in_bounds_v2 st st' :
  reads_v2 st st' -> in_bounds_v2 st -> in_bounds_v2 st'.
Proof.
  induction 1; auto using in_bounds_ynext_char, in_bounds_ypeek_char.
Qed.

(** A byte returned is a byte of the array, at the index just passed. *)
Lemma ynext_char_reads_the_array st :
  in_bounds_v2 st -> fst (ynext_char st) <> EOF ->
  exists b,
    nth_error (ybuf (snd (ynext_char st))) (yptr (snd (ynext_char st)) - 1) = Some b /\
    fst (ynext_char st) = uchar b.
Proof.
  intros H Hne.
  assert (Hat : forall s, in_bounds_v2 s -> (yptr s < yend s)%nat ->
            exists b, nth_error (ybuf s) (S (yptr s) - 1) = Some b /\
                      uchar (nth (yptr s) (ybuf s) x00) = uchar b).
  { intros s (H1 & H2 & H3) Hlt. replace (S (yptr s) - 1)%nat with (yptr s) by lia.
    destruct (nth_error (ybuf s) (yptr s)) as [b|] eqn:E.
    - exists b. split; [reflexivity|]. now rewrite (nth_error_nth _ _ _ E).
    - apply nth_error_None in E. lia. }
  unfold ynext_char in *. destruct (Nat.leb_spec (yend st) (yptr st)) as [Hp|Hp].
  - pose proof (in_bounds_yrefill st H) as H'.
    destruct (Nat.leb_spec (yend (yrefill st)) (yptr (yrefill st))) as [Hq|Hq];
      [now elim Hne|].
    cbn [fst snd ybuf yptr]. now apply Hat.
  - cbn [fst snd ybuf yptr]. now apply Hat.
Qed.

(** X21. In yscanf2.h too the indices of the buffer stay in bounds: they
    are at program start, [yrefill], [ynext_char], [ypeek_char] and
    [yscanf] keep them so, and a byte that [ynext_char] returns has been
    read from the array at an index below [yend]. *)
Theorem buffer_stays_in_bounds_v2 :
  (forall f, in_bounds_v2 (start f)) /\
  (forall st, in_bounds_v2 st ->
     in_bounds_v2 (yrefill st) /\
     in_bounds_v2 (snd (ynext_char st)) /\ in_bounds_v2 (snd (ypeek_char st)) /\
     (fst (ynext_char st) <> EOF ->
      exists b,
        nth_error (ybuf (snd (ynext_char st))) (yptr (snd (ynext_char st)) - 1)
        = Some b /\
        fst (ynext_char st) = uchar b)) /\
  (forall f sl st r sl' st',
     in_bounds_v2 st -> yscanf f sl st = Ok (r, sl', st') -> in_bounds_v2 st').
Proof.
  split; [|split].
  - intros f. unfold in_bounds_v2, start. cbn. repeat split; lia.
  - intros st H. split; [now apply in_bounds_yrefill|].
    split; [now apply in_bounds_ynext_char|].
    split; [now apply in_bounds_ypeek_char | now apply ynext_char_reads_the_array].
  - intros f sl st r sl' st' H E. apply yscanf_loop_reads_v2 in E.
    now apply (reads_in_bounds_v2 st st').
Qed.

Lemma buffer_stays_in_bounds_v2_witness :
  in_bounds_v2 (snd (ynext_char (start (file_of (bytes "ab"))))) /\
  in_bounds_v2 (mkState (bytes "12") 0 0 (mkFILE [] 2)).
Proof.
  destruct buffer_stays_in_bounds_v2 as (Hs & Hg & Hy).
  split.
  - apply (Hg (start (file_of (bytes "ab")))), Hs.
  - apply (Hy (bytes "%d") [Vundef] (start (file_of (bytes "12"))) 1 [Vint 12]
              (mkState (bytes "12") 0 0 (mkFILE [] 2))).
    + apply Hs.
    + vm_compute. reflexivity.
Defined.

End V2_keeps.

(* ------------------------------------------------------------------ *)
(** * The outcome on an empty stream, in both headers *)





(* ------------------------------------------------------------------ *)
(** * The inputs of test_yscanf.c

    The model run on inputs of the repository's test suite. *)

(** test_basic_integers *)
Example test_basic_integers :
  exists st,
    V3.yscanf (bytes "%d %d %d %d %d")
      [Vundef; Vundef; Vundef; Vundef; Vundef]
      (V3.start (file_of (bytes "42 -123 0 2147483647 -2147483648")))
    = Ok (5, [Vint 42; Vint (-123); Vint 0; Vint INT32_MAX; Vint INT32_MIN], st).
Proof. eexists. vm_compute. reflexivity. Qed.

(** test_unsigned_long_long *)
Example test_unsigned_long_long :
  exists st,
    V3.yscanf (bytes "%llu %llu %llu") [Vundef; Vundef; Vundef]
      (V3.start (file_of (bytes "18446744073709551615 0 9223372036854775808")))
    = Ok (3, [Vull ULLONG_MAX; Vull 0; Vull 9223372036854775808], st).
Proof. eexists. vm_compute. reflexivity. Qed.

(** test_string_reading *)
Example test_string_reading :
  exists st,
    V3.yscanf (bytes "%s %s %s") [Vundef; Vundef; Vundef]
      (V3.start (file_of (bytes "hello world test123")))
    = Ok (3, [Vstr (map uchar (bytes "hello")); Vstr (map uchar (bytes "world"));
              Vstr (map uchar (bytes "test123"))], st).
Proof. eexists. vm_compute. reflexivity. Qed.

(** test_overflow_handling, on yscanf2.h *)
Example test_overflow_handling :
  exists st,
    V2.yscanf (bytes "%d %u") [Vundef; Vundef]
      (V2.start (file_of (bytes "999999999999999999999999999 4294967296")))
    = Ok (2, [Vint INT32_MAX; Vuint UINT32_MAX], st).
Proof. eexists. vm_compute. reflexivity. Qed.
